(** * tff: the indentation scanner and the tree model, embedded in Rocq

    The development follows the two Go packages of the repository:

    - [Core]: the scanner of package [core] (type [Scanner] with its
      methods [Scan], [scanLine], [scanIndent], [calcIndent], [handleEOF],
      [next], [prev], [Err]);
    - [Model]: package [model] ([New] with its [maker], [Fill] with its
      [filler]).

    Go state is threaded explicitly.  In the scanner a Go loop
    [for s.next() { ... }] is a [Fixpoint] on a counter that is started above
    the number of runes still unread, so the counter never runs out (lemmas
    [*_loop_fuel]), and a run-time panic of Go (index or slice out of range)
    is the result [None].  In the model the recursion of [New] and [Fill]
    follows pointers and is bounded by a fuel; a call returns a [result],
    which tells a Go error, a panic and the end of the fuel apart. *)

From stdpp Require Import base option list strings gmap pretty.
From Stdlib Require Import ZArith Lia.

Local Open Scope Z_scope.

(* ===================================================================== *)
(** * Package core: the scanner                                           *)
(* ===================================================================== *)

Module Core.

(** A [rune] is a Unicode code point (Go's [int32]).  A Go string that the
    scanner builds with [string(rs)] from a slice of runes is kept as that
    list of runes: the scanner only compares such strings, tests prefixes
    and drops a first one-byte rune. *)
Abbreviation rune := Z (only parsing).
Abbreviation gostring := (list Z) (only parsing).

Definition r_tab : rune := 9.
Definition r_lf : rune := 10.
Definition r_cr : rune := 13.
Definition r_space : rune := 32.
Definition r_hash : rune := 35.
Definition ReplacementChar : rune := 65533.

(** The values the field [err] can hold.  [io_EOF] is [io.EOF];
    [errUnreadRune] is what [UnreadRune] returns when no rune was read just
    before. *)
Inductive error :=
  | io_EOF
  | errInvalidCodePoint
  | errMismatchIndent
  | errUnreadRune.

Inductive TokenType :=
  | Invalid
  | Annotation
  | LineString
  | Indent
  | Unindent
  | EOF
  | _SOF.

Record Token := mkToken { tokType : TokenType; tokValue : gostring }.

Definition tok (t : TokenType) : Token := mkToken t [].

Global Instance TokenType_eq_dec : EqDecision TokenType.
Proof. solve_decision. Defined.

Global Instance error_eq_dec : EqDecision error.
Proof. solve_decision. Defined.

(** The character source: an [io.RuneScanner] over a finite sequence of
    runes.  [pending] is what is still to be read; [lastRead] is the rune
    that [UnreadRune] can push back. *)
Record RuneReader := mkReader { pending : list rune; lastRead : option rune }.

Definition ReadRune (rd : RuneReader) : rune * option error * RuneReader :=
  match pending rd with
  | [] => (0, Some io_EOF, mkReader [] None)
  | c :: p => (c, None, mkReader p (Some c))
  end.

Definition UnreadRune (rd : RuneReader) : option error * RuneReader :=
  match lastRead rd with
  | Some c => (None, mkReader (c :: pending rd) None)
  | None => (Some errUnreadRune, rd)
  end.

Record Scanner := mkScanner {
  r : RuneReader;
  ch : rune;
  indents : list gostring;
  toks : list Token;
  err : option error
}.

Definition set_r (s : Scanner) (x : RuneReader) : Scanner :=
  mkScanner x (ch s) (indents s) (toks s) (err s).
Definition set_ch (s : Scanner) (x : rune) : Scanner :=
  mkScanner (r s) x (indents s) (toks s) (err s).
Definition set_indents (s : Scanner) (x : list gostring) : Scanner :=
  mkScanner (r s) (ch s) x (toks s) (err s).
Definition set_toks (s : Scanner) (x : list Token) : Scanner :=
  mkScanner (r s) (ch s) (indents s) x (err s).
Definition set_err (s : Scanner) (x : option error) : Scanner :=
  mkScanner (r s) (ch s) (indents s) (toks s) x.

Definition NewScanner (input : list rune) : Scanner :=
  mkScanner (mkReader input None) 0 [ [] ] [tok _SOF] None.

(** The number of runes still unread, plus one: the counter every reading
    loop starts from. *)
Definition fuel_of (s : Scanner) : nat := S (length (pending (r s))).

Definition is_blank (c : rune) : bool :=
  (c =? r_tab) || (c =? r_space) || (c =? r_cr) || (c =? r_lf).

Definition next (s : Scanner) : bool * Scanner :=
  let '(c, e, rd) := ReadRune (r s) in
  let s := set_err (set_ch (set_r s rd) c) e in
  match e with
  | Some _ => (false, s)
  | None =>
      if is_blank c then (true, s)
      else if c =? ReplacementChar then
        (false, set_err s (Some errInvalidCodePoint))
      else if (0 <=? c) && (c <=? 25) then
        (false, set_err s (Some errInvalidCodePoint))
      else (true, s)
  end.

Definition prev (s : Scanner) : bool * Scanner :=
  let '(e, rd) := UnreadRune (r s) in
  (bool_decide (e = None), set_err (set_r s rd) e).

Definition addTok (s : Scanner) (t : Token) : Scanner :=
  set_toks s (toks s ++ [t]).

Definition Err (s : Scanner) : option error :=
  match err s with
  | Some io_EOF => None
  | e => e
  end.

Definition Token_ (s : Scanner) : option Token := head (toks s).

(** [indentSpaces]: the loop [for s.next() { ... }] that collects spaces and
    tabs. *)
Fixpoint indentSpaces_loop (n : nat) (rs : list rune) (s : Scanner)
  : gostring * bool * Scanner :=
  match n with
  | O => ([], false, s)
  | S n' =>
      let '(ok, s1) := next s in
      if ok then
        if negb (ch s1 =? r_space) && negb (ch s1 =? r_tab) then
          let '(_, s2) := prev s1 in (rs, true, s2)
        else indentSpaces_loop n' (rs ++ [ch s1]) s1
      else ([], false, s1)
  end.

Definition indentSpaces (s : Scanner) : gostring * bool * Scanner :=
  indentSpaces_loop (fuel_of s) [] s.

Fixpoint newlineSpaces_loop (n : nat) (hasNewline : bool) (s : Scanner)
  : bool * bool * Scanner :=
  match n with
  | O => (hasNewline, false, s)
  | S n' =>
      let '(ok, s1) := next s in
      if ok then
        if (ch s1 =? r_cr) || (ch s1 =? r_lf) then
          newlineSpaces_loop n' true s1
        else let '(_, s2) := prev s1 in (hasNewline, true, s2)
      else (hasNewline, false, s1)
  end.

Definition newlineSpaces (s : Scanner) : bool * bool * Scanner :=
  newlineSpaces_loop (fuel_of s) false s.

(** [scanIndent]: the outer [for] loop; every round that goes on has read at
    least one line break. *)
Fixpoint scanIndent_loop (n : nat) (s : Scanner) : gostring * bool * Scanner :=
  match n with
  | O => ([], false, s)
  | S n' =>
      let '(indent, ok, s1) := indentSpaces s in
      if negb ok then (indent, false, s1)
      else
        let '(hasNewline, ok2, s2) := newlineSpaces s1 in
        if negb ok2 then (indent, false, s2)
        else if negb hasNewline then (indent, true, s2)
        else scanIndent_loop n' s2
  end.

Definition scanIndent (s : Scanner) : gostring * bool * Scanner :=
  scanIndent_loop (fuel_of s) s.

Fixpoint list_eqb (a b : gostring) : bool :=
  match a, b with
  | [], [] => true
  | x :: a', y :: b' => (x =? y) && list_eqb a' b'
  | _, _ => false
  end.

(** [strings.HasPrefix s prefix]. *)
Fixpoint HasPrefix (s prefix : gostring) : bool :=
  match prefix, s with
  | [], _ => true
  | y :: p', x :: s' => (x =? y) && HasPrefix s' p'
  | _ :: _, [] => false
  end.

(** The search loop of [calcIndent]: [i] runs from [1] while
    [i < len(s.indents)]; [k] counts the rounds that are left. *)
Fixpoint calcIndent_loop (k : nat) (i : nat) (ind : list gostring)
    (indent : gostring) : Z * bool :=
  match k with
  | O => (0, false)
  | S k' =>
      match ind !! (length ind - i - 1)%nat with
      | Some e =>
          if list_eqb indent e then (- Z.of_nat i, true)
          else calcIndent_loop k' (S i) ind indent
      | None => (0, false)
      end
  end.

Definition calcIndent (s : Scanner) (indent : gostring) : option (Z * bool) :=
  match last (indents s) with
  | None => None
  | Some lst =>
      if list_eqb indent lst then Some (0, true)
      else if HasPrefix indent lst then Some (1, true)
      else Some (calcIndent_loop (length (indents s) - 1) 1 (indents s) indent)
  end.

Fixpoint inline_loop (n : nat) (rs : list rune) (s : Scanner)
  : gostring * Scanner :=
  match n with
  | O => (rs, s)
  | S n' =>
      let '(ok, s1) := next s in
      if ok then
        if (ch s1 =? r_cr) || (ch s1 =? r_lf) then
          let '(_, s2) := prev s1 in (rs, s2)
        else inline_loop n' (rs ++ [ch s1]) s1
      else (rs, s1)
  end.

Definition inline (s : Scanner) : gostring * Scanner :=
  inline_loop (fuel_of s) [] s.

(** [afterIndent]; [s.inline()[1:]] panics on the empty string.  The scanner
    calls it right after [scanIndent], when the rune in [ch] is the one
    [inline] reads first: with [ch] being ['#'], [[1:]] drops that rune. *)
Definition afterIndent (s : Scanner) : option Scanner :=
  if ch s =? r_hash then
    let '(str, s1) := inline s in
    match str with
    | [] => None
    | _ :: rest => Some (addTok s1 (mkToken Annotation rest))
    end
  else
    let '(str, s1) := inline s in
    Some (addTok s1 (mkToken LineString str)).

Fixpoint addToks (n : nat) (t : Token) (s : Scanner) : Scanner :=
  match n with
  | O => s
  | S n' => addToks n' t (addTok s t)
  end.

(** [scanLine].  In the [default] branch [s.indents[:len(s.indents)-n]]
    panics when [n] exceeds the length; [calcIndent] returns [0], [1] or a
    negative number, so the branch is never entered with a positive [n],
    which is made a panic here. *)
Definition scanLine (s : Scanner) : option Scanner :=
  let '(indent, ok, s1) := scanIndent s in
  if negb ok then Some s1
  else
    match calcIndent s1 indent with
    | None => None
    | Some (_, false) => Some (set_err s1 (Some errMismatchIndent))
    | Some (n, true) =>
        if n =? 0 then afterIndent s1
        else if n =? 1 then
          afterIndent (addTok (set_indents s1 (indents s1 ++ [indent]))
                              (tok Indent))
        else if 1 <? n then None
        else
          let n := Z.to_nat (- n) in
          if (length (indents s1) <? n)%nat then None
          else
            Some (addToks n (tok Unindent)
                    (set_indents s1
                       (take (length (indents s1) - n) (indents s1))))
    end.

Definition handleEOF (s : Scanner) : option Scanner :=
  if bool_decide (err s = Some io_EOF) then
    let s1 :=
      if (1 <? length (indents s))%nat then
        set_indents (addToks (length (indents s) - 1) (tok Unindent) s)
                    (take 1 (indents s))
      else s in
    Some (addTok s1 (tok EOF))
  else Some s.

(** [Scan]; [s.toks[1:]] panics when the queue is empty. *)
Definition Scan (s : Scanner) : option (bool * Scanner) :=
  match toks s with
  | [] => None
  | _ :: q =>
      let s := set_toks s q in
      if (0 <? length (toks s))%nat then Some (true, s)
      else if bool_decide (err s ≠ None) then Some (false, s)
      else
        s1 ← scanLine s;
        s2 ← handleEOF s1;
        Some ((0 <? length (toks s2))%nat, s2)
  end.

(** The consumer's loop [for s.Scan() { ... s.Token() ... }]: the tokens it
    sees, and the scanner once [Scan] has returned [false]. *)
Fixpoint scanAll (fuel : nat) (s : Scanner) : option (list Token * Scanner) :=
  match fuel with
  | O => None
  | S f =>
      match Scan s with
      | None => None
      | Some (false, s') => Some ([], s')
      | Some (true, s') =>
          t ← Token_ s';
          '(ts, s'') ← scanAll f s';
          Some (t :: ts, s'')
      end
  end.

(** The runes of an ASCII literal, for examples. *)
Definition runes (s : string) : list rune :=
  map (fun a => Z.of_nat (Ascii.nat_of_ascii a)) (String.list_ascii_of_string s).


(** ** Notions used to state what the scanner does *)

Definition valid_rune (c : rune) : bool :=
  is_blank c || negb ((c =? ReplacementChar) || ((0 <=? c) && (c <=? 25))).

Definition unread (s : Scanner) : list rune := pending (r s).

Definition valid (c : rune) : Prop := valid_rune c = true.
Definition is_space_tab (c : rune) : bool := (c =? r_space) || (c =? r_tab).
Definition is_newline (c : rune) : bool := (c =? r_cr) || (c =? r_lf).

(** [frame s s']: the token queue and the indent stack are untouched. *)
Definition frame (s s' : Scanner) : Prop :=
  indents s' = indents s /\ toks s' = toks s.

(** [consumed s s' pre]: going from [s] to [s'] the runes [pre] were read and
    not pushed back, and the error field of [s'] tells how the reading
    ended: no error or the end of the source after valid runes only, or an
    invalid code point as the last rune read. *)
Definition consumed (s s' : Scanner) (pre : list rune) : Prop :=
  unread s = pre ++ unread s' /\
  match err s' with
  | None => Forall valid pre
  | Some io_EOF => Forall valid pre /\ unread s' = []
  | Some errInvalidCodePoint =>
      exists p c, pre = p ++ [c] /\ Forall valid p /\ valid_rune c = false
  | Some _ => False
  end.

(** What [scanIndent] leaves when it succeeds: no error, and the next rune
    to read, also held in [ch], is valid and is no space, tab or line
    break. *)
Definition at_content (s : Scanner) : Prop :=
  err s = None /\
  exists c rest, unread s = c :: rest /\ ch s = c /\ valid c /\
                 is_space_tab c = false /\ is_newline c = false.

Definition is_content (t : Token) : Prop :=
  tokType t = Annotation \/ tokType t = LineString.

(** [ind !! (length ind - i - 1)] is the entry [i] levels below the top. *)
Definition below_top (ind : list gostring) (i : nat) : option gostring :=
  ind !! (length ind - i - 1)%nat.

(** The five ways a pass of [scanLine] can go. *)
Inductive line_result (s s' : Scanner) : Prop :=
  | line_stop pre :
      frame s s' -> err s' <> None -> consumed s s' pre ->
      line_result s s'
  | line_mismatch s1 pre :
      s' = set_err s1 (Some errMismatchIndent) -> frame s s1 ->
      consumed s s1 pre -> err s1 = None ->
      line_result s s'
  | line_same t pre :
      indents s' = indents s -> toks s' = toks s ++ [t] -> is_content t ->
      consumed s s' pre -> pre <> [] ->
      line_result s s'
  | line_indent indent t pre :
      indents s' = indents s ++ [indent] ->
      toks s' = toks s ++ [tok Indent; t] -> is_content t ->
      consumed s s' pre -> pre <> [] ->
      line_result s s'
  | line_dedent k pre :
      (1 <= k < length (indents s))%nat ->
      indents s' = take (length (indents s) - k) (indents s) ->
      toks s' = toks s ++ replicate k (tok Unindent) ->
      consumed s s' pre -> err s' = None ->
      line_result s s'.

(** The stack is never empty and its bottom entry is the empty string. *)
Definition stack_ok (s : Scanner) : Prop := exists rest, indents s = [] :: rest.

Fixpoint count_type (ty : TokenType) (l : list Token) : nat :=
  match l with
  | [] => 0
  | t :: l' => (if decide (tokType t = ty) then 1 else 0) + count_type ty l'
  end.

(** Indent tokens minus Unindent tokens. *)
Definition depth_change (l : list Token) : Z :=
  Z.of_nat (count_type Indent l) - Z.of_nat (count_type Unindent l).

(** A measure that every call of [Scan] returning [true] makes smaller. *)
Definition weight (s : Scanner) : nat :=
  length (toks s) +
  match err s with
  | None => 5 * length (unread s) + 2 * length (indents s) + 4
  | Some _ => 0
  end.

(** [reading input s]: [s] is a state of a scan of [input]; what has been
    read is a prefix of [input], and the error field tells how the reading
    stands (see [consumed]). *)
Definition reading (input : list rune) (s : Scanner) : Prop :=
  exists pre, input = pre ++ unread s /\
    match err s with
    | None | Some errMismatchIndent => Forall valid pre
    | Some io_EOF => Forall valid pre /\ unread s = []
    | Some errInvalidCodePoint =>
        exists p c, pre = p ++ [c] /\ Forall valid p /\ valid_rune c = false
    | Some errUnreadRune => False
    end.

(** ** Notions used to state more of what the scanner does *)

(** The nesting depth after one token, from the depth [d]: [None] when an
    [Unindent] token comes at depth 0. *)
Definition nest_step (d : nat) (t : Token) : option nat :=
  match tokType t with
  | Indent => Some (S d)
  | Unindent => match d with O => None | S d' => Some d' end
  | _ => Some d
  end.

(** The nesting depth after the tokens [l], from the depth [d]. *)
Fixpoint nesting (d : nat) (l : list Token) : option nat :=
  match l with
  | [] => Some d
  | t :: l' => d' ← nest_step d t; nesting d' l'
  end.

(** [b] is [a] followed by at least one more rune. *)
Definition proper_prefix (a b : gostring) : Prop :=
  exists t, t <> [] /\ b = a ++ t.

(** Every entry is a proper prefix of the entry above it. *)
Fixpoint chain (l : list gostring) : Prop :=
  match l with
  | [] => True
  | a :: l' =>
      match l' with
      | [] => True
      | b :: _ => proper_prefix a b
      end /\ chain l'
  end.

(** The bottom entry is the empty string, and the entries grow by proper
    prefix. *)
Definition stack_sorted (ind : list gostring) : Prop :=
  (exists rest, ind = [] :: rest) /\ chain ind.

(** A rune that the text of a line can hold. *)
Definition line_char (c : rune) : Prop := valid c /\ is_newline c = false.

(** The tokens [Scan] hands out: an annotation or a line holds runes of one
    line, a line is not empty and starts with no space, tab or ['#'], and
    the other tokens carry no text. *)
Definition token_ok (t : Token) : Prop :=
  match tokType t with
  | LineString =>
      Forall line_char (tokValue t) /\
      exists c body, tokValue t = c :: body /\ is_space_tab c = false /\
                     c <> r_hash
  | Annotation => Forall line_char (tokValue t)
  | Indent | Unindent | EOF => tokValue t = []
  | Invalid | _SOF => False
  end.

(** What a pass of [scanLine] does, with the tokens and the stack it
    leaves. *)
Inductive line_detail (s s' : Scanner) : Prop :=
  | detail_none :
      frame s s' -> err s' <> None -> line_detail s s'
  | detail_same t :
      indents s' = indents s -> toks s' = toks s ++ [t] ->
      is_content t -> token_ok t ->
      line_detail s s'
  | detail_push top indent t :
      last (indents s) = Some top -> proper_prefix top indent ->
      indents s' = indents s ++ [indent] ->
      toks s' = toks s ++ [tok Indent; t] -> is_content t -> token_ok t ->
      line_detail s s'
  | detail_pop k :
      (1 <= k < length (indents s))%nat ->
      indents s' = take (length (indents s) - k) (indents s) ->
      toks s' = toks s ++ replicate k (tok Unindent) ->
      at_content s' ->
      line_detail s s'.

(** The scanner that has read the rune [c] and pushed it back, [rest]
    being what follows [c]. *)
Definition at_rune (s : Scanner) (c : rune) (rest : list rune) : Scanner :=
  mkScanner (mkReader (c :: rest) None) c (indents s) (toks s) None.

(** The scanner after a call of [next] that returns [false]: at the end of
    the source, or after the invalid rune [c]. *)
Definition at_end (s : Scanner) : Scanner :=
  mkScanner (mkReader [] None) 0 (indents s) (toks s) (Some io_EOF).
Definition at_invalid (s : Scanner) (c : rune) (rest : list rune) : Scanner :=
  mkScanner (mkReader rest (Some c)) c (indents s) (toks s)
            (Some errInvalidCodePoint).

(** Where a reading loop stops on [rest], the runes it does not take: the
    flag it returns and the state it leaves. *)
Definition stop_state (s : Scanner) (rest : list rune) : bool * Scanner :=
  match rest with
  | [] => (false, at_end s)
  | c :: p => if valid_rune c then (true, at_rune s c p)
              else (false, at_invalid s c p)
  end.

(** The first rune of [l], if any, does not satisfy [f]. *)
Definition head_not (f : rune -> bool) (l : list rune) : Prop :=
  match l with
  | [] => True
  | c :: _ => f c = false
  end.

(** The text of a line that starts at the first column: runes of one line,
    the first of them no space and no tab. *)
Definition content_line (l : list rune) : Prop :=
  Forall line_char l /\
  exists c body, l = c :: body /\ is_space_tab c = false.

(** The token [afterIndent] makes of the text of a line. *)
Definition line_token (l : list rune) : Token :=
  match l with
  | c :: body =>
      if c =? r_hash then mkToken Annotation body else mkToken LineString l
  | [] => mkToken LineString []
  end.

(** A source without indentation: lines, each with the line breaks that
    follow it. *)
Fixpoint flat_source (ls : list (list rune * list rune)) : list rune :=
  match ls with
  | [] => []
  | (l, sep) :: ls' => l ++ sep ++ flat_source ls'
  end.

Fixpoint flat_ok (ls : list (list rune * list rune)) : Prop :=
  match ls with
  | [] => True
  | (l, sep) :: ls' =>
      content_line l /\ Forall (fun c => is_newline c = true) sep /\
      (ls' <> [] -> sep <> []) /\ flat_ok ls'
  end.

(** Every [Indent] token is directly followed by the token of a line. *)
Fixpoint indent_then_content (l : list Token) : Prop :=
  match l with
  | [] => True
  | t :: l' =>
      (tokType t = Indent ->
       match l' with
       | t' :: _ => is_content t'
       | [] => False
       end) /\ indent_then_content l'
  end.

End Core.

(* ===================================================================== *)
(** * Package model: the tree model                                       *)
(* ===================================================================== *)

Module Model.

(** ** Results *)

(** What a call can come to: a value, a Go [error] (with its message), a
    run-time panic, or the end of the fuel that bounds the recursion of the
    model (Go itself would go on). *)
Inductive result (A : Type) : Type :=
  | Ok (a : A)
  | Error (msg : string)
  | Panic
  | OutOfFuel.
Arguments Ok {A} a.
Arguments Error {A} msg.
Arguments Panic {A}.
Arguments OutOfFuel {A}.

Global Instance result_bind : MBind result := fun A B f x =>
  match x with
  | Ok a => f a
  | Error msg => Error msg
  | Panic => Panic
  | OutOfFuel => OutOfFuel
  end.

Definition of_option {A} (o : option A) : result A :=
  match o with
  | Some a => Ok a
  | None => Panic
  end.

(** ** Go values as [reflect] sees them *)

(** The values the package inspects, by [Kind]: [int], [string], slices
    (the nil slice apart from the empty one), structs with their field
    names, pointers ([None] is the nil pointer, [Some a] the address of a
    heap cell), and [VOther] for every other kind.  [v.Int()] widens an
    [int] to [int64] and [int(...)] narrows it back, so an integer is kept
    as it is. *)
Inductive value :=
  | VInt (n : Z)
  | VString (s : string)
  | VSliceNil
  | VSlice (elems : list value)
  | VStruct (fields : list (string * value))
  | VPtr (target : option Z)
  | VOther.

(** Go types, as far as [Fill] looks at them.  [TInt] and [TString] are the
    predeclared types [int] and [string]; a defined type of kind [Int] or
    [String] (such as [type MyInt int]) is not among the types of the
    model, and what is stated about [TInt] and [TString] is stated about
    [int] and [string] only.  A slice, pointer or struct type stands for its
    underlying type. *)
Inductive ty :=
  | TInt
  | TString
  | TSlice (elem : ty)
  | TStruct (fields : list (string * ty))
  | TPtr (elem : ty)
  | TOther.

Fixpoint ty_eqb (a b : ty) : bool :=
  match a, b with
  | TInt, TInt | TString, TString | TOther, TOther => true
  | TSlice x, TSlice y | TPtr x, TPtr y => ty_eqb x y
  | TStruct fs, TStruct gs =>
      (fix go (fs gs : list (string * ty)) : bool :=
         match fs, gs with
         | [], [] => true
         | (n, x) :: fs', (k, y) :: gs' =>
             String.eqb n k && ty_eqb x y && go fs' gs'
         | _, _ => false
         end) fs gs
  | _, _ => false
  end.

(** The zero value of a type: what [reflect.New] allocates. *)
Fixpoint zero (t : ty) : value :=
  match t with
  | TInt => VInt 0
  | TString => VString ""
  | TSlice _ => VSliceNil
  | TStruct fs => VStruct (map (fun '(n, x) => (n, zero x)) fs)
  | TPtr _ => VPtr None
  | TOther => VOther
  end.

(** The elements of a slice value ([v.Len()], [v.Index(i)]). *)
Definition slice_elems (v : value) : option (list value) :=
  match v with
  | VSliceNil => Some []
  | VSlice es => Some es
  | _ => None
  end.

(** ** Nodes *)

(** What the field [Value interface{}] of a [Node] can hold: nothing
    ([nil]), an [int], a [string], a [Label], or an [IdentValue]. *)
Inductive nvalue :=
  | NNil
  | NInt (n : Z)
  | NString (s : string)
  | NLabel (l : string)
  | NIdent (Ident : string) (v : nvalue).

(** A [*Node] is an index into the sequence of the nodes allocated so far;
    a [List] is a slice of such pointers, [None] being the nil slice. *)
Record Node := mkNode {
  Label : string;
  Value : nvalue;
  List : option (list nat)
}.

Definition set_Label (n : Node) (l : string) : Node :=
  mkNode l (Value n) (List n).
Definition set_Value (n : Node) (v : nvalue) : Node :=
  mkNode (Label n) v (List n).

(** ** The maker *)

(** [m] and [serial] are the fields of Go's [maker]; [nodes] is the part
    of the heap that holds the nodes allocated so far, which the maker
    mutates through its pointers. *)
Record maker := mkMaker {
  m : gmap Z nat;
  serial : Z;
  nodes : list Node
}.

Definition newMaker : maker := mkMaker ∅ 1 [].

(** [&Node{...}]. *)
Definition alloc (n : Node) (mk : maker) : nat * maker :=
  (length (nodes mk), mkMaker (m mk) (serial mk) (nodes mk ++ [n])).

Definition register (p : Z) (node : nat) (mk : maker) : maker :=
  mkMaker (<[p := node]> (m mk)) (serial mk) (nodes mk).

(** Go's [int] arithmetic, on 64 bits. *)
Definition wrap_int (z : Z) : Z := (z + 2 ^ 63) mod 2 ^ 64 - 2 ^ 63.

(** [strconv.Itoa]. *)
Definition Itoa (z : Z) : string := pretty z.

(** [Label(0)]: the string of the code point 0. *)
Definition Label0 : string := String (Ascii.ascii_of_nat 0) "".

Definition label (addr : Z) (mk : maker) : result (string * bool * maker) :=
  match m mk !! addr with
  | Some p =>
      node ← of_option (nodes mk !! p);
      if String.eqb (Label node) "" then
        let l := Itoa (serial mk) in
        Ok (l, true,
            mkMaker (m mk) (wrap_int (serial mk + 1))
                    (<[p := set_Label node l]> (nodes mk)))
      else Ok (Label node, true, mk)
  | None => Ok (Label0, false, mk)
  end.

Section make.

(** The heap the value lives in: what the pointers of the value point
    to. *)
Context (h : gmap Z value).

(** [indirect]; each round follows one pointer. *)
Fixpoint indirect (fuel : nat) (v : value) : result value :=
  match v with
  | VPtr (Some a) =>
      match fuel with
      | O => OutOfFuel
      | S f => v' ← of_option (h !! a); indirect f v'
      end
  | _ => Ok v
  end.

(** The loop of [listFromSlice]; [node] stands for [m.node]. *)
Fixpoint listFromSlice_loop (node : value -> maker -> result (nat * maker))
    (elems : list value) (mk : maker) : result (list nat * maker) :=
  match elems with
  | [] => Ok ([], mk)
  | e :: es =>
      '(n, mk) ← node e mk;
      '(l, mk) ← listFromSlice_loop node es mk;
      Ok (n :: l, mk)
  end.

Definition listFromSlice (node : value -> maker -> result (nat * maker))
    (elems : list value) (mk : maker) : result (option (list nat) * maker) :=
  '(l, mk) ← listFromSlice_loop node elems mk; Ok (Some l, mk).

(** The loop of [listFromStruct]: a node without a [List] gets its value
    wrapped into an [IdentValue] with the name of the field. *)
Fixpoint listFromStruct_loop (node : value -> maker -> result (nat * maker))
    (fields : list (string * value)) (mk : maker)
  : result (list nat * maker) :=
  match fields with
  | [] => Ok ([], mk)
  | (name, v) :: fs =>
      '(n, mk) ← node v mk;
      nd ← of_option (nodes mk !! n);
      let mk :=
        match List nd with
        | None =>
            mkMaker (m mk) (serial mk)
              (<[n := set_Value nd (NIdent name (Value nd))]> (nodes mk))
        | Some _ => mk
        end in
      '(l, mk) ← listFromStruct_loop node fs mk;
      Ok (n :: l, mk)
  end.

Definition listFromStruct (node : value -> maker -> result (nat * maker))
    (fields : list (string * value)) (mk : maker)
  : result (option (list nat) * maker) :=
  '(l, mk) ← listFromStruct_loop node fields mk; Ok (Some l, mk).

Definition nodeFromPtr (node : value -> maker -> result (nat * maker))
    (fuel : nat) (target : option Z) (mk : maker) : result (nat * maker) :=
  match target with
  | None => Ok (alloc (mkNode "" NNil None) mk)
  | Some addr =>
      '(l, ok, mk) ← label addr mk;
      if (ok : bool) then Ok (alloc (mkNode "" (NLabel l) None) mk)
      else
        v ← indirect fuel (VPtr (Some addr));
        '(n, mk) ← node v mk;
        Ok (n, register addr n mk)
  end.

(** [m.list] and [m.node]. *)
Fixpoint list_ (fuel : nat) (v : value) (mk : maker) {struct fuel}
  : result (option (list nat) * maker) :=
  match fuel with
  | O => OutOfFuel
  | S f =>
      match v with
      | VInt _ | VString _ =>
          '(n, mk) ← node f v mk; Ok (Some [n], mk)
      | VSliceNil => listFromSlice (node f) [] mk
      | VSlice es => listFromSlice (node f) es mk
      | VStruct fs => listFromStruct (node f) fs mk
      | VPtr _ => v' ← indirect f v; list_ f v' mk
      | VOther => Error "maker.list: unsupported type"
      end
  end
with node (fuel : nat) (v : value) (mk : maker) {struct fuel}
  : result (nat * maker) :=
  match fuel with
  | O => OutOfFuel
  | S f =>
      match v with
      | VInt n => Ok (alloc (mkNode "" (NInt n) None) mk)
      | VString s => Ok (alloc (mkNode "" (NString s) None) mk)
      | VSliceNil | VSlice _ =>
          '(l, mk) ← list_ f v mk; Ok (alloc (mkNode "" NNil l) mk)
      | VPtr t => nodeFromPtr (node f) f t mk
      | VStruct _ | VOther => Error "node: unsupported type"
      end
  end.

(** [New]: [None] is the nil interface.  The result is the [List] and the
    nodes it points to. *)
Definition New (fuel : nat) (v : option value)
  : result (option (list nat) * list Node) :=
  match v with
  | None => Ok (None, [])
  | Some v => '(l, mk) ← list_ fuel v newMaker; Ok (l, nodes mk)
  end.

End make.

(** ** The filler *)

(** A place inside a heap cell: the fields and the indexes to go through. *)
Inductive step :=
  | SField (i : nat)
  | SIndex (i : nat).

(** A [reflect.Value] of the destination, with its type and its read-only
    flag (set on what is reached through an unexported field).  [RLoc] is
    an addressable value, the place [path] of the heap cell [a]; [RVal] is
    a value that cannot be addressed, as [reflect.ValueOf(v)] gives.  A
    slice is kept by value in the place that holds it: the model leaves
    out that two slices can share a backing array, and pointers into the
    inside of a cell. *)
Inductive rvalue :=
  | RLoc (t : ty) (ro : bool) (a : Z) (path : list step)
  | RVal (t : ty) (ro : bool) (v : value).

Definition rv_type (v : rvalue) : ty :=
  match v with
  | RLoc t _ _ _ | RVal t _ _ => t
  end.

Definition rv_ro (v : rvalue) : bool :=
  match v with
  | RLoc _ ro _ _ | RVal _ ro _ => ro
  end.

(** [m] is the field of Go's [filler] (here [fm]); [mem] is the heap of the
    destination, [next_addr] the address [reflect.New] gives next, and
    [out] what [p] (that is [fmt.Println]) has printed. *)
Record filler := mkFiller {
  fm : gmap string rvalue;
  mem : gmap Z value;
  next_addr : Z;
  out : list string
}.

Definition newFiller (mem : gmap Z value) (next_addr : Z) : filler :=
  mkFiller ∅ mem next_addr [].

Definition fregister (l : string) (v : rvalue) (f : filler) : filler :=
  mkFiller (<[l := v]> (fm f)) (mem f) (next_addr f) (out f).

Definition println (l : string) (f : filler) : filler :=
  mkFiller (fm f) (mem f) (next_addr f) (out f ++ [l]).

Definition set_mem (f : filler) (mem' : gmap Z value) : filler :=
  mkFiller (fm f) mem' (next_addr f) (out f).

(** [reflect.New(t)]: a new cell holding the zero value of [t]. *)
Definition new_cell (t : ty) (f : filler) : Z * filler :=
  (next_addr f,
   mkFiller (fm f) (<[next_addr f := zero t]> (mem f)) (next_addr f + 1)
            (out f)).

Fixpoint read_path (v : value) (p : list step) : option value :=
  match p with
  | [] => Some v
  | SField i :: p' =>
      match v with
      | VStruct fs => fv ← fs !! i; read_path fv.2 p'
      | _ => None
      end
  | SIndex i :: p' =>
      match v with
      | VSlice es => e ← es !! i; read_path e p'
      | _ => None
      end
  end.

Fixpoint write_path (v : value) (p : list step) (x : value) : option value :=
  match p with
  | [] => Some x
  | SField i :: p' =>
      match v with
      | VStruct fs =>
          fv ← fs !! i;
          fv' ← write_path fv.2 p' x;
          Some (VStruct (<[i := (fv.1, fv')]> fs))
      | _ => None
      end
  | SIndex i :: p' =>
      match v with
      | VSlice es =>
          e ← es !! i;
          e' ← write_path e p' x;
          Some (VSlice (<[i := e']> es))
      | _ => None
      end
  end.

(** The value a [reflect.Value] holds now. *)
Definition rv_get (f : filler) (v : rvalue) : option value :=
  match v with
  | RLoc _ _ a p => c ← mem f !! a; read_path c p
  | RVal _ _ x => Some x
  end.

(** [v.Set(x)], for an [x] of the type of [v]: panics unless [v] is
    addressable and not read-only. *)
Definition rv_set (f : filler) (v : rvalue) (x : value) : result filler :=
  match v with
  | RLoc _ false a p =>
      c ← of_option (mem f !! a);
      c' ← of_option (write_path c p x);
      Ok (set_mem f (<[a := c']> (mem f)))
  | _ => Panic
  end.

(** The name starts with an ASCII character. *)
Definition ascii_initial (name : string) : Prop :=
  match name with
  | String a _ => (Ascii.nat_of_ascii a < 128)%nat
  | EmptyString => False
  end.

(** A field name is exported when its first rune is an upper-case letter
    (Go asks [unicode.IsUpper]).  The definition decides this on the first
    byte of the name, where the upper-case letters are ['A'] to ['Z']:
    the answer [true] is right for every name, the answer [false] is right
    for the names that start with an ASCII character ([ascii_initial]).  A
    name that starts with another rune is outside the model: what depends
    on a field not being exported is stated for names with
    [ascii_initial] only. *)
Definition exported (name : string) : bool :=
  match name with
  | String a _ =>
      let n := Ascii.nat_of_ascii a in (65 <=? n)%nat && (n <=? 90)%nat
  | EmptyString => false
  end.

Fixpoint field_index {A} (fs : list (string * A)) (name : string)
  : option (nat * A) :=
  match fs with
  | [] => None
  | (k, x) :: fs' =>
      if String.eqb k name then Some (O, x)
      else '(i, y) ← field_index fs' name; Some (S i, y)
  end.

(** [v.FieldByName(name)] on a struct with the fields [fs]; [Ok None] is
    the invalid [Value] of a name that is no field. *)
Definition FieldByName (fs : list (string * ty)) (name : string)
    (v : rvalue) : result (option rvalue) :=
  match field_index fs name with
  | None => Ok None
  | Some (i, t) =>
      let ro := rv_ro v || negb (exported name) in
      match v with
      | RLoc _ _ a p => Ok (Some (RLoc t ro a (p ++ [SField i])))
      | RVal _ _ x =>
          fv ← of_option (read_path x [SField i]); Ok (Some (RVal t ro fv))
      end
  end.

(** [allocIndirect]; each round of its loop strips one pointer type. *)
Fixpoint allocIndirect_ty (t : ty) (v : rvalue) (f : filler)
  : result (rvalue * filler) :=
  match t with
  | TPtr e =>
      cur ← of_option (rv_get f v);
      match cur with
      | VPtr None =>
          let '(a, f) := new_cell e f in
          f ← rv_set f v (VPtr (Some a));
          allocIndirect_ty e (RLoc e (rv_ro v) a []) f
      | VPtr (Some a) => allocIndirect_ty e (RLoc e (rv_ro v) a []) f
      | _ => Panic
      end
  | _ => Ok (v, f)
  end.

Definition allocIndirect (v : rvalue) (f : filler) : result (rvalue * filler) :=
  allocIndirect_ty (rv_type v) v f.

(** [v.Set(reflect.ValueOf(x))] for [v] of type [int] or [string]: the
    dynamic type of [x] has to be the type of [v], so an [int] goes into an
    [int], a [string] into a [string], and nothing else is assignable (not
    [nil], not a [Label], not an [IdentValue]). *)
Definition assign_scalar (t : ty) (x : nvalue) : option value :=
  match t, x with
  | TInt, NInt n => Some (VInt n)
  | TString, NString s => Some (VString s)
  | _, _ => None
  end.

Definition set_interface (v : rvalue) (x : nvalue) (f : filler)
  : result filler :=
  x' ← of_option (assign_scalar (rv_type v) x); rv_set f v x'.

(** The [Int, String] case of [fromNode]. *)
Definition fromNode_scalar (nd : Node) (v : rvalue) (f : filler)
  : result filler :=
  match Value nd with
  | NIdent _ (NLabel l) => Ok (println l f)
  | NIdent _ x => set_interface v x f
  | x => set_interface v x f
  end.

Definition ptrFromNode (fromNode : nat -> rvalue -> filler -> result filler)
    (nd : Node) (n : nat) (v : rvalue) (f : filler) : result filler :=
  if negb (String.eqb (Label nd) "") then
    let f := fregister (Label nd) v f in
    '(v', f) ← allocIndirect v f; fromNode n v' f
  else
    match Value nd with
    | NLabel l =>
        x ← of_option (fm f !! l);
        if rv_ro x || negb (ty_eqb (rv_type x) (rv_type v)) then Panic
        else xv ← of_option (rv_get f x); rv_set f v xv
    | _ => '(v', f) ← allocIndirect v f; fromNode n v' f
    end.

(** [v.Index(i)] of an addressable slice. *)
Definition rv_index (e : ty) (v : rvalue) (i : nat) : result rvalue :=
  match v with
  | RLoc _ ro a p => Ok (RLoc e ro a (p ++ [SIndex i]))
  | RVal _ _ _ => Panic
  end.

(** The loop of [sliceFromList]: [i] is the index of [range l]. *)
Fixpoint sliceFromList_loop
    (fromNode : nat -> rvalue -> filler -> result filler)
    (e : ty) (i : nat) (l : list nat) (v : rvalue) (f : filler)
  : result filler :=
  match l with
  | [] => Ok f
  | n :: l' =>
      cur ← of_option (rv_get f v);
      es ← of_option (slice_elems cur);
      f ← rv_set f v (VSlice (es ++ [zero e]));
      elem ← rv_index e v i;
      f ← fromNode n elem f;
      sliceFromList_loop fromNode e (S i) l' v f
  end.

Definition sliceFromList (fromNode : nat -> rvalue -> filler -> result filler)
    (e : ty) (l : list nat) (v : rvalue) (f : filler) : result filler :=
  sliceFromList_loop fromNode e O l v f.

Section fill.

(** The nodes the [List] points to. *)
Context (nodes : list Node).

Fixpoint structFromList
    (fromNode : nat -> rvalue -> filler -> result filler)
    (fs : list (string * ty)) (l : list nat) (v : rvalue) (f : filler)
  : result filler :=
  match l with
  | [] => Ok f
  | n :: l' =>
      nd ← of_option (nodes !! n);
      f ← match Value nd with
          | NIdent name _ =>
              field ← FieldByName fs name v;
              match field with
              | Some fv => fromNode n fv f
              | None => Ok f
              end
          | _ => Ok f
          end;
      structFromList fromNode fs l' v f
  end.

(** [len(l)] and the elements of a [List]; the nil [List] has none. *)
Definition list_elems (l : option (list nat)) : list nat := default [] l.

(** [f.fromList] and [f.fromNode]. *)
Fixpoint fromList (fuel : nat) (l : option (list nat)) (v : rvalue)
    (f : filler) {struct fuel} : result filler :=
  match fuel with
  | O => OutOfFuel
  | S k =>
      match rv_type v with
      | TInt | TString =>
          match list_elems l with
          | n :: _ => fromNode k n v f
          | [] => Error "List.fill: unsupported type"
          end
      | TSlice e => sliceFromList (fromNode k) e (list_elems l) v f
      | TStruct fs => structFromList (fromNode k) fs (list_elems l) v f
      | TPtr _ => '(v', f) ← allocIndirect v f; fromList k l v' f
      | TOther => Error "List.fill: unsupported type"
      end
  end
with fromNode (fuel : nat) (n : nat) (v : rvalue) (f : filler) {struct fuel}
  : result filler :=
  match fuel with
  | O => OutOfFuel
  | S k =>
      match rv_type v with
      | TInt | TString =>
          nd ← of_option (nodes !! n); fromNode_scalar nd v f
      | TSlice _ =>
          nd ← of_option (nodes !! n); fromList k (List nd) v f
      | TPtr _ =>
          nd ← of_option (nodes !! n); ptrFromNode (fromNode k) nd n v f
      | TStruct _ | TOther => Error "Node.fill: unsupported type"
      end
  end.

(** [Fill]: [v] is the interface value, [None] being the nil interface;
    [mem] and [next_addr] are the heap of the caller. *)
Definition Fill (fuel : nat) (l : option (list nat)) (v : option (ty * value))
    (mem : gmap Z value) (next_addr : Z) : result filler :=
  match v with
  | None => Ok (newFiller mem next_addr)
  | Some (t, x) => fromList fuel l (RVal t false x) (newFiller mem next_addr)
  end.

End fill.
(** ** Notions used to state what the package does *)

Definition scalar_type (t : ty) : Prop := t = TInt \/ t = TString.

(** A child that [structFromList] cannot route to a field of a struct with
    the fields [fs]: its value is no [IdentValue], or the name it carries is
    no field. *)
Definition unrouted (fs : list (string * ty)) (nd : Node) : Prop :=
  match Value nd with
  | NIdent name _ => field_index fs name = None
  | _ => True
  end.

(** The values of the types built from [int], [string] and slices only,
    by their type. *)
Fixpoint plain (t : ty) (v : value) : Prop :=
  match t with
  | TInt => exists n, v = VInt n
  | TString => exists s, v = VString s
  | TSlice e => v = VSliceNil \/ exists es, v = VSlice es /\ Forall (plain e) es
  | TStruct _ | TPtr _ | TOther => False
  end.

(** The fuel that building and filling a value of such a type takes. *)
Fixpoint tdepth (t : ty) : nat :=
  match t with
  | TSlice e => 2 + tdepth e
  | _ => 1
  end.

(** [repr ns t p v]: in the nodes [ns], the node at [p] is the one the maker
    builds for the plain value [v] of type [t]. *)
Fixpoint repr (ns : list Node) (t : ty) (p : nat) (v : value) : Prop :=
  match t with
  | TInt => exists n, v = VInt n /\ ns !! p = Some (mkNode "" (NInt n) None)
  | TString =>
      exists s, v = VString s /\ ns !! p = Some (mkNode "" (NString s) None)
  | TSlice e =>
      exists ps es, slice_elems v = Some es /\
        ns !! p = Some (mkNode "" NNil (Some ps)) /\
        Forall2 (repr ns e) ps es
  | TStruct _ | TPtr _ | TOther => False
  end.

(** What [Fill] makes of a plain value: an empty slice comes back as the
    nil slice. *)
Fixpoint nilify (v : value) : value :=
  match v with
  | VSlice [] => VSliceNil
  | VSlice es => VSlice (map nilify es)
  | _ => v
  end.

(** No slice inside the value is empty without being nil. *)
Fixpoint no_empty_slice (v : value) : Prop :=
  match v with
  | VSlice es =>
      es <> [] /\
      (fix all (es : list value) : Prop :=
         match es with
         | [] => True
         | x :: es' => no_empty_slice x /\ all es'
         end) es
  | _ => True
  end.

(** [reflect.DeepEqual] on two plain values of one type: integers and
    strings are compared with [==]; two slices are deeply equal when both
    are nil or both are not, they have the same length and their elements
    are deeply equal. *)
Fixpoint DeepEqual (a b : value) : bool :=
  match a, b with
  | VInt x, VInt y => x =? y
  | VString x, VString y => String.eqb x y
  | VSliceNil, VSliceNil => true
  | VSlice xs, VSlice ys =>
      (fix go (xs ys : list value) : bool :=
         match xs, ys with
         | [], [] => true
         | x :: xs', y :: ys' => DeepEqual x y && go xs' ys'
         | _, _ => false
         end) xs ys
  | _, _ => false
  end.

(** What [m.node] does on the plain values of a type: it adds nodes, the
    last of them for the value itself, and changes nothing else. *)
Definition node_builds (h : gmap Z value) (t : ty) : Prop :=
  forall v, plain t v -> forall fuel mk, (tdepth t <= fuel)%nat ->
  exists p new,
    node h fuel v mk = Ok (p, mkMaker (m mk) (serial mk) (nodes mk ++ new)) /\
    repr (nodes mk ++ new) t p v.

(** What [f.fromNode] does with the node of a plain value of a type, on a
    place that holds the zero value of the type: it writes the value there,
    empty slices as nil slices, and changes nothing else. *)
Definition node_fills (ns : list Node) (t : ty) : Prop :=
  forall v p, repr ns t p v ->
  forall fuel a path f c, (tdepth t <= fuel)%nat ->
  mem f !! a = Some c -> read_path c path = Some (zero t) ->
  exists c', write_path c path (nilify v) = Some c' /\
    fromNode ns fuel p (RLoc t false a path) f =
      Ok (set_mem f (<[a := c']> (mem f))).

(** [below rank n v]: every address held in [v], at any depth, has a rank
    below [n]. *)
Inductive below (rank : Z -> nat) (n : nat) : value -> Prop :=
  | below_int x : below rank n (VInt x)
  | below_string s : below rank n (VString s)
  | below_slice_nil : below rank n VSliceNil
  | below_slice es : Forall (below rank n) es -> below rank n (VSlice es)
  | below_struct fs :
      Forall (fun f => below rank n f.2) fs -> below rank n (VStruct fs)
  | below_nil : below rank n (VPtr None)
  | below_ptr a : (rank a < n)%nat -> below rank n (VPtr (Some a))
  | below_other : below rank n VOther.

(** A heap without cycle: its cells can be ranked so that every pointer
    held in a cell goes to a cell of lower rank. *)
Definition acyclic (h : gmap Z value) : Prop :=
  exists rank : Z -> nat,
    forall a v, h !! a = Some v -> below rank (rank a) v.




(** ** Notions used to state more of what the package does *)

(** The value a node holds for an integer or a string. *)
Definition nval (v : value) : nvalue :=
  match v with
  | VInt n => NInt n
  | VString s => NString s
  | _ => NNil
  end.

(** A record, by its fields: the name, the type and the value of each. *)
Definition struct_value (rows : list (string * ty * value)) : value :=
  VStruct (map (fun r => (r.1.1, r.2)) rows).

Definition struct_type (rows : list (string * ty * value)) : ty :=
  TStruct (map (fun r => (r.1.1, r.1.2)) rows).

(** What comes back of a field of a record: an integer or a string as it
    is, the zero value for a field of another type. *)
Definition lossy (t : ty) (v : value) : value :=
  match t with
  | TInt | TString => v
  | _ => zero t
  end.

Definition fields_back (rows : list (string * ty * value))
  : list (string * value) :=
  map (fun r => (r.1.1, lossy r.1.2 r.2)) rows.

Definition fields_zero (rows : list (string * ty * value))
  : list (string * value) :=
  map (fun r => (r.1.1, zero r.1.2)) rows.

(** The node [listFromStruct] leaves for a field: the value of an integer
    or a string wrapped with the name of the field, the node of a slice as
    [m.node] built it. *)
Definition field_node (ns : list Node) (p : nat) (r : string * ty * value)
  : Prop :=
  match r.1.2 with
  | TInt | TString => ns !! p = Some (mkNode "" (NIdent r.1.1 (nval r.2)) None)
  | _ => exists l, ns !! p = Some (mkNode "" NNil (Some l))
  end.

(** A field [listFromStruct] and [structFromList] can handle: a plain value
    of its type, within the fuel. *)
Definition field_ok (f : nat) (r : string * ty * value) : Prop :=
  plain r.1.2 r.2 /\ (tdepth r.1.2 <= f)%nat.

(** A record where [m.node] is called: the record itself, or a pointer to
    it. *)
Definition record_inside (h : gmap Z value) (x : value) : Prop :=
  (exists fs, x = VStruct fs) \/
  (exists a fs, x = VPtr (Some a) /\ h !! a = Some (VStruct fs)).

(** The nodes [New] builds for a slice of pointers that all hold the
    address of one integer or string [x]: the node of [x], labelled "1" by
    the second pointer, and the node of every pointer after the first, a
    reference to that label. *)
Definition target_node (x : value) : Node := mkNode "1" (nval x) None.
Definition again_node : Node := mkNode "" (NLabel "1") None.

End Model.

(* ===================================================================== *)
(** * The scanner: properties                                             *)
(* ===================================================================== *)

Module CoreFacts.
Import Core.

(** ** Reading one rune *)

Lemma next_spec s ok s' :
  next s = (ok, s') ->
  indents s' = indents s /\ toks s' = toks s /\
  match unread s with
  | [] => ok = false /\ err s' = Some io_EOF /\ unread s' = [] /\ ch s' = 0
  | c :: p =>
      unread s' = p /\ ch s' = c /\ lastRead (r s') = Some c /\
      (if valid_rune c then ok = true /\ err s' = None
       else ok = false /\ err s' = Some errInvalidCodePoint)
  end.
Proof.
  unfold next, unread, ReadRune, valid_rune.
  destruct (pending (r s)) as [|c p] eqn:Hp; simpl.
  - intros [= <- <-]. simpl. done.
  - destruct (is_blank c); simpl.
    + intros [= <- <-]. simpl. done.
    + destruct (c =? ReplacementChar); simpl.
      * intros [= <- <-]. simpl. done.
      * destruct ((0 <=? c) && (c <=? 25)); simpl;
          intros [= <- <-]; simpl; done.
Qed.

Lemma prev_spec s c b s' :
  lastRead (r s) = Some c ->
  prev s = (b, s') ->
  b = true /\ indents s' = indents s /\ toks s' = toks s /\ ch s' = ch s /\
  err s' = None /\ unread s' = c :: unread s.
Proof.
  unfold prev, unread, UnreadRune. intros ->. intros [= <- <-]. simpl. done.
Qed.

(** ** What the reading loops do to the source *)

Lemma space_tab_valid c : is_space_tab c = true -> valid c.
Proof.
  unfold is_space_tab, valid, valid_rune, is_blank.
  destruct (c =? r_space), (c =? r_tab); simpl; try done.
  all: destruct (c =? r_tab); simpl; done.
Qed.

Lemma newline_valid c : is_newline c = true -> valid c.
Proof.
  unfold is_newline, valid, valid_rune, is_blank.
  destruct (c =? r_tab), (c =? r_space), (c =? r_cr), (c =? r_lf); simpl; done.
Qed.

Lemma consumed_step s s1 s' c pre :
  unread s = c :: unread s1 -> valid c ->
  consumed s1 s' pre -> consumed s s' (c :: pre).
Proof.
  intros Hu Hc [Hp He]. split.
  - rewrite Hu, Hp. done.
  - destruct (err s') as [[]|]; try done.
    + destruct He. split; [by constructor|done].
    + destruct He as (p & c0 & -> & Hp0 & Hc0).
      exists (c :: p), c0. split; [done|]. split; [by constructor|done].
    + by constructor.
Qed.

Lemma consumed_app s s1 s' pre1 pre2 :
  consumed s s1 pre1 -> err s1 = None ->
  consumed s1 s' pre2 -> consumed s s' (pre1 ++ pre2).
Proof.
  intros [Hu1 He1] Hn [Hu2 He2]. rewrite Hn in He1. split.
  - rewrite Hu1, Hu2. by rewrite app_assoc.
  - destruct (err s') as [[]|]; try done.
    + destruct He2. split; [by apply Forall_app|done].
    + destruct He2 as (p & c0 & -> & Hp0 & Hc0).
      exists (pre1 ++ p), c0. rewrite app_assoc. split; [done|].
      split; [by apply Forall_app|done].
    + by apply Forall_app.
Qed.

Lemma next_true s s' :
  next s = (true, s') ->
  frame s s' /\ err s' = None /\
  exists c, unread s = c :: unread s' /\ ch s' = c /\
            lastRead (r s') = Some c /\ valid c.
Proof.
  intros H0. destruct (next_spec _ _ _ H0) as (Hi & Ht & H).
  split; [done|].
  destruct (unread s) as [|c p]; [naive_solver|].
  destruct H as (Hu & Hc & Hl & H).
  destruct (valid_rune c) eqn:Hv; [|naive_solver].
  split; [naive_solver|]. exists c. rewrite Hu. done.
Qed.

Lemma next_false s s' :
  next s = (false, s') ->
  frame s s' /\
  ((unread s = [] /\ unread s' = [] /\ err s' = Some io_EOF) \/
   (exists c, unread s = c :: unread s' /\ valid_rune c = false /\
              err s' = Some errInvalidCodePoint)).
Proof.
  intros H0. destruct (next_spec _ _ _ H0) as (Hi & Ht & H).
  split; [done|].
  destruct (unread s) as [|c p]; [naive_solver|].
  destruct H as (Hu & Hc & Hl & H).
  destruct (valid_rune c) eqn:Hv; [naive_solver|].
  right. exists c. rewrite Hu. naive_solver.
Qed.

Lemma next_false_consumed s s' :
  next s = (false, s') -> exists pre, consumed s s' pre /\ (length pre <= 1)%nat.
Proof.
  intros H0.
  destruct (next_false _ _ H0) as [_ [(H1 & H2 & H3)|(c & H1 & H2 & H3)]].
  - exists []. split; [|simpl; lia]. split; [by rewrite H1, H2|].
    rewrite H3. done.
  - exists [c]. split; [|simpl; lia]. split; [done|]. rewrite H3.
    exists [], c. done.
Qed.

(** ** The reading loops *)

Lemma indentSpaces_loop_spec n : forall rs s ind ok s',
  (length (unread s) < n)%nat ->
  indentSpaces_loop n rs s = (ind, ok, s') ->
  frame s s' /\
  exists ws, consumed s s' ws /\
    if ok then
      ind = rs ++ ws /\ Forall (fun c => is_space_tab c = true) ws /\
      err s' = None /\
      exists c rest, unread s' = c :: rest /\ ch s' = c /\ valid c /\
                     is_space_tab c = false
    else ind = [] /\ err s' <> None.
Proof.
  induction n as [|n IH]; intros rs s ind ok s' Hn; [lia|]. simpl.
  destruct (next s) as [[] s1] eqn:Hnext.
  - destruct (next_true _ _ Hnext) as ((Hi & Ht) & He & c & Hu & Hc & Hl & Hv).
    rewrite Hc. fold (is_space_tab c).
    assert (negb (c =? r_space) && negb (c =? r_tab) = negb (is_space_tab c))
      as -> by (unfold is_space_tab; by destruct (c =? r_space), (c =? r_tab)).
    destruct (is_space_tab c) eqn:Hst; simpl.
    + intros H. apply IH in H as ((Hi' & Ht') & ws & Hcons & H).
      2:{ rewrite Hu in Hn. simpl in Hn. lia. }
      split; [split; congruence|]. exists (c :: ws).
      split; [by eapply consumed_step|].
      destruct ok.
      * destruct H as (-> & Hws & He' & H). rewrite <- app_assoc.
        repeat split; try done. by constructor.
      * done.
    + destruct (prev s1) as [b s2] eqn:Hprev.
      destruct (prev_spec _ _ _ _ Hl Hprev) as (_ & Hi2 & Ht2 & Hc2 & He2 & Hu2).
      intros [= <- <- <-].
      split; [split; congruence|]. exists [].
      split.
      { split; [simpl; congruence|]. rewrite He2. constructor. }
      rewrite app_nil_r. repeat split; try done.
      exists c, (unread s1). repeat split; try done. congruence.
  - intros [= <- <- <-].
    destruct (next_false _ _ Hnext) as [Hf [(H1 & H2 & H3)|(c & H1 & H2 & H3)]].
    + split; [done|]. exists []. split.
      * split; [by rewrite H1, H2|]. by rewrite H3.
      * split; [done|]. by rewrite H3.
    + split; [done|]. exists [c]. split.
      * split; [done|]. rewrite H3. by exists [], c.
      * split; [done|]. by rewrite H3.
Qed.

Lemma newlineSpaces_loop_spec n : forall nl s hasNewline ok s',
  (length (unread s) < n)%nat ->
  newlineSpaces_loop n nl s = (hasNewline, ok, s') ->
  frame s s' /\
  exists pre, consumed s s' pre /\
    if ok then
      Forall (fun c => is_newline c = true) pre /\
      (hasNewline = false <-> nl = false /\ pre = []) /\
      err s' = None /\
      exists c rest, unread s' = c :: rest /\ ch s' = c /\ valid c /\
                     is_newline c = false
    else err s' <> None.
Proof.
  induction n as [|n IH]; intros nl s hasNewline ok s' Hn; [lia|]. simpl.
  destruct (next s) as [[] s1] eqn:Hnext.
  - destruct (next_true _ _ Hnext) as ((Hi & Ht) & He & c & Hu & Hc & Hl & Hv).
    rewrite Hc. fold (is_newline c).
    destruct (is_newline c) eqn:Hnl; simpl.
    + intros H. apply IH in H as ((Hi' & Ht') & pre & Hcons & H).
      2:{ rewrite Hu in Hn. simpl in Hn. lia. }
      split; [split; congruence|]. exists (c :: pre).
      split; [by eapply consumed_step|].
      destruct ok; [|done].
      destruct H as (Hpre & Hh & He' & H).
      split; [by constructor|]. split; [|done].
      split; [intros E; apply Hh in E; by destruct E|by intros [_ ?]].
    + destruct (prev s1) as [b s2] eqn:Hprev.
      destruct (prev_spec _ _ _ _ Hl Hprev) as (_ & Hi2 & Ht2 & Hc2 & He2 & Hu2).
      intros [= <- <- <-].
      split; [split; congruence|]. exists [].
      split.
      { split; [simpl; congruence|]. rewrite He2. constructor. }
      split; [constructor|]. split; [naive_solver|]. split; [done|].
      exists c, (unread s1). repeat split; try done. congruence.
  - intros [= <- <- <-].
    destruct (next_false_consumed _ _ Hnext) as (pre & Hcons & _).
    destruct (next_false _ _ Hnext) as [Hf [(H1 & H2 & H3)|(c & H1 & H2 & H3)]].
    + split; [done|]. exists pre. split; [done|]. by rewrite H3.
    + split; [done|]. exists pre. split; [done|]. by rewrite H3.
Qed.

Lemma consumed_length s s' pre :
  consumed s s' pre ->
  length (unread s) = (length pre + length (unread s'))%nat.
Proof. intros [-> _]. by rewrite length_app. Qed.

Lemma scanIndent_loop_spec n : forall s indent ok s',
  (length (unread s) < n)%nat ->
  scanIndent_loop n s = (indent, ok, s') ->
  frame s s' /\
  exists pre, consumed s s' pre /\
    if ok then
      Forall (fun c => is_space_tab c = true) indent /\
      (exists pre0, pre = pre0 ++ indent) /\ at_content s'
    else err s' <> None.
Proof.
  induction n as [|n IH]; intros s indent ok s' Hn; [lia|]. simpl.
  destruct (indentSpaces s) as [[ind ok1] s1] eqn:H1.
  unfold indentSpaces in H1.
  apply indentSpaces_loop_spec in H1 as (Hf1 & ws & Hc1 & H1);
    [|unfold fuel_of, unread; lia].
  destruct ok1; simpl.
  2:{ intros [= <- <- <-]. split; [done|]. exists ws. split; [done|].
      by destruct H1. }
  destruct H1 as (-> & Hws & He1 & c & rest & Hu1 & Hch1 & Hv1 & Hst1).
  simpl.
  destruct (newlineSpaces s1) as [[nl ok2] s2] eqn:H2.
  unfold newlineSpaces in H2.
  apply newlineSpaces_loop_spec in H2 as (Hf2 & pre2 & Hc2 & H2);
    [|unfold fuel_of, unread; lia].
  assert (Hfr : frame s s2).
  { destruct Hf1, Hf2. split; congruence. }
  assert (Hc12 : consumed s s2 (ws ++ pre2)) by by eapply consumed_app.
  destruct ok2; simpl.
  2:{ intros [= <- <- <-]. split; [done|]. by exists (ws ++ pre2). }
  destruct H2 as (Hpre2 & Hnl & He2 & c2 & rest2 & Hu2 & Hch2 & Hv2 & Hnl2).
  destruct nl; simpl.
  - intros H. apply IH in H as (Hf3 & pre3 & Hc3 & H).
    + split; [destruct Hfr, Hf3; split; congruence|].
      exists ((ws ++ pre2) ++ pre3). split; [by eapply consumed_app|].
      destruct ok; [|done].
      destruct H as (Hind & (pre0 & ->) & Hat).
      split; [done|]. split; [|done].
      exists ((ws ++ pre2) ++ pre0). by rewrite app_assoc.
    + apply consumed_length in Hc12. 
      assert (pre2 <> []) by (intros E; destruct Hnl as [_ Hnl]; by specialize (Hnl (conj eq_refl E))).
      destruct pre2; [done|]. rewrite length_app in Hc12. simpl in Hc12. lia.
  - intros [= <- <- <-]. split; [done|]. exists (ws ++ pre2).
    split; [done|]. split; [done|].
    destruct Hnl as [Hnl _]. destruct (Hnl eq_refl) as [_ ->].
    split; [by exists []; rewrite app_nil_r|].
    split; [done|]. exists c2, rest2. repeat split; try done.
    destruct Hc2 as [Hc2 _]. simpl in Hc2. rewrite Hu1, Hu2 in Hc2.
    by injection Hc2 as -> _.
Qed.

Lemma scanIndent_spec s indent ok s' :
  scanIndent s = (indent, ok, s') ->
  frame s s' /\
  exists pre, consumed s s' pre /\
    if ok then
      Forall (fun c => is_space_tab c = true) indent /\
      (exists pre0, pre = pre0 ++ indent) /\ at_content s'
    else err s' <> None.
Proof.
  unfold scanIndent. apply scanIndent_loop_spec. unfold fuel_of, unread. lia.
Qed.

Lemma inline_loop_spec n : forall rs s str s',
  (length (unread s) < n)%nat ->
  inline_loop n rs s = (str, s') ->
  frame s s' /\
  exists body pre, str = rs ++ body /\ consumed s s' pre /\
    Forall (fun c => is_newline c = false) body /\
    (err s' <> Some errInvalidCodePoint -> pre = body) /\
    (err s' = Some errInvalidCodePoint -> exists c, pre = body ++ [c]).
Proof.
  induction n as [|n IH]; intros rs s str s' Hn; [lia|]. simpl.
  destruct (next s) as [[] s1] eqn:Hnext.
  - destruct (next_true _ _ Hnext) as ((Hi & Ht) & He & c & Hu & Hc & Hl & Hv).
    rewrite Hc. fold (is_newline c).
    destruct (is_newline c) eqn:Hnl; simpl.
    + destruct (prev s1) as [b s2] eqn:Hprev.
      destruct (prev_spec _ _ _ _ Hl Hprev) as (_ & Hi2 & Ht2 & Hc2 & He2 & Hu2).
      intros [= <- <-].
      split; [split; congruence|]. exists [], [].
      split; [by rewrite app_nil_r|]. split.
      { split; [simpl; congruence|]. rewrite He2. constructor. }
      split; [constructor|]. split; [done|]. rewrite He2. done.
    + intros H. apply IH in H as ((Hi' & Ht') & body & pre & -> & Hcons & Hb & Hp1 & Hp2).
      2:{ rewrite Hu in Hn. simpl in Hn. lia. }
      split; [split; congruence|]. exists (c :: body), (c :: pre).
      split; [by rewrite <- app_assoc|].
      split; [by eapply consumed_step|].
      split; [by constructor|].
      split; [intros E; by rewrite (Hp1 E)|].
      intros E. destruct (Hp2 E) as [c0 ->]. by exists c0.
  - intros [= <- <-].
    destruct (next_false _ _ Hnext) as [Hf [(H1 & H2 & H3)|(c & H1 & H2 & H3)]].
    + split; [done|]. exists [], []. split; [by rewrite app_nil_r|].
      split. { split; [by rewrite H1, H2|]. by rewrite H3. }
      split; [constructor|]. split; [done|]. by rewrite H3.
    + split; [done|]. exists [], [c]. split; [by rewrite app_nil_r|].
      split. { split; [done|]. rewrite H3. by exists [], c. }
      split; [constructor|]. split; [by rewrite H3|]. intros _. by exists c.
Qed.
(** ** The counters of the loops never run out *)

(** Above the number of unread runes, the result of a reading loop does not
    depend on its counter. *)
Lemma indentSpaces_loop_fuel n : forall m rs s,
  (length (unread s) < n)%nat -> (length (unread s) < m)%nat ->
  indentSpaces_loop n rs s = indentSpaces_loop m rs s.
Proof.
  induction n as [|n IH]; intros [|m] rs s Hn Hm; try lia. simpl.
  destruct (next s) as [[] s1] eqn:Hnext; [|done].
  destruct (next_true _ _ Hnext) as (_ & _ & c & Hu & _).
  destruct (negb (ch s1 =? r_space) && negb (ch s1 =? r_tab)); [done|].
  apply IH; rewrite Hu in Hn, Hm; simpl in Hn, Hm; lia.
Qed.

Lemma newlineSpaces_loop_fuel n : forall m nl s,
  (length (unread s) < n)%nat -> (length (unread s) < m)%nat ->
  newlineSpaces_loop n nl s = newlineSpaces_loop m nl s.
Proof.
  induction n as [|n IH]; intros [|m] nl s Hn Hm; try lia. simpl.
  destruct (next s) as [[] s1] eqn:Hnext; [|done].
  destruct (next_true _ _ Hnext) as (_ & _ & c & Hu & _).
  destruct ((ch s1 =? r_cr) || (ch s1 =? r_lf)); [|done].
  apply IH; rewrite Hu in Hn, Hm; simpl in Hn, Hm; lia.
Qed.

Lemma inline_loop_fuel n : forall m rs s,
  (length (unread s) < n)%nat -> (length (unread s) < m)%nat ->
  inline_loop n rs s = inline_loop m rs s.
Proof.
  induction n as [|n IH]; intros [|m] rs s Hn Hm; try lia. simpl.
  destruct (next s) as [[] s1] eqn:Hnext; [|done].
  destruct (next_true _ _ Hnext) as (_ & _ & c & Hu & _).
  destruct ((ch s1 =? r_cr) || (ch s1 =? r_lf)); [done|].
  apply IH; rewrite Hu in Hn, Hm; simpl in Hn, Hm; lia.
Qed.

Lemma scanIndent_loop_fuel n : forall m s,
  (length (unread s) < n)%nat -> (length (unread s) < m)%nat ->
  scanIndent_loop n s = scanIndent_loop m s.
Proof.
  induction n as [|n IH]; intros [|m] s Hn Hm; try lia. simpl.
  destruct (indentSpaces s) as [[ind ok1] s1] eqn:H1.
  pose proof H1 as H1'. unfold indentSpaces in H1'.
  apply indentSpaces_loop_spec in H1' as (_ & ws & Hc1 & H1');
    [|unfold fuel_of, unread; lia].
  destruct ok1; [|done]. simpl.
  destruct H1' as (_ & _ & He1 & _).
  destruct (newlineSpaces s1) as [[nl ok2] s2] eqn:H2.
  pose proof H2 as H2'. unfold newlineSpaces in H2'.
  apply newlineSpaces_loop_spec in H2' as (_ & pre2 & Hc2 & H2');
    [|unfold fuel_of, unread; lia].
  destruct ok2; [|done]. simpl.
  destruct H2' as (_ & Hnl & _).
  destruct nl; [|done]. simpl.
  apply consumed_length in Hc1, Hc2.
  assert (pre2 <> [])
    by (intros E; destruct Hnl as [_ Hnl]; by specialize (Hnl (conj eq_refl E))).
  assert (1 <= length pre2)%nat by (destruct pre2; [done|simpl; lia]).
  apply IH; lia.
Qed.
(** ** The rest of a line *)

Lemma inline_loop_S n rs s :
  inline_loop (S n) rs s =
  let '(ok, s1) := next s in
  if ok then
    if (ch s1 =? r_cr) || (ch s1 =? r_lf) then
      let '(_, s2) := prev s1 in (rs, s2)
    else inline_loop n (rs ++ [ch s1]) s1
  else (rs, s1).
Proof. done. Qed.

Lemma inline_at_content s str s' :
  at_content s ->
  inline s = (str, s') ->
  frame s s' /\
  exists body pre, str = ch s :: body /\ consumed s s' pre /\ pre <> [] /\
    Forall (fun c => is_newline c = false) str /\
    (err s' <> Some errInvalidCodePoint -> pre = str) /\
    (err s' = Some errInvalidCodePoint -> exists c, pre = str ++ [c]).
Proof.
  intros (He & c & rest & Hu & Hc & Hv & Hst & Hnl).
  unfold inline, fuel_of. rewrite inline_loop_S.
  destruct (next s) as [ok s1] eqn:Hnext.
  destruct (next_spec _ _ _ Hnext) as (Hi & Ht & H). rewrite Hu in H.
  destruct H as (Hu1 & Hc1 & Hl1 & H). rewrite Hv in H. destruct H as [-> He1].
  rewrite Hc1. fold (is_newline c). rewrite Hnl. simpl.
  intros H. apply inline_loop_spec in H
    as ((Hi' & Ht') & body & pre & -> & Hcons & Hb & Hp1 & Hp2);
    [|fold (unread s); rewrite Hu, Hu1; simpl; lia].
  split; [split; congruence|]. exists body, (c :: pre).
  split; [by rewrite Hc|].
  split; [eapply consumed_step; [|done..]; by rewrite Hu, Hu1|].
  split; [done|]. split; [by constructor|].
  split; [intros E; by rewrite (Hp1 E)|].
  intros E. destruct (Hp2 E) as [c0 ->]. by exists c0.
Qed.

Lemma afterIndent_spec s :
  at_content s ->
  exists s' t pre line, afterIndent s = Some s' /\
    indents s' = indents s /\ toks s' = toks s ++ [t] /\
    tokType t = (if ch s =? r_hash then Annotation else LineString) /\
    line = (if ch s =? r_hash then r_hash :: tokValue t else tokValue t) /\
    consumed s s' pre /\ pre <> [] /\
    (err s' <> Some errInvalidCodePoint -> pre = line) /\
    (err s' = Some errInvalidCodePoint -> exists c, pre = line ++ [c]).
Proof.
  intros Hat. unfold afterIndent.
  destruct (inline s) as [str s1] eqn:Hin.
  destruct (inline_at_content _ _ _ Hat Hin)
    as ((Hi & Ht) & body & pre & -> & Hcons & Hne & Hb & Hp1 & Hp2).
  assert (Hcons' : forall t, consumed s (addTok s1 t) pre) by done.
  destruct (ch s =? r_hash) eqn:Hh.
  - apply Z.eqb_eq in Hh.
    exists (addTok s1 (mkToken Annotation body)), (mkToken Annotation body),
      pre, (ch s :: body).
    split; [done|]. split; [done|]. split; [simpl; congruence|].
    split; [done|]. split; [simpl; congruence|]. done.
  - exists (addTok s1 (mkToken LineString (ch s :: body))),
      (mkToken LineString (ch s :: body)), pre, (ch s :: body).
    split; [done|]. split; [done|]. split; [simpl; congruence|]. done.
Qed.

Lemma is_content_type t (b : bool) :
  tokType t = (if b then Annotation else LineString) -> is_content t.
Proof. destruct b; [by left|by right]. Qed.

(** ** The indent stack *)

Lemma list_eqb_eq a : forall b, list_eqb a b = true <-> a = b.
Proof.
  induction a as [|x a IH]; intros [|y b]; simpl; try done.
  rewrite andb_true_iff, Z.eqb_eq, IH. naive_solver.
Qed.

Lemma list_eqb_neq a b : list_eqb a b = false <-> a <> b.
Proof.
  rewrite <- list_eqb_eq. destruct (list_eqb a b); naive_solver.
Qed.

Lemma HasPrefix_spec s : forall p, HasPrefix s p = true <-> exists t, s = p ++ t.
Proof.
  induction s as [|x s IH]; intros [|y p]; simpl.
  - split; [by exists []|done].
  - split; [done|]. by intros [t ?].
  - split; [by exists (x :: s)|done].
  - rewrite andb_true_iff, Z.eqb_eq, IH. split.
    + intros [-> [t ->]]. by exists t.
    + intros [t [= -> ->]]. split; [done|]. by exists t.
Qed.

Lemma calcIndent_loop_found k : forall i ind indent j,
  (i + k = length ind)%nat -> (i <= j < length ind)%nat ->
  below_top ind j = Some indent ->
  (forall j', (i <= j' < j)%nat -> below_top ind j' <> Some indent) ->
  calcIndent_loop k i ind indent = (- Z.of_nat j, true).
Proof.
  unfold below_top.
  induction k as [|k IH]; intros i ind indent j Hk Hj Hfound Hfirst; [lia|].
  simpl. destruct (ind !! (length ind - i - 1)%nat) as [e|] eqn:He.
  2:{ apply lookup_ge_None in He. lia. }
  destruct (list_eqb indent e) eqn:Heq.
  - apply list_eqb_eq in Heq as ->.
    destruct (decide (i = j)) as [->|Hne]; [done|].
    exfalso. apply (Hfirst i); [lia|done].
  - apply list_eqb_neq in Heq.
    apply IH; try done; try lia.
    + destruct (decide (i = j)) as [->|Hne]; [|lia]. congruence.
    + intros j' Hj'. apply Hfirst. lia.
Qed.

Lemma calcIndent_loop_none k : forall i ind indent,
  (forall j, (i <= j < i + k)%nat -> below_top ind j <> Some indent) ->
  calcIndent_loop k i ind indent = (0, false).
Proof.
  unfold below_top.
  induction k as [|k IH]; intros i ind indent Hnone; [done|].
  simpl. destruct (ind !! (length ind - i - 1)%nat) as [e|] eqn:He; [|done].
  destruct (list_eqb indent e) eqn:Heq.
  - apply list_eqb_eq in Heq as ->. exfalso. apply (Hnone i); [lia|done].
  - apply IH. intros j Hj. apply Hnone. lia.
Qed.

Lemma calcIndent_loop_inv k : forall i ind indent n b,
  (i + k = length ind)%nat -> (1 <= i)%nat ->
  calcIndent_loop k i ind indent = (n, b) ->
  (b = false /\ n = 0 /\
   forall j, (i <= j < length ind)%nat -> below_top ind j <> Some indent) \/
  (b = true /\ exists j, n = - Z.of_nat j /\ (i <= j < length ind)%nat /\
     below_top ind j = Some indent /\
     forall j', (i <= j' < j)%nat -> below_top ind j' <> Some indent).
Proof.
  unfold below_top.
  induction k as [|k IH]; intros i ind indent n b Hk Hi; simpl.
  - intros [= <- <-]. left. repeat split. intros j Hj. lia.
  - destruct (ind !! (length ind - i - 1)%nat) as [e|] eqn:He.
    2:{ apply lookup_ge_None in He. lia. }
    destruct (list_eqb indent e) eqn:Heq.
    + apply list_eqb_eq in Heq as ->. intros [= <- <-]. right.
      split; [done|]. exists i. repeat split; try done; try lia.
    + apply list_eqb_neq in Heq. intros H. apply IH in H; [|lia..].
      destruct H as [(-> & -> & Hn)|(-> & j & -> & Hj & Hf & Hfirst)].
      * left. repeat split. intros j Hj.
        destruct (decide (j = i)) as [->|]; [congruence|]. apply Hn. lia.
      * right. split; [done|]. exists j. repeat split; try done; try lia.
        intros j' Hj'.
        destruct (decide (j' = i)) as [->|]; [congruence|]. apply Hfirst. lia.
Qed.
(** ** One pass of [scanLine] *)

Lemma addToks_spec n t : forall s,
  toks (addToks n t s) = toks s ++ replicate n t /\
  indents (addToks n t s) = indents s /\ r (addToks n t s) = r s /\
  err (addToks n t s) = err s /\ ch (addToks n t s) = ch s.
Proof.
  induction n as [|n IH]; intros s; simpl.
  - by rewrite app_nil_r.
  - destruct (IH (addTok s t)) as (-> & -> & -> & -> & ->). simpl.
    by rewrite <- app_assoc.
Qed.

Lemma calcIndent_spec s indent :
  indents s <> [] ->
  exists top, last (indents s) = Some top /\
    calcIndent s indent =
    Some (if list_eqb indent top then (0, true)
          else if HasPrefix indent top then (1, true)
          else calcIndent_loop (length (indents s) - 1) 1 (indents s) indent).
Proof.
  intros Hne. unfold calcIndent.
  destruct (last (indents s)) as [top|] eqn:Hl.
  - exists top. split; [done|].
    by destruct (list_eqb indent top), (HasPrefix indent top).
  - apply last_None in Hl. done.
Qed.

Lemma scanLine_spec s :
  indents s <> [] ->
  exists s', scanLine s = Some s' /\ line_result s s'.
Proof.
  intros Hne. unfold scanLine.
  destruct (scanIndent s) as [[indent ok] s1] eqn:Hsi.
  destruct (scanIndent_spec _ _ _ _ Hsi) as ((Hi1 & Ht1) & pre1 & Hc1 & H).
  destruct ok; simpl.
  2:{ exists s1. split; [done|]. by eapply line_stop. }
  destruct H as (Hind & _ & Hat).
  assert (He1 : err s1 = None) by by destruct Hat.
  assert (Hne1 : indents s1 <> []) by congruence.
  destruct (calcIndent_spec s1 indent Hne1) as (top & Htop & ->).
  destruct (list_eqb indent top) eqn:Heq; simpl.
  { (* same *)
    destruct (afterIndent_spec s1 Hat)
      as (s' & t & pre & line & -> & Hi & Ht & Hty & _ & Hc & Hpre & _).
    exists s'. split; [done|].
    eapply (line_same _ _ t (pre1 ++ pre)); try congruence.
    - by eapply is_content_type.
    - by eapply consumed_app.
    - by destruct pre1, pre. }
  destruct (HasPrefix indent top) eqn:Hpre; simpl.
  { (* indent *)
    set (s2 := addTok (set_indents s1 (indents s1 ++ [indent])) (tok Indent)).
    assert (Hat2 : at_content s2) by done.
    destruct (afterIndent_spec s2 Hat2)
      as (s' & t & pre & line & -> & Hi & Ht & Hty & _ & Hc & Hpre' & _).
    exists s'. split; [done|].
    eapply (line_indent _ _ indent t (pre1 ++ pre)).
    - rewrite Hi. simpl. congruence.
    - rewrite Ht. simpl. rewrite Ht1, <- app_assoc. done.
    - by eapply is_content_type.
    - eapply consumed_app; [done..|]. done.
    - by destruct pre1, pre. }
  destruct (calcIndent_loop (length (indents s1) - 1) 1 (indents s1) indent)
    as [n b] eqn:Hloop.
  apply calcIndent_loop_inv in Hloop;
    [|destruct (indents s1); [done|simpl; lia]|lia].
  destruct Hloop as [(-> & -> & _)|(-> & j & -> & Hj & _)].
  { exists (set_err s1 (Some errMismatchIndent)). split; [done|].
    by eapply line_mismatch. }
  assert ((- Z.of_nat j =? 0) = false) as -> by lia.
  assert ((- Z.of_nat j =? 1) = false) as -> by lia.
  assert ((1 <? - Z.of_nat j) = false) as -> by lia.
  assert (Z.to_nat (- - Z.of_nat j) = j) as -> by lia.
  assert ((length (indents s1) <? j)%nat = false) as ->
    by (apply Nat.ltb_ge; lia).
  eexists. split; [done|].
  destruct (addToks_spec j (tok Unindent)
    (set_indents s1 (take (length (indents s1) - j) (indents s1))))
    as (Ht & Hi & Hr & He & Hc).
  eapply (line_dedent _ _ j pre1).
  - rewrite <- Hi1. lia.
  - rewrite Hi. simpl. by rewrite Hi1.
  - rewrite Ht. simpl. by rewrite Ht1.
  - destruct Hc1 as [Hu Hm]. split.
    + unfold unread. rewrite Hr. done.
    + rewrite He. simpl. rewrite He1 in *. done.
  - rewrite He. done.
Qed.
(** ** [handleEOF] and [Scan] *)

Lemma stack_ok_ne s : stack_ok s -> indents s <> [].
Proof. intros [rest ->]. done. Qed.

Lemma handleEOF_other s : err s <> Some io_EOF -> handleEOF s = Some s.
Proof. intros H. unfold handleEOF. by rewrite bool_decide_eq_false_2. Qed.

Lemma handleEOF_eof s :
  err s = Some io_EOF -> stack_ok s ->
  exists s', handleEOF s = Some s' /\
    indents s' = [ [] ] /\
    toks s' = toks s ++ replicate (length (indents s) - 1) (tok Unindent)
                     ++ [tok EOF] /\
    err s' = Some io_EOF /\ r s' = r s.
Proof.
  intros He [rest Hi]. unfold handleEOF. rewrite bool_decide_eq_true_2 by done.
  eexists. split; [done|].
  destruct (1 <? length (indents s))%nat eqn:Hlt.
  - destruct (addToks_spec (length (indents s) - 1) (tok Unindent) s)
      as (Ht & Hi' & Hr & He' & Hc).
    simpl. rewrite Ht, Hr, He', <- app_assoc. by rewrite Hi.
  - apply Nat.ltb_ge in Hlt. rewrite Hi in Hlt. simpl in Hlt.
    destruct rest; [|simpl in Hlt; lia]. rewrite Hi. simpl.
    by rewrite Hi.
Qed.

Lemma line_result_stack s s' :
  stack_ok s -> line_result s s' -> stack_ok s'.
Proof.
  intros [rest Hi] [pre [Hf _] _ _|s1 pre -> [Hf _] _ _|t pre Hf _ _ _ _
                   |indent t pre Hf _ _ _ _|k pre Hk Hf _ _ _].
  - exists rest. congruence.
  - exists rest. simpl. congruence.
  - exists rest. congruence.
  - exists (rest ++ [indent]). rewrite Hf, Hi. done.
  - unfold stack_ok. rewrite Hf. rewrite Hi in Hk |- *.
    destruct (length ([] :: rest) - k)%nat as [|m] eqn:Hm.
    { simpl in Hk, Hm; lia. }
    by exists (take m rest).
Qed.

Lemma line_result_err s s' :
  line_result s s' ->
  err s' = None \/ err s' = Some io_EOF \/
  err s' = Some errInvalidCodePoint \/ err s' = Some errMismatchIndent.
Proof.
  intros [pre _ _ [_ H]|s1 pre -> _ _ _|t pre _ _ _ [_ H] _
         |indent t pre _ _ _ [_ H] _|k pre _ _ _ _ ->]; try (by left);
    try (simpl; naive_solver);
    destruct (err s') as [[]|]; naive_solver.
Qed.

(** The dequeuing step of [Scan] when a token is still waiting. *)
Lemma Scan_dequeue s t0 t1 q :
  toks s = t0 :: t1 :: q -> Scan s = Some (true, set_toks s (t1 :: q)).
Proof. intros H. unfold Scan. rewrite H. done. Qed.

Lemma Scan_stopped s t0 :
  toks s = [t0] -> err s <> None -> Scan s = Some (false, set_toks s []).
Proof.
  intros H He. unfold Scan. rewrite H. simpl.
  by rewrite bool_decide_eq_true_2.
Qed.

Lemma Scan_pass s t0 :
  toks s = [t0] -> err s = None -> stack_ok s ->
  exists s1 s2, Scan s = Some (bool_decide (toks s2 <> []), s2) /\
    line_result (set_toks s []) s1 /\ handleEOF s1 = Some s2.
Proof.
  intros H He Hs. unfold Scan. rewrite H. simpl. rewrite He. simpl.
  destruct (scanLine_spec (set_toks s [])) as (s1 & Hsl & Hl);
    [by apply stack_ok_ne|].
  rewrite Hsl. simpl.
  assert (Hs1 : stack_ok s1) by (eapply line_result_stack; [|done]; done).
  assert (exists s2, handleEOF s1 = Some s2) as [s2 Hh].
  { destruct (decide (err s1 = Some io_EOF)) as [He1|He1].
    - destruct (handleEOF_eof s1 He1 Hs1) as (s2 & Hh & _). by exists s2.
    - exists s1. by apply handleEOF_other. }
  exists s1, s2. rewrite Hh. simpl. split; [|done].
  do 2 f_equal. by destruct (toks s2).
Qed.
(** ** The whole scan *)

Lemma count_type_app ty l1 l2 :
  count_type ty (l1 ++ l2) = (count_type ty l1 + count_type ty l2)%nat.
Proof. induction l1 as [|t l1 IH]; simpl; [done|]. rewrite IH. lia. Qed.

Lemma count_type_replicate ty ty' n :
  count_type ty (replicate n (tok ty')) = if decide (ty' = ty) then n else 0%nat.
Proof.
  induction n as [|n IH]; simpl; [by destruct (decide _)|].
  rewrite IH. by destruct (decide (ty' = ty)).
Qed.

Lemma depth_change_app l1 l2 :
  depth_change (l1 ++ l2) = depth_change l1 + depth_change l2.
Proof. unfold depth_change. rewrite !count_type_app. lia. Qed.

Lemma depth_change_content t : is_content t -> depth_change [t] = 0.
Proof.
  unfold depth_change. simpl.
  intros [H|H]; rewrite H; done.
Qed.

Lemma count_EOF_content t : is_content t -> count_type EOF [t] = 0%nat.
Proof. simpl. intros [H|H]; rewrite H; done. Qed.

Lemma depth_change_unindents k :
  depth_change (replicate k (tok Unindent)) = - Z.of_nat k.
Proof.
  unfold depth_change. rewrite !count_type_replicate. simpl. lia.
Qed.

(** Once an error is recorded, [Scan] only hands out what is queued. *)
Lemma scanAll_stopped fuel : forall s ts s',
  err s <> None -> toks s <> [] ->
  scanAll fuel s = Some (ts, s') ->
  ts = tail (toks s) /\ s' = set_toks s [].
Proof.
  induction fuel as [|f IH]; intros s ts s' He Ht; [done|]. simpl. unfold Token_.
  destruct (toks s) as [|t0 [|t1 q]] eqn:Hq; [done|..].
  - rewrite (Scan_stopped s t0) by done. by intros [= <- <-].
  - rewrite (Scan_dequeue s t0 t1 q) by done. simpl.
    destruct (scanAll f (set_toks s (t1 :: q))) as [[ts1 s1]|] eqn:Hrec;
      [|done].
    simpl. intros [= <- <-].
    apply IH in Hrec as [-> ->]; done.
Qed.

Lemma app_snoc_ne {A} (l1 l2 : list A) x : l1 ++ l2 ++ [x] <> [].
Proof. by destruct l1, l2. Qed.

(** What the tokens of a pass are worth, by the state the pass ends in. *)
Lemma line_result_tokens s s' :
  toks s = [] -> line_result s s' ->
  (err s' = None \/ err s' = Some io_EOF) ->
  count_type EOF (toks s') = 0%nat /\
  depth_change (toks s') =
    Z.of_nat (length (indents s')) - Z.of_nat (length (indents s)) /\
  (err s' = None -> toks s' <> []).
Proof.
  intros Hq [pre [Hi Ht] He _|s1 pre -> _ _ _|t pre Hi Ht Hc _ _
            |indent t pre Hi Ht Hc _ _|k pre Hk Hi Ht _ He] Herr.
  - rewrite Ht, Hq, Hi. split; [done|]. split; [unfold depth_change; simpl; lia|done].
  - simpl in Herr. naive_solver.
  - rewrite Ht, Hq, Hi. simpl app. split; [by apply count_EOF_content|].
    split; [rewrite depth_change_content by done; lia|done].
  - rewrite Ht, Hq, Hi. simpl app. split.
    + change [tok Indent; t] with ([tok Indent] ++ [t]).
      rewrite count_type_app. rewrite (count_EOF_content t) by done. done.
    + split; [|done].
      change [tok Indent; t] with ([tok Indent] ++ [t]).
      rewrite depth_change_app. rewrite (depth_change_content t) by done.
      rewrite length_app. unfold depth_change. simpl. lia.
  - rewrite Ht, Hq, Hi. simpl app. split; [by rewrite count_type_replicate|].
    split.
    + rewrite depth_change_unindents, length_take. lia.
    + intros _. destruct k; [lia|done].
Qed.

Lemma scanAll_balance fuel : forall s ts s',
  err s = None -> stack_ok s -> toks s <> [] ->
  scanAll fuel s = Some (ts, s') -> Err s' = None ->
  indents s' = [ [] ] /\ toks s' = [] /\
  exists produced,
    ts = tail (toks s) ++ produced ++ [tok EOF] /\
    count_type EOF produced = 0%nat /\
    depth_change produced = - (Z.of_nat (length (indents s)) - 1).
Proof.
  induction fuel as [|f IH]; intros s ts s' He Hs Ht; [done|]. simpl. unfold Token_.
  destruct (toks s) as [|t0 [|t1 q]] eqn:Hq; [done|..].
  - (* the queue is drained: one pass *)
    destruct (Scan_pass s t0 Hq He Hs) as (s1 & s2 & -> & Hl & Hh).
    assert (Hs1 : stack_ok s1) by (eapply line_result_stack; [|done]; done).
    destruct (line_result_err _ _ Hl) as [He1|[He1|He1]].
    + (* the pass ends without error *)
      rewrite handleEOF_other in Hh by (rewrite He1; done).
      injection Hh as <-.
      destruct (line_result_tokens (set_toks s []) s1 eq_refl Hl (or_introl He1))
        as (Hc & Hd & Hne). specialize (Hne He1).
      rewrite bool_decide_eq_true_2 by done.
      destruct (toks s1) as [|t ts1] eqn:Hts1; [done|]. simpl.
      destruct (scanAll f s1) as [[ts2 s3]|] eqn:Hrec; [|done]. simpl.
      intros [= <- <-] Herr.
      destruct (IH _ _ _ He1 Hs1 ltac:(by rewrite Hts1) Hrec Herr)
        as (Hi' & Ht' & produced & -> & Hc' & Hd').
      split; [done|]. split; [done|].
      exists ((t :: ts1) ++ produced).
      split; [rewrite ?Hts1; simpl; by rewrite <- ?app_assoc|].
      split; [rewrite count_type_app, Hc, Hc'; done|].
      rewrite depth_change_app, Hd, Hd'. simpl. lia.
    + (* the pass reaches the end of the source *)
      destruct (handleEOF_eof s1 He1 Hs1) as (s2' & Hh' & Hi2 & Ht2 & He2 & _).
      rewrite Hh in Hh'. injection Hh' as <-.
      destruct (line_result_tokens (set_toks s []) s1 eq_refl Hl (or_intror He1))
        as (Hc & Hd & _).
      rewrite bool_decide_eq_true_2; [|rewrite Ht2; apply app_snoc_ne].
      destruct (toks s2) as [|t ts2] eqn:Hts2;
        [exfalso; symmetry in Ht2; by apply app_snoc_ne in Ht2|].
      simpl.
      destruct (scanAll f s2) as [[ts3 s3]|] eqn:Hrec; [|done]. simpl.
      intros [= <- <-] Herr.
      apply scanAll_stopped in Hrec as [-> ->];
        [|by rewrite He2|by rewrite Hts2].
      split; [done|]. split; [done|]. rewrite Hts2. simpl.
      exists (toks s1 ++ replicate (length (indents s1) - 1) (tok Unindent)).
      split; [by rewrite <- app_assoc, <- Ht2|].
      split; [by rewrite count_type_app, Hc, count_type_replicate|].
      rewrite depth_change_app, Hd, depth_change_unindents. simpl.
      destruct Hs1 as [rest ->]. simpl. lia.
    + (* the pass ends in a fatal error *)
      rewrite handleEOF_other in Hh by (destruct He1 as [-> | ->]; done).
      injection Hh as <-.
      assert (Hne : err s1 <> None) by (destruct He1 as [-> | ->]; done).
      assert (HE : Err s1 <> None)
        by (unfold Err; destruct He1 as [-> | ->]; done).
      destruct (toks s1) as [|t ts1] eqn:Hts1.
      * rewrite bool_decide_eq_false_2 by naive_solver.
        intros [= <- <-]. done.
      * rewrite bool_decide_eq_true_2 by done. simpl.
        destruct (scanAll f s1) as [[ts3 s3]|] eqn:Hrec; [|done]. simpl.
        intros [= <- <-].
        apply scanAll_stopped in Hrec as [-> ->]; [|done|by rewrite Hts1].
        done.
  - (* a token is waiting *)
    rewrite (Scan_dequeue s t0 t1 q) by done. simpl.
    destruct (scanAll f (set_toks s (t1 :: q))) as [[ts1 s1]|] eqn:Hrec;
      [|done].
    simpl. intros [= <- <-] Herr.
    destruct (IH (set_toks s (t1 :: q)) _ _ He Hs ltac:(done) Hrec Herr)
      as (Hi' & Ht' & produced & -> & Hc' & Hd').
    split; [done|]. split; [done|]. exists produced. done.
Qed.
(** ** The scan ends *)

Lemma line_result_weight s s1 s2 :
  toks s = [] -> err s = None -> stack_ok s ->
  line_result s s1 -> handleEOF s1 = Some s2 ->
  (weight s2 < weight s)%nat.
Proof.
  intros Hq He Hs Hl Hh.
  assert (Hs1 : stack_ok s1) by by eapply line_result_stack.
  assert (Hw : weight s = (5 * length (unread s) + 2 * length (indents s) + 4)%nat)
    by (unfold weight; by rewrite Hq, He).
  assert (Hd : (1 <= length (indents s))%nat) by (destruct Hs as [? ->]; simpl; lia).
  assert (Hw2 : err s1 <> None ->
    (weight s2 <= length (toks s1) + length (indents s1))%nat).
  { intros Hne. destruct (decide (err s1 = Some io_EOF)) as [He1|He1].
    - destruct (handleEOF_eof s1 He1 Hs1) as (s2' & Hh' & Hi2 & Ht2 & He2 & _).
      rewrite Hh in Hh'. injection Hh' as <-.
      unfold weight. rewrite He2, Ht2, !length_app, length_replicate. simpl.
      destruct Hs1 as [? ->]. simpl. lia.
    - rewrite handleEOF_other in Hh by done. injection Hh as <-.
      unfold weight. destruct (err s1); [lia|done]. }
  assert (Hw1 : err s1 = None ->
    weight s2 = (length (toks s1) + (5 * length (unread s1)
                 + 2 * length (indents s1) + 4))%nat).
  { intros He1. rewrite handleEOF_other in Hh by (by rewrite He1).
    injection Hh as <-. unfold weight. by rewrite He1. }
  destruct Hl as [pre [Hi Ht] He1 Hc|s1' pre -> [Hi Ht] Hc He1|t pre Hi Ht _ Hc Hp
                 |indent t pre Hi Ht _ Hc Hp|k pre Hk Hi Ht Hc He1].
  - specialize (Hw2 He1). rewrite Ht, Hq, Hi in Hw2. simpl in Hw2. lia.
  - specialize (Hw2 ltac:(done)). simpl in Hw2. rewrite Ht, Hq, Hi in Hw2.
    simpl in Hw2. lia.
  - apply consumed_length in Hc.
    assert (1 <= length pre)%nat by (destruct pre; [done|simpl; lia]).
    destruct (err s1) eqn:He1.
    + specialize (Hw2 ltac:(done)). rewrite Ht, Hq, Hi in Hw2. simpl in Hw2. lia.
    + rewrite (Hw1 eq_refl), Ht, Hq, Hi. simpl length. lia.
  - apply consumed_length in Hc.
    assert (1 <= length pre)%nat by (destruct pre; [done|simpl; lia]).
    destruct (err s1) eqn:He1.
    + specialize (Hw2 ltac:(done)). rewrite Ht, Hq, Hi, !length_app in Hw2.
      simpl in Hw2. lia.
    + rewrite (Hw1 eq_refl), Ht, Hq, Hi, !length_app. simpl length. lia.
  - apply consumed_length in Hc.
    rewrite (Hw1 He1), Ht, Hq, Hi, length_take. simpl app.
    rewrite length_replicate. lia.
Qed.

Lemma Scan_progress s :
  stack_ok s -> toks s <> [] ->
  exists b s', Scan s = Some (b, s') /\ stack_ok s' /\
    (b = true -> toks s' <> [] /\ (weight s' < weight s)%nat) /\
    (b = false -> toks s' = [] /\ err s' <> None).
Proof.
  intros Hs Ht. destruct (toks s) as [|t0 [|t1 q]] eqn:Hq; [done|..].
  - destruct (err s) as [e|] eqn:He.
    + exists false, (set_toks s []). rewrite (Scan_stopped s t0) by (by rewrite ?He).
      split; [done|]. split; [done|]. split; [done|]. intros _. simpl.
      by rewrite He.
    + destruct (Scan_pass s t0 Hq He Hs) as (s1 & s2 & -> & Hl & Hh).
      exists (bool_decide (toks s2 <> [])), s2. split; [done|].
      assert (Hs1 : stack_ok s1) by (eapply line_result_stack; [|done]; done).
      split.
      * destruct (decide (err s1 = Some io_EOF)) as [He1|He1].
        -- destruct (handleEOF_eof s1 He1 Hs1) as (s2' & Hh' & Hi2 & _).
           rewrite Hh in Hh'. injection Hh' as <-. by exists [].
        -- rewrite handleEOF_other in Hh by done. by injection Hh as <-.
      * split.
        -- intros Hb. apply bool_decide_eq_true in Hb. split; [done|].
           assert (weight s = S (weight (set_toks s []))) as ->
             by (unfold weight; rewrite Hq; done).
           apply Nat.lt_lt_succ_r.
           eapply line_result_weight; [| | |done..]; done.
        -- intros Hb. apply bool_decide_eq_false in Hb.
           assert (Ht2 : toks s2 = []) by (by destruct (toks s2); [|destruct Hb]).
           split; [done|]. intros He2.
           assert (He1 : err s1 = None).
           { destruct (decide (err s1 = Some io_EOF)) as [He1|He1].
             - destruct (handleEOF_eof s1 He1 Hs1) as (s2' & Hh' & _ & _ & E & _).
               rewrite Hh in Hh'. injection Hh' as <-. congruence.
             - rewrite handleEOF_other in Hh by done. by injection Hh as <-. }
           rewrite handleEOF_other in Hh by (by rewrite He1).
           injection Hh as <-.
           destruct (line_result_tokens (set_toks s []) s1 eq_refl Hl
                       (or_introl He1)) as (_ & _ & Hne).
           by apply Hne.
  - exists true, (set_toks s (t1 :: q)). rewrite (Scan_dequeue s t0 t1 q) by done.
    split; [done|]. split; [done|]. split; [|done]. intros _. split; [done|].
    unfold weight, unread. rewrite Hq.
    cbn [toks set_toks err r indents length]. destruct (err s); lia.
Qed.

Lemma scanAll_weight n : forall s,
  (weight s < n)%nat -> stack_ok s -> toks s <> [] ->
  exists ts s', scanAll n s = Some (ts, s').
Proof.
  induction n as [|n IH]; intros s Hw Hs Ht; [lia|].
  destruct (Scan_progress s Hs Ht) as (b & s1 & HS & Hs1 & Hb & _).
  simpl. rewrite HS. destruct b; [|by exists [], s1].
  destruct (Hb eq_refl) as [Ht1 Hw1].
  destruct (IH s1 ltac:(lia) Hs1 Ht1) as (ts & s' & ->).
  unfold Token_. destruct (toks s1) as [|t q]; [done|]. simpl.
  by exists (t :: ts), s'.
Qed.

(** The consumer's loop over any source ends: [Scan] returns [false] after
    finitely many calls, none of which panics. *)
Lemma scanAll_total input :
  exists ts s',
    scanAll (S (weight (NewScanner input))) (NewScanner input) = Some (ts, s').
Proof.
  apply scanAll_weight; [lia|by exists []|done].
Qed.

(** More fuel does not change the result. *)
Lemma scanAll_more n : forall m s ts s',
  (n <= m)%nat -> scanAll n s = Some (ts, s') -> scanAll m s = Some (ts, s').
Proof.
  induction n as [|n IH]; intros m s ts s' Hm; [done|].
  destruct m as [|m]; [lia|]. simpl.
  destruct (Scan s) as [[[] s1]|]; try done.
  destruct (Token_ s1) as [t|]; [|done]. simpl.
  destruct (scanAll n s1) as [[ts1 s2]|] eqn:Hrec; [|done].
  rewrite (IH m s1 ts1 s2) by (done || lia). done.
Qed.
(** ** What has been read, over the whole scan *)

Lemma valid_rune_spec c :
  valid_rune c = true <->
  (c = 32 \/ c = 9 \/ c = 13 \/ c = 10) \/ (c <> 65533 /\ ~ (0 <= c <= 25)).
Proof.
  unfold valid_rune, is_blank, r_tab, r_space, r_cr, r_lf, ReplacementChar.
  rewrite orb_true_iff, negb_true_iff, orb_false_iff, andb_false_iff,
    !orb_true_iff, !Z.eqb_eq, Z.eqb_neq, Z.leb_gt, Z.leb_gt.
  lia.
Qed.

Lemma reading_consumed input s s' pre :
  reading input s -> err s = None -> consumed s s' pre -> reading input s'.
Proof.
  intros (pre0 & Hin & H0) He [Hu H]. rewrite He in H0.
  exists (pre0 ++ pre). split; [by rewrite Hin, Hu, app_assoc|].
  destruct (err s') as [[]|]; try done.
  - destruct H. split; [by apply Forall_app|done].
  - destruct H as (p & c & -> & Hp & Hc). exists (pre0 ++ p), c.
    rewrite app_assoc. split; [done|]. split; [by apply Forall_app|done].
  - by apply Forall_app.
Qed.

Lemma reading_line input s s1 :
  reading input s -> err s = None -> line_result s s1 -> reading input s1.
Proof.
  intros Hr He [pre _ _ Hc|s1' pre -> _ Hc He1|t pre _ _ _ Hc _
               |indent t pre _ _ _ Hc _|k pre _ _ _ Hc _];
    try by eapply reading_consumed.
  destruct (reading_consumed _ _ _ _ Hr He Hc) as (pre0 & Hin & H).
  exists pre0. split; [done|]. simpl. by rewrite He1 in H.
Qed.

Lemma reading_handleEOF input s s' :
  stack_ok s -> reading input s -> handleEOF s = Some s' -> reading input s'.
Proof.
  intros Hs Hr Hh. destruct (decide (err s = Some io_EOF)) as [He|He].
  - destruct (handleEOF_eof s He Hs) as (s2 & Hh' & _ & _ & He2 & Hr2).
    rewrite Hh in Hh'. injection Hh' as <-.
    unfold reading, unread in *. rewrite He2, Hr2. by rewrite He in Hr.
  - rewrite handleEOF_other in Hh by done. by injection Hh as <-.
Qed.

Lemma Scan_reading input s b s' :
  stack_ok s -> toks s <> [] -> reading input s ->
  Scan s = Some (b, s') -> reading input s'.
Proof.
  intros Hs Ht Hr. destruct (toks s) as [|t0 [|t1 q]] eqn:Hq; [done|..].
  - destruct (err s) as [e|] eqn:He.
    + rewrite (Scan_stopped s t0) by (by rewrite ?He). by intros [= <- <-].
    + destruct (Scan_pass s t0 Hq He Hs) as (s1 & s2 & -> & Hl & Hh).
      intros [= <- <-].
      assert (Hs1 : stack_ok s1) by (eapply line_result_stack; [|done]; done).
      assert (Hr1 : reading input s1)
        by (eapply (reading_line _ (set_toks s [])); done).
      by eapply reading_handleEOF.
  - rewrite (Scan_dequeue s t0 t1 q) by done. by intros [= <- <-].
Qed.

Lemma scanAll_reading input fuel : forall s ts s',
  stack_ok s -> toks s <> [] -> reading input s ->
  scanAll fuel s = Some (ts, s') -> reading input s'.
Proof.
  induction fuel as [|f IH]; intros s ts s' Hs Ht Hr; [done|]. simpl.
  destruct (Scan_progress s Hs Ht) as (b & s1 & HS & Hs1 & Hb & _).
  rewrite HS. pose proof (Scan_reading _ _ _ _ Hs Ht Hr HS) as Hr1.
  destruct b; [|by intros [= <- <-]].
  destruct (Hb eq_refl) as [Ht1 _].
  destruct (Token_ s1); [|done]. simpl.
  destruct (scanAll f s1) as [[ts1 s2]|] eqn:Hrec; [|done]. simpl.
  intros [= <- <-]. by eapply IH.
Qed.

(** Once an error is recorded, a call of [Scan] reads nothing and produces
    nothing: it only takes the current token off the queue. *)
Lemma Scan_after_error s b s' :
  err s <> None -> Scan s = Some (b, s') ->
  s' = set_toks s (tail (toks s)) /\ b = bool_decide (tail (toks s) <> []).
Proof.
  intros He. unfold Scan. destruct (toks s) as [|t0 [|t1 q]]; [done|..]; simpl.
  - rewrite bool_decide_eq_true_2 by done. by intros [= <- <-].
  - by intros [= <- <-].
Qed.

Lemma scanAll_final fuel : forall s ts s',
  stack_ok s -> toks s <> [] ->
  scanAll fuel s = Some (ts, s') -> toks s' = [] /\ err s' <> None.
Proof.
  induction fuel as [|f IH]; intros s ts s' Hs Ht; [done|]. simpl.
  destruct (Scan_progress s Hs Ht) as (b & s1 & HS & Hs1 & Hb & Hf).
  rewrite HS. destruct b; [|intros [= <- <-]; by apply Hf].
  destruct (Hb eq_refl) as [Ht1 _].
  destruct (Token_ s1); [|done]. simpl.
  destruct (scanAll f s1) as [[ts1 s2]|] eqn:Hrec; [|done]. simpl.
  intros [= <- <-]. by eapply IH.
Qed.
(** ** The claims about the scanner *)

(** C4. For a source that is scanned to its end without a fatal error, the
    tokens handed out by [Scan] hold as many [Indent] as [Unindent] tokens
    (those added by [handleEOF] included): their difference is 0.  Exactly
    one [EOF] token is handed out, it is the last token, and the indent
    stack is then the one-entry stack holding the empty string. *)
Theorem indent_unindent_balance (input : list rune) (fuel : nat)
    (ts : list Token) (s' : Scanner) :
  scanAll fuel (NewScanner input) = Some (ts, s') ->
  Err s' = None ->
  Z.of_nat (count_type Indent ts) - Z.of_nat (count_type Unindent ts) = 0 /\
  count_type EOF ts = 1%nat /\ last ts = Some (tok EOF) /\
  indents s' = [ [] ] /\ length (indents s') = 1%nat.
Proof.
  intros Hrun Herr.
  destruct (scanAll_balance fuel (NewScanner input) ts s' eq_refl
              ltac:(by exists []) ltac:(done) Hrun Herr)
    as (Hi & _ & produced & -> & Hc & Hd).
  simpl in Hd |- *. fold (depth_change (produced ++ [tok EOF])).
  rewrite depth_change_app, Hd, count_type_app, Hc, last_snoc, Hi.
  done.
Qed.

Lemma indent_unindent_balance_witness :
  let input := [97; 10; 32; 32; 98; 10; 32; 32; 32; 99] in
  let s' := mkScanner (mkReader [] None) 0 [ [] ] [] (Some io_EOF) in
  let ts := [mkToken LineString [97]; tok Indent; mkToken LineString [98];
             tok Indent; mkToken LineString [99]; tok Unindent; tok Unindent;
             tok EOF] in
  scanAll 20 (NewScanner input) = Some (ts, s') /\ Err s' = None /\
  Z.of_nat (count_type Indent ts) - Z.of_nat (count_type Unindent ts) = 0 /\
  count_type EOF ts = 1%nat /\ last ts = Some (tok EOF) /\
  indents s' = [ [] ] /\ length (indents s') = 1%nat.
Proof.
  intros input s' ts.
  split; [vm_compute; reflexivity|]. split; [reflexivity|].
  apply (indent_unindent_balance input 20 ts s'); [vm_compute|]; reflexivity.
Defined.

(** C5. Let [indent] be the indent string measured for a line, different
    from the top of the stack and not an extension of it.  [calcIndent]
    looks for it from the top downward.  Either it is found first [k] levels
    below the top, and [scanLine] pops exactly [k] entries and adds exactly
    [k] [Unindent] tokens; or no entry of the stack equals it, and
    [scanLine] records the mismatch error, which [Err] reports and after
    which [Scan] returns [false]. *)
Theorem dedent_or_mismatch (s : Scanner) (indent : gostring) (s1 : Scanner)
    (top : gostring) :
  scanIndent s = (indent, true, s1) ->
  last (indents s) = Some top ->
  indent <> top ->
  ~ (exists t, indent = top ++ t) ->
  (exists k s',
      (1 <= k < length (indents s))%nat /\
      below_top (indents s) k = Some indent /\
      (forall j, (1 <= j < k)%nat -> below_top (indents s) j <> Some indent) /\
      calcIndent s1 indent = Some (- Z.of_nat k, true) /\
      scanLine s = Some s' /\
      indents s' = take (length (indents s) - k) (indents s) /\
      length (indents s') = (length (indents s) - k)%nat /\
      toks s' = toks s ++ replicate k (tok Unindent) /\
      err s' = None)
  \/
  ((forall k, (1 <= k < length (indents s))%nat ->
              below_top (indents s) k <> Some indent) /\
   calcIndent s1 indent = Some (0, false) /\
   exists s', scanLine s = Some s' /\
     s' = set_err s1 (Some errMismatchIndent) /\
     toks s' = toks s /\ indents s' = indents s /\
     Err s' = Some errMismatchIndent /\
     forall t0, Scan (set_toks s' [t0]) = Some (false, set_toks s' [])).
Proof.
  intros Hsi Htop Hne Hpre.
  destruct (scanIndent_spec _ _ _ _ Hsi) as ((Hi1 & Ht1) & pre1 & Hc1 & _ & _ & Hat).
  assert (He1 : err s1 = None) by by destruct Hat.
  assert (Hcalc : calcIndent s1 indent =
    Some (calcIndent_loop (length (indents s) - 1) 1 (indents s) indent)).
  { unfold calcIndent. rewrite Hi1, Htop.
    assert (list_eqb indent top = false) as -> by by apply list_eqb_neq.
    assert (HasPrefix indent top = false) as ->; [|done].
    destruct (HasPrefix indent top) eqn:E; [|done].
    by apply HasPrefix_spec in E. }
  unfold scanLine. rewrite Hsi, Hcalc. simpl.
  destruct (calcIndent_loop (length (indents s) - 1) 1 (indents s) indent)
    as [n b] eqn:Hloop.
  apply calcIndent_loop_inv in Hloop;
    [|destruct (indents s); [done|simpl; lia]|lia].
  destruct Hloop as [(-> & -> & Hnone)|(-> & k & -> & Hk & Hfound & Hfirst)].
  - right. split; [done|]. split; [done|]. eexists. split; [done|].
    split; [done|]. split; [done|]. split; [done|]. split; [done|].
    intros t0. by rewrite (Scan_stopped _ t0).
  - left. exists k.
    assert ((- Z.of_nat k =? 0) = false) as -> by lia.
    assert ((- Z.of_nat k =? 1) = false) as -> by lia.
    assert ((1 <? - Z.of_nat k) = false) as -> by lia.
    assert (Z.to_nat (- - Z.of_nat k) = k) as -> by lia.
    assert ((length (indents s1) <? k)%nat = false) as ->
      by (apply Nat.ltb_ge; rewrite Hi1; lia).
    eexists. split; [done|]. split; [done|]. split; [done|].
    split; [done|]. split; [done|].
    destruct (addToks_spec k (tok Unindent)
      (set_indents s1 (take (length (indents s1) - k) (indents s1))))
      as (Ht & Hi & Hr & He & Hc).
    rewrite Hi, Ht, He. simpl. rewrite Hi1, Ht1, length_take. 
    repeat split; try done. lia.
Qed.

Lemma dedent_or_mismatch_witness :
  let s := mkScanner (mkReader [32; 32; 100] None) 0
             [ []; [32; 32]; [32; 32; 32; 32] ] [] None in
  let s1 := mkScanner (mkReader [100] None) 100
              [ []; [32; 32]; [32; 32; 32; 32] ] [] None in
  scanIndent s = ([32; 32], true, s1) /\
  scanLine s = Some (mkScanner (mkReader [100] None) 100 [ []; [32; 32] ]
                       [tok Unindent] None).
Proof.
  intros s s1. split; [vm_compute; reflexivity|].
  destruct (dedent_or_mismatch s [32; 32] s1 [32; 32; 32; 32])
    as [(k & s' & _ & _ & _ & _ & H & _)|(Hnone & _)].
  - vm_compute; reflexivity.
  - reflexivity.
  - intros [=].
  - intros [t [=]].
  - rewrite H. vm_compute in H. injection H as <-. reflexivity.
  - exfalso. apply (Hnone 1%nat); [simpl; lia|reflexivity].
Defined.

(** What [next] accepts, and how a scan ends.  A rune is accepted by
    [next] exactly when it is a space, tab, CR or LF, or lies outside
    0x00-0x19 and is not U+FFFD;
    reading any other rune records [errInvalidCodePoint].  At the end of a
    scan, [Err] reports nothing (the whole source was read and every rune
    was valid), or [errInvalidCodePoint] (the scan stopped right after the
    first invalid rune: nothing behind it was read), or
    [errMismatchIndent]; it reports nothing else.  Once an error is
    recorded, a call of [Scan] reads no rune and adds no token: it only
    takes the current token off the queue, keeping the error.  The pass
    that meets the invalid rune leaves the queue empty, or with the token
    of one line in it, alone or after an [Indent] token. *)
Theorem invalid_code_point_fatal (input : list rune) (fuel : nat)
    (ts : list Token) (s' : Scanner) :
  scanAll fuel (NewScanner input) = Some (ts, s') ->
  match Err s' with
  | None => Forall (fun c => valid_rune c = true) input /\ unread s' = []
  | Some errInvalidCodePoint =>
      exists pre c, input = pre ++ c :: unread s' /\
        Forall (fun c => valid_rune c = true) pre /\ valid_rune c = false
  | Some errMismatchIndent =>
      exists pre, input = pre ++ unread s' /\
        Forall (fun c => valid_rune c = true) pre
  | Some _ => False
  end /\
  (forall c, valid_rune c = true <->
     (c = 32 \/ c = 9 \/ c = 13 \/ c = 10) \/
     (c <> 65533 /\ ~ (0 <= c <= 25))) /\
  (forall s c rest ok s1,
     unread s = c :: rest -> next s = (ok, s1) ->
     unread s1 = rest /\
     if valid_rune c then ok = true /\ err s1 = None
     else ok = false /\ err s1 = Some errInvalidCodePoint) /\
  (forall s ok s1,
     unread s = [] -> next s = (ok, s1) ->
     ok = false /\ err s1 = Some io_EOF /\ Err s1 = None) /\
  (forall s b s1,
     err s <> None -> Scan s = Some (b, s1) ->
     r s1 = r s /\ toks s1 = tail (toks s) /\ err s1 = err s /\
     indents s1 = indents s) /\
  (forall s t0 b s1,
     toks s = [t0] -> err s = None -> stack_ok s ->
     Scan s = Some (b, s1) -> err s1 = Some errInvalidCodePoint ->
     toks s1 = [] \/
     exists t, is_content t /\ (toks s1 = [t] \/ toks s1 = [tok Indent; t])).
Proof.
  intros Hrun. split; [|split; [|split; [|split; [|split]]]].
  - assert (Hr0 : reading input (NewScanner input))
      by (exists []; split; [done|constructor]).
    assert (Hs0 : stack_ok (NewScanner input)) by by exists [].
    assert (Ht0 : toks (NewScanner input) <> []) by done.
    pose proof (scanAll_reading input fuel _ _ _ Hs0 Ht0 Hr0 Hrun)
      as (pre & Hin & H).
    destruct (scanAll_final fuel _ _ _ Hs0 Ht0 Hrun) as [_ Hne].
    unfold Err. destruct (err s') as [[]|]; try done.
    + destruct H as [Hv Hu]. rewrite Hu, app_nil_r in Hin. by subst.
    + destruct H as (p & c & -> & Hp & Hc). exists p, c.
      by rewrite <- app_assoc in Hin.
    + by exists pre.
  - apply valid_rune_spec.
  - intros s c rest ok s1 Hu Hn.
    destruct (next_spec _ _ _ Hn) as (_ & _ & H). rewrite Hu in H.
    destruct H as (Hu1 & _ & _ & H). done.
  - intros s ok s1 Hu Hn.
    destruct (next_spec _ _ _ Hn) as (_ & _ & H). rewrite Hu in H.
    destruct H as (-> & He & _). unfold Err. by rewrite He.
  - intros s b s1 He HS. by destruct (Scan_after_error _ _ _ He HS) as [-> _].
  - intros s t0 b s1 Hq He Hs HS Herr.
    destruct (Scan_pass s t0 Hq He Hs) as (s1' & s2 & HS' & Hl & Hh).
    rewrite HS in HS'. injection HS' as -> ->.
    assert (s2 = s1') as ->.
    { destruct (decide (err s1' = Some io_EOF)) as [He1|He1].
      - assert (Hs1 : stack_ok s1')
          by (eapply line_result_stack; [|done]; done).
        destruct (handleEOF_eof s1' He1 Hs1) as (s2' & Hh' & _ & _ & E & _).
        rewrite Hh in Hh'. injection Hh' as <-. congruence.
      - rewrite handleEOF_other in Hh by done. by injection Hh as <-. }
    destruct Hl as [pre [_ Ht] _ _|s0 pre -> _ _ _|t pre _ Ht Hc _ _
                   |indent t pre _ Ht Hc _ _|k pre _ _ _ _ He1].
    + left. by rewrite Ht.
    + done.
    + right. exists t. split; [done|]. left. by rewrite Ht.
    + right. exists t. split; [done|]. right. by rewrite Ht.
    + congruence.
Qed.

Lemma invalid_code_point_fatal_witness :
  let input := [97; 98; 1; 99] in
  let s' := mkScanner (mkReader [99] (Some 1)) 1 [ [] ] []
              (Some errInvalidCodePoint) in
  let ts := [mkToken LineString [97; 98]] in
  scanAll 10 (NewScanner input) = Some (ts, s') /\
  exists pre c, input = pre ++ c :: unread s' /\
    Forall (fun c => valid_rune c = true) pre /\ valid_rune c = false.
Proof.
  intros input s' ts. split; [vm_compute; reflexivity|].
  assert (Hrun : scanAll 10 (NewScanner input) = Some (ts, s'))
    by (vm_compute; reflexivity).
  exact (proj1 (invalid_code_point_fatal input 10 ts s' Hrun)).
Defined.

(** An invalid rune inside the text of a line: on the source [ab<0x01>c] the
    first pass reads [a], [b] and then the invalid rune.  [inline] returns
    with the error recorded and the queue still empty; [afterIndent] then
    adds the token of the line, and [Scan] returns [true] and hands it out
    while [Err] already reports the error. *)
Lemma invalid_code_point_token :
  let s0 := NewScanner [97; 98; 1; 99] in
  exists s1 s2 s3,
    scanIndent (set_toks s0 []) = ([], true, s1) /\
    inline s1 = ([97; 98], s2) /\
    err s2 = Some errInvalidCodePoint /\ toks s2 = [] /\
    afterIndent s1 = Some s3 /\
    Scan s0 = Some (true, s3) /\
    toks s3 = [mkToken LineString [97; 98]] /\
    Err s3 = Some errInvalidCodePoint.
Proof.
  intros s0. eexists _, _, _.
  split; [vm_compute; reflexivity|].
  split; [vm_compute; reflexivity|].
  repeat split.
Qed.
(** ** The end of a scan *)

(** X1. The consumer's loop [for s.Scan() { ... }] ends on every source,
    valid or not: after at most [weight] + 1 calls, none of which panics,
    [Scan] returns [false].  The queue is then empty and the error field
    is set ([io.EOF] included).  One more call of [Scan] after that
    panics: it slices the empty queue with [s.toks[1:]]. *)
Theorem Scan_loop_ends (input : list rune) :
  exists ts s',
    scanAll (S (weight (NewScanner input))) (NewScanner input)
      = Some (ts, s') /\
    weight (NewScanner input) = (5 * length input + 7)%nat /\
    toks s' = [] /\ err s' <> None /\ Scan s' = None.
Proof.
  destruct (scanAll_total input) as (ts & s' & Hrun).
  exists ts, s'. split; [done|]. split.
  { unfold weight, unread, NewScanner.
    cbn [toks err r pending indents length]. lia. }
  destruct (scanAll_final _ (NewScanner input) ts s'
              ltac:(by exists []) ltac:(done) Hrun) as [Ht He].
  split; [done|]. split; [done|]. unfold Scan. by rewrite Ht.
Qed.
(** ** The nesting of the tokens *)

Lemma nesting_app l1 : forall d l2,
  nesting d (l1 ++ l2) = d' ← nesting d l1; nesting d' l2.
Proof.
  induction l1 as [|t l1 IH]; intros d l2; [done|]. simpl.
  destruct (nest_step d t) as [d'|]; [apply IH|done].
Qed.

Lemma nesting_content d t : is_content t -> nesting d [t] = Some d.
Proof. by intros [H|H]; unfold nesting, nest_step; rewrite H. Qed.

Lemma nesting_unindents k : forall d,
  (k <= d)%nat -> nesting d (replicate k (tok Unindent)) = Some (d - k)%nat.
Proof.
  induction k as [|k IH]; intros d Hk; simpl.
  - f_equal. lia.
  - destruct d as [|d]; [lia|]. simpl. rewrite IH by lia. done.
Qed.

(** The tokens of one pass, those [handleEOF] adds included, take the depth
    of the stack before the pass to the depth of the stack after it. *)
Lemma line_result_nesting s s1 s2 :
  toks s = [] -> stack_ok s ->
  line_result s s1 -> handleEOF s1 = Some s2 ->
  nesting (length (indents s) - 1) (toks s2) = Some (length (indents s2) - 1)%nat.
Proof.
  intros Ht Hs Hl Hh.
  assert (Hs1 : stack_ok s1) by by eapply line_result_stack.
  assert (Hline : nesting (length (indents s) - 1) (toks s1)
                  = Some (length (indents s1) - 1)%nat /\
                  (err s1 = Some io_EOF -> err s1 <> None)).
  { split; [|congruence].
    destruct Hl as [pre [Hi Ht1] He Hc|s0 pre -> [Hi Ht1] Hc He
                   |t pre Hi Ht1 Hct Hc Hp|indent t pre Hi Ht1 Hct Hc Hp
                   |k pre Hk Hi Ht1 Hc He].
    - rewrite Ht1, Ht, Hi. done.
    - simpl. rewrite Ht1, Ht, Hi. done.
    - rewrite Ht1, Ht, Hi. simpl. by apply nesting_content.
    - rewrite Ht1, Ht, Hi, length_app. simpl.
      change (nesting (S (length (indents s) - 1)) [t]
              = Some (length (indents s) + 1 - 1)%nat).
      rewrite nesting_content by done. f_equal.
      destruct Hs as [rest ->]. simpl. lia.
    - rewrite Ht1, Ht, Hi, length_take. simpl.
      rewrite nesting_unindents by lia. f_equal. lia. }
  destruct Hline as [Hline _].
  destruct (decide (err s1 = Some io_EOF)) as [He|He].
  - destruct (handleEOF_eof s1 He Hs1) as (s2' & Hh' & Hi2 & Ht2 & _).
    rewrite Hh in Hh'. injection Hh' as <-.
    rewrite Ht2, Hi2, nesting_app, Hline. simpl.
    rewrite nesting_app, nesting_unindents by lia. simpl. f_equal. lia.
  - rewrite handleEOF_other in Hh by done. injection Hh as <-. done.
Qed.

Lemma nesting_cons d t q x :
  nesting d (t :: q) = Some x ->
  exists d', nest_step d t = Some d' /\ nesting d' q = Some x.
Proof. simpl. destruct (nest_step d t) as [d'|]; [by exists d'|done]. Qed.

Lemma scanAll_nesting fuel : forall s d t0 q ts s',
  stack_ok s -> toks s = t0 :: q ->
  nesting d q = Some (length (indents s) - 1)%nat ->
  scanAll fuel s = Some (ts, s') ->
  nesting d ts = Some (length (indents s') - 1)%nat.
Proof.
  induction fuel as [|fuel IH]; intros s d t0 q ts s' Hs Ht Hq Hrun; [done|].
  simpl in Hrun.
  destruct q as [|t1 q].
  - destruct (err s) as [e|] eqn:He.
    + rewrite (Scan_stopped s t0) in Hrun by (done || congruence).
      injection Hrun as <- <-. done.
    + destruct (Scan_pass s t0 Ht He Hs) as (s1 & s2 & HS & Hl & Hh).
      rewrite HS in Hrun.
      assert (Hn := line_result_nesting (set_toks s []) s1 s2 eq_refl Hs Hl Hh).
      simpl in Hn, Hq. injection Hq as ->.
      assert (Hs2 : stack_ok s2).
      { destruct (Scan_progress s Hs) as (b & s2' & HS' & Hs2 & _);
          [by rewrite Ht|]. rewrite HS in HS'. by injection HS' as _ <-. }
      destruct (toks s2) as [|t1 q'] eqn:Ht2.
      * rewrite bool_decide_eq_false_2 in Hrun by (intros H; by apply H).
        injection Hrun as <- <-. done.
      * rewrite bool_decide_eq_true_2 in Hrun by done.
        unfold Token_ in Hrun. rewrite Ht2 in Hrun. simpl in Hrun.
        destruct (scanAll fuel s2) as [[ts' s'']|] eqn:Hrun'; [|done].
        simpl in Hrun. injection Hrun as <- <-.
        apply nesting_cons in Hn as (d' & Hd' & Hn).
        simpl. rewrite Hd'. simpl.
        by eapply (IH s2 d' t1 q').
  - rewrite (Scan_dequeue s t0 t1 q Ht) in Hrun.
    unfold Token_ in Hrun. simpl in Hrun.
    destruct (scanAll fuel (set_toks s (t1 :: q))) as [[ts' s'']|] eqn:Hrun';
      [|done].
    simpl in Hrun. injection Hrun as <- <-.
    apply nesting_cons in Hq as (d' & Hd' & Hq).
    simpl. rewrite Hd'. simpl.
    by eapply (IH (set_toks s (t1 :: q)) d' t1 q).
Qed.

(** X2. For every source, valid or not, the tokens handed out by [Scan] are
    well nested: no [Unindent] token comes at depth 0, and the depth the
    tokens end at is the depth of the indent stack the scanner is left
    with; it is 0 when the scan ended without a fatal error. *)
Theorem tokens_well_nested (input : list rune) (fuel : nat)
    (ts : list Token) (s' : Scanner) :
  scanAll fuel (NewScanner input) = Some (ts, s') ->
  nesting 0 ts = Some (length (indents s') - 1)%nat /\
  (Err s' = None -> nesting 0 ts = Some 0%nat).
Proof.
  intros Hrun.
  assert (Hs0 : stack_ok (NewScanner input)) by by exists [].
  assert (Hn := scanAll_nesting fuel (NewScanner input) 0 (tok _SOF) [] ts s'
                  Hs0 eq_refl eq_refl Hrun).
  split; [done|]. intros He. rewrite Hn.
  destruct (scanAll_balance fuel (NewScanner input) ts s') as (-> & _);
    done.
Qed.

Lemma tokens_well_nested_witness :
  let input := [97; 10; 32; 98; 10; 32; 32; 99; 10; 9; 100] in
  exists ts s',
    scanAll 20 (NewScanner input) = Some (ts, s') /\
    Err s' = Some errMismatchIndent /\
    nesting 0 ts = Some 2%nat /\ length (indents s') = 3%nat.
Proof.
  intros input.
  destruct (scanAll 20 (NewScanner input)) as [[ts s']|] eqn:Hrun;
    [|by vm_compute in Hrun].
  exists ts, s'. split; [reflexivity|].
  destruct (tokens_well_nested input 20 ts s' Hrun) as [Hn _].
  assert (Hs : s' = mkScanner (mkReader [100] None) 100
                      [ []; [32]; [32; 32] ] [] (Some errMismatchIndent)).
  { vm_compute in Hrun. by injection Hrun as _ <-. }
  split; [by rewrite Hs|]. split; [by rewrite Hn, Hs|by rewrite Hs].
Defined.
(** ** One pass of [scanLine], in detail *)

Lemma afterIndent_token s :
  at_content s ->
  exists s' t, afterIndent s = Some s' /\
    indents s' = indents s /\ toks s' = toks s ++ [t] /\
    is_content t /\ token_ok t.
Proof.
  intros Hat. unfold afterIndent.
  destruct (inline s) as [str s1] eqn:Hin.
  destruct (inline_at_content _ _ _ Hat Hin)
    as ((Hi & Ht) & body & pre & -> & Hcons & Hne & Hb & Hp1 & Hp2).
  destruct Hat as (He & c & rest & Hu & Hc & Hv & Hst & Hnl).
  assert (Hvalid : Forall valid (ch s :: body)).
  { destruct Hcons as [_ Hm].
    destruct (err s1) as [[]|] eqn:He1; try done.
    - destruct Hm as [Hm _]. by rewrite Hp1 in Hm.
    - destruct (Hp2 eq_refl) as [c0 Hpre].
      destruct Hm as (p & c1 & Hpre' & Hp & _).
      rewrite Hpre in Hpre'. apply app_inj_tail in Hpre' as [<- _]. done.
    - by rewrite Hp1 in Hm. }
  assert (Hline : Forall line_char (ch s :: body)).
  { apply Forall_forall. intros x Hx. split.
    - by eapply Forall_forall in Hvalid.
    - by eapply (proj1 (Forall_forall _ _) Hb). }
  destruct (ch s =? r_hash) eqn:Hh.
  - exists (addTok s1 (mkToken Annotation body)), (mkToken Annotation body).
    split; [done|]. split; [done|]. split; [simpl; congruence|].
    split; [by left|]. unfold token_ok. simpl.
    by apply Forall_cons in Hline as [_ ?].
  - exists (addTok s1 (mkToken LineString (ch s :: body))),
      (mkToken LineString (ch s :: body)).
    split; [done|]. split; [done|]. split; [simpl; congruence|].
    split; [by right|]. unfold token_ok. simpl. split; [done|].
    exists (ch s), body. split; [done|]. split; [congruence|].
    by apply Z.eqb_neq.
Qed.

Lemma scanLine_detail s :
  indents s <> [] ->
  exists s', scanLine s = Some s' /\ line_detail s s'.
Proof.
  intros Hne. unfold scanLine.
  destruct (scanIndent s) as [[indent ok] s1] eqn:Hsi.
  destruct (scanIndent_spec _ _ _ _ Hsi) as ((Hi1 & Ht1) & pre1 & Hc1 & H).
  destruct ok; simpl.
  2:{ exists s1. split; [done|]. by eapply detail_none. }
  destruct H as (Hind & _ & Hat).
  assert (Hne1 : indents s1 <> []) by congruence.
  destruct (calcIndent_spec s1 indent Hne1) as (top & Htop & ->).
  destruct (list_eqb indent top) eqn:Heq; simpl.
  { destruct (afterIndent_token s1 Hat) as (s' & t & -> & Hi & Ht & Hct & Hok).
    exists s'. split; [done|].
    eapply (detail_same _ _ t); congruence. }
  destruct (HasPrefix indent top) eqn:Hpre; simpl.
  { set (s2 := addTok (set_indents s1 (indents s1 ++ [indent])) (tok Indent)).
    assert (Hat2 : at_content s2) by done.
    destruct (afterIndent_token s2 Hat2) as (s' & t & -> & Hi & Ht & Hct & Hok).
    exists s'. split; [done|].
    eapply (detail_push _ _ top indent t); try done.
    - congruence.
    - apply HasPrefix_spec in Hpre as [x ->]. exists x. split; [|done].
      intros ->. apply list_eqb_neq in Heq. by rewrite app_nil_r in Heq.
    - rewrite Hi. simpl. congruence.
    - rewrite Ht. simpl. rewrite Ht1, <- app_assoc. done. }
  destruct (calcIndent_loop (length (indents s1) - 1) 1 (indents s1) indent)
    as [n b] eqn:Hloop.
  apply calcIndent_loop_inv in Hloop;
    [|destruct (indents s1); [done|simpl; lia]|lia].
  destruct Hloop as [(-> & -> & _)|(-> & j & -> & Hj & _)].
  { exists (set_err s1 (Some errMismatchIndent)). split; [done|].
    by eapply detail_none. }
  assert ((- Z.of_nat j =? 0) = false) as -> by lia.
  assert ((- Z.of_nat j =? 1) = false) as -> by lia.
  assert ((1 <? - Z.of_nat j) = false) as -> by lia.
  assert (Z.to_nat (- - Z.of_nat j) = j) as -> by lia.
  assert ((length (indents s1) <? j)%nat = false) as ->
    by (apply Nat.ltb_ge; lia).
  eexists. split; [done|].
  destruct (addToks_spec j (tok Unindent)
    (set_indents s1 (take (length (indents s1) - j) (indents s1))))
    as (Ht & Hi & Hr & He & Hc).
  eapply (detail_pop _ _ j).
  - rewrite <- Hi1. lia.
  - rewrite Hi. simpl. by rewrite Hi1.
  - rewrite Ht. simpl. by rewrite Ht1.
  - destruct Hat as (He1 & c & rest & Hu & Hch & Hrest). split.
    + by rewrite He.
    + exists c, rest. unfold unread in *. rewrite Hr, Hc. done.
Qed.

(** ** The indent stack *)

Lemma chain_app_last l : forall top x,
  chain l -> last l = Some top -> proper_prefix top x -> chain (l ++ [x]).
Proof.
  induction l as [|a l IH]; intros top x Hc Hl Hp; [done|].
  destruct l as [|b l].
  - simpl in Hl. injection Hl as ->. done.
  - destruct Hc as [Hab Hc]. split; [done|]. by eapply IH.
Qed.

Lemma chain_take l : forall n, chain l -> chain (take n l).
Proof.
  induction l as [|a l IH]; intros n Hc; [by destruct n|].
  destruct n as [|n]; [done|]. destruct Hc as [Ha Hc]. simpl.
  split; [|by apply IH].
  destruct l as [|b l]; [by destruct n|]. by destruct n.
Qed.

Lemma stack_sorted_take ind n :
  (1 <= n)%nat -> stack_sorted ind -> stack_sorted (take n ind).
Proof.
  intros Hn [[rest ->] Hc]. split; [|by apply chain_take].
  destruct n as [|n]; [lia|]. by eexists.
Qed.

Lemma line_detail_sorted s s' :
  stack_sorted (indents s) -> line_detail s s' -> stack_sorted (indents s').
Proof.
  intros Hs [[Hi _] _|t Hi _ _ _|top indent t Htop Hp Hi _ _ _|k Hk Hi _ _].
  - by rewrite Hi.
  - by rewrite Hi.
  - rewrite Hi. destruct Hs as [[rest Hr] Hc]. split.
    + rewrite Hr. by eexists.
    + by eapply chain_app_last.
  - rewrite Hi. apply stack_sorted_take; [lia|done].
Qed.

Lemma handleEOF_sorted s s' :
  stack_sorted (indents s) -> handleEOF s = Some s' ->
  stack_sorted (indents s').
Proof.
  intros Hs Hh.
  destruct (decide (err s = Some io_EOF)) as [He|He].
  - destruct (handleEOF_eof s He (proj1 Hs)) as (s2 & Hh' & Hi & _).
    rewrite Hh in Hh'. injection Hh' as <-. rewrite Hi.
    split; [by exists []|done].
  - rewrite handleEOF_other in Hh by done. by injection Hh as <-.
Qed.

(** X3. [Scan] keeps the indent stack sorted: whenever the bottom entry is
    the empty string and every entry is a proper prefix of the entry above
    it, a call of [Scan] on a scanner whose token queue is not empty (as
    it is inside the loop for [s.Scan()]) returns (it does not panic) and
    leaves a stack of that kind.  The stack [NewScanner] starts with is of that kind, so
    every stack of a scan is. *)
Theorem Scan_keeps_stack_sorted (input : list rune) (s : Scanner) :
  stack_sorted (indents s) -> toks s <> [] ->
  stack_sorted (indents (NewScanner input)) /\
  exists b s', Scan s = Some (b, s') /\ stack_sorted (indents s').
Proof.
  intros Hs Ht. split; [split; [by exists []|done]|].
  destruct (toks s) as [|t0 [|t1 q]] eqn:Hq; [done|..].
  - destruct (err s) as [e|] eqn:He.
    + rewrite (Scan_stopped s t0) by (done || congruence). by eexists _, _.
    + unfold Scan. rewrite Hq. simpl. rewrite He. simpl.
      destruct (scanLine_detail (set_toks s [])) as (s1 & -> & Hl).
      { intros E. simpl in E. destruct Hs as [[rest Hr] _]. congruence. }
      assert (Hs1 : stack_sorted (indents s1))
        by by eapply (line_detail_sorted (set_toks s [])).
      simpl.
      destruct (handleEOF s1) as [s2|] eqn:Hh.
      * simpl. eexists _, _. split; [done|]. by eapply handleEOF_sorted.
      * destruct (decide (err s1 = Some io_EOF)) as [He1|He1].
        -- destruct (handleEOF_eof s1 He1 (proj1 Hs1)) as (s2 & Hh' & _).
           congruence.
        -- rewrite handleEOF_other in Hh by done. done.
  - rewrite (Scan_dequeue s t0 t1 q Hq). by eexists _, _.
Qed.

Lemma Scan_keeps_stack_sorted_witness :
  let s := mkScanner (mkReader [32; 32; 32; 99; 10] None) 0
             [ []; [32]; [32; 32] ] [mkToken LineString [98]] None in
  exists b s', Scan s = Some (b, s') /\ stack_sorted (indents s') /\
    indents s' = [ []; [32]; [32; 32]; [32; 32; 32] ].
Proof.
  intros s.
  assert (Hs : stack_sorted (indents s)).
  { split; [by eexists|]. simpl.
    split; [by exists [32]|]. split; [by exists [32]|done]. }
  destruct (Scan_keeps_stack_sorted [] s Hs ltac:(done))
    as (_ & b & s' & HS & Hs').
  exists b, s'. split; [exact HS|]. split; [exact Hs'|].
  vm_compute in HS. by injection HS as _ <-.
Defined.

(** ** The tokens handed out *)

Lemma handleEOF_tokens s s' :
  stack_ok s -> handleEOF s = Some s' ->
  exists new, toks s' = toks s ++ new /\ Forall token_ok new.
Proof.
  intros Hs Hh.
  destruct (decide (err s = Some io_EOF)) as [He|He].
  - destruct (handleEOF_eof s He Hs) as (s2 & Hh' & _ & Ht & _).
    rewrite Hh in Hh'. injection Hh' as <-. eexists. split; [done|].
    apply Forall_app. split; [|by repeat constructor].
    apply Forall_forall. intros x Hx%elem_of_replicate. by destruct Hx as [-> _].
  - rewrite handleEOF_other in Hh by done. injection Hh as <-.
    exists []. by rewrite app_nil_r.
Qed.

Lemma line_detail_tokens s s' :
  line_detail s s' ->
  exists new, toks s' = toks s ++ new /\ Forall token_ok new.
Proof.
  intros [[_ Ht] _|t _ Ht _ Hok|top indent t _ _ _ Ht _ Hok|k _ _ Ht _].
  - exists []. by rewrite app_nil_r.
  - exists [t]. split; [done|]. by repeat constructor.
  - exists [tok Indent; t]. split; [done|]. by repeat constructor.
  - eexists. split; [done|].
    apply Forall_forall. intros x Hx%elem_of_replicate. by destruct Hx as [-> _].
Qed.

Lemma scanAll_tokens fuel : forall s ts s',
  stack_ok s -> toks s <> [] -> Forall token_ok (tail (toks s)) ->
  scanAll fuel s = Some (ts, s') -> Forall token_ok ts.
Proof.
  induction fuel as [|fuel IH]; intros s ts s' Hs Ht Hq Hrun; [done|].
  simpl in Hrun.
  destruct (Scan_progress s Hs Ht) as (b & s1 & HS & Hs1 & Hb1 & _).
  rewrite HS in Hrun. destruct b; [|by injection Hrun as <- _].
  destruct (Hb1 eq_refl) as [Ht1 _].
  assert (Hq1 : Forall token_ok (toks s1)).
  { destruct (toks s) as [|t0 [|t1 q]] eqn:Hts; [done|..].
    - destruct (err s) as [e|] eqn:He.
      + rewrite (Scan_stopped s t0) in HS by (done || congruence). done.
      + unfold Scan in HS. rewrite Hts in HS. simpl in HS.
        rewrite He in HS. simpl in HS.
        destruct (scanLine_detail (set_toks s [])) as (s2 & Hsl & Hl).
        { by apply stack_ok_ne. }
        rewrite Hsl in HS. simpl in HS.
        destruct (handleEOF s2) as [s3|] eqn:Hh; [|done].
        simpl in HS. injection HS as _ <-.
        destruct (line_detail_tokens _ _ Hl) as (new & Hn & Hok).
        assert (Hs2 : stack_ok s2).
        { destruct (scanLine_spec (set_toks s [])) as (s2' & Hsl' & Hl').
          { by apply stack_ok_ne. }
          rewrite Hsl in Hsl'. injection Hsl' as <-.
          by eapply (line_result_stack (set_toks s [])). }
        destruct (handleEOF_tokens _ _ Hs2 Hh) as (new' & Hn' & Hok').
        rewrite Hn', Hn. simpl. by apply Forall_app.
    - rewrite (Scan_dequeue s t0 t1 q Hts) in HS. by injection HS as <-. }
  unfold Token_ in Hrun.
  destruct (toks s1) as [|t1 q1] eqn:Hts1; [done|]. simpl in Hrun.
  destruct (scanAll fuel s1) as [[ts' s'']|] eqn:Hrun'; [|done].
  simpl in Hrun. injection Hrun as <- <-.
  apply Forall_cons in Hq1 as [Hok1 Hq1]. constructor; [done|].
  eapply (IH s1); [done| |by rewrite Hts1|done]. by rewrite Hts1.
Qed.

(** X4. Every token [Scan] hands out, for any source, is of one of the five
    kinds [LineString], [Annotation], [Indent], [Unindent] and [EOF]: the
    start token [_SOF] that [NewScanner] queues and the kind [Invalid] are
    never handed out.  The text of a [LineString] or [Annotation] token
    holds valid runes of one line only (no CR, no LF); a [LineString] is
    not empty and starts with no space, tab or ['#']; the other tokens
    carry no text. *)
Theorem tokens_shape (input : list rune) (fuel : nat)
    (ts : list Token) (s' : Scanner) :
  scanAll fuel (NewScanner input) = Some (ts, s') ->
  Forall token_ok ts.
Proof.
  intros Hrun. eapply (scanAll_tokens fuel (NewScanner input)); try done.
  by exists [].
Qed.

Lemma tokens_shape_witness :
  let input := [35; 120; 10; 32; 97; 32; 13; 10; 98] in
  exists ts s',
    scanAll 20 (NewScanner input) = Some (ts, s') /\
    Forall token_ok ts /\
    ts = [mkToken Annotation [120]; tok Indent; mkToken LineString [97; 32];
          tok Unindent; mkToken LineString [98]; tok EOF].
Proof.
  intros input.
  destruct (scanAll 20 (NewScanner input)) as [[ts s']|] eqn:Hrun;
    [|by vm_compute in Hrun].
  exists ts, s'. split; [reflexivity|].
  split; [exact (tokens_shape input 20 ts s' Hrun)|].
  vm_compute in Hrun. by injection Hrun as <- _.
Defined.
(** ** The reading loops, run on a known source *)

Lemma next_ok s c p :
  unread s = c :: p -> valid c ->
  next s = (true, mkScanner (mkReader p (Some c)) c (indents s) (toks s) None).
Proof.
  unfold unread, valid, valid_rune, next, ReadRune. intros -> Hv.
  destruct (is_blank c); [done|]. simpl in Hv.
  destruct (c =? ReplacementChar); [done|]. simpl in Hv.
  by destruct ((0 <=? c) && (c <=? 25)).
Qed.

Lemma next_end s : unread s = [] -> next s = (false, at_end s).
Proof. unfold unread, next, ReadRune. by intros ->. Qed.

Lemma next_bad s c p :
  unread s = c :: p -> valid_rune c = false ->
  next s = (false, at_invalid s c p).
Proof.
  unfold unread, valid_rune, next, ReadRune. intros -> Hv.
  destruct (is_blank c); [done|]. simpl in Hv.
  destruct (c =? ReplacementChar); [done|]. simpl in Hv.
  by destruct ((0 <=? c) && (c <=? 25)).
Qed.

(** [next] looks at the source, the stack and the queue only. *)
Lemma next_same_input s s2 :
  unread s = unread s2 -> indents s = indents s2 -> toks s = toks s2 ->
  next s = next s2.
Proof.
  intros Hu Hi Ht. destruct (unread s2) as [|c p] eqn:Hu2.
  - rewrite (next_end s Hu), (next_end s2 Hu2). unfold at_end. congruence.
  - destruct (valid_rune c) eqn:Hv.
    + rewrite (next_ok s c p Hu Hv), (next_ok s2 c p Hu2 Hv). congruence.
    + rewrite (next_bad s c p Hu Hv), (next_bad s2 c p Hu2 Hv).
      unfold at_invalid. congruence.
Qed.

Lemma stop_state_same s s2 rest :
  indents s = indents s2 -> toks s = toks s2 ->
  stop_state s rest = stop_state s2 rest.
Proof.
  intros Hi Ht. unfold stop_state, at_end, at_rune, at_invalid.
  by rewrite Hi, Ht.
Qed.

Lemma indentSpaces_run ws : forall n rs s rest,
  Forall (fun c => is_space_tab c = true) ws -> head_not is_space_tab rest ->
  unread s = ws ++ rest -> (length ws < n)%nat ->
  indentSpaces_loop n rs s =
    ((if (stop_state s rest).1 then rs ++ ws else []), (stop_state s rest).1,
     (stop_state s rest).2).
Proof.
  induction ws as [|w ws IH]; intros n rs s rest Hws Hrest Hu Hn;
    (destruct n as [|n]; [simpl in Hn; lia|]); simpl in Hu |- *.
  - destruct rest as [|c p]; simpl.
    + by rewrite (next_end s Hu).
    + destruct (valid_rune c) eqn:Hv; simpl.
      * rewrite (next_ok s c p Hu Hv). simpl.
        simpl in Hrest. unfold is_space_tab in Hrest.
        apply orb_false_iff in Hrest as [-> ->]. simpl.
        by rewrite app_nil_r.
      * by rewrite (next_bad s c p Hu Hv).
  - apply Forall_cons in Hws as [Hw Hws].
    rewrite (next_ok s w (ws ++ rest) Hu (space_tab_valid w Hw)). simpl.
    unfold is_space_tab in Hw.
    assert (negb (w =? r_space) && negb (w =? r_tab) = false) as ->
      by (apply orb_true_iff in Hw as [-> | ->]; [done|by rewrite andb_false_r]).
    rewrite (IH n (rs ++ [w])
               (mkScanner (mkReader (ws ++ rest) (Some w)) w (indents s)
                          (toks s) None) rest Hws Hrest eq_refl)
      by (simpl in Hn; lia).
    by rewrite <- app_assoc.
Qed.

Lemma newlineSpaces_run nls : forall n b s rest,
  Forall (fun c => is_newline c = true) nls -> head_not is_newline rest ->
  unread s = nls ++ rest -> (length nls < n)%nat ->
  newlineSpaces_loop n b s =
    (b || bool_decide (nls <> []), (stop_state s rest).1,
     (stop_state s rest).2).
Proof.
  induction nls as [|w nls IH]; intros n b s rest Hws Hrest Hu Hn;
    (destruct n as [|n]; [simpl in Hn; lia|]); simpl in Hu |- *.
  - rewrite orb_false_r. destruct rest as [|c p]; simpl.
    + by rewrite (next_end s Hu).
    + destruct (valid_rune c) eqn:Hv; simpl.
      * rewrite (next_ok s c p Hu Hv). simpl.
        simpl in Hrest. unfold is_newline in Hrest. by rewrite Hrest.
      * by rewrite (next_bad s c p Hu Hv).
  - apply Forall_cons in Hws as [Hw Hws].
    rewrite (next_ok s w (nls ++ rest) Hu (newline_valid w Hw)). simpl.
    unfold is_newline in Hw. rewrite Hw.
    rewrite (IH n true
               (mkScanner (mkReader (nls ++ rest) (Some w)) w (indents s)
                          (toks s) None) rest Hws Hrest eq_refl)
      by (simpl in Hn; lia).
    by rewrite orb_true_r.
Qed.

Lemma inline_run line : forall n rs s rest,
  Forall line_char line -> head_not (fun c => negb (is_newline c)) rest ->
  unread s = line ++ rest -> (length line < n)%nat ->
  inline_loop n rs s = (rs ++ line, (stop_state s rest).2).
Proof.
  induction line as [|w line IH]; intros n rs s rest Hws Hrest Hu Hn;
    (destruct n as [|n]; [simpl in Hn; lia|]); rewrite inline_loop_S;
    simpl in Hu.
  - rewrite app_nil_r. destruct rest as [|c p]; simpl.
    + by rewrite (next_end s Hu).
    + destruct (valid_rune c) eqn:Hv; simpl.
      * rewrite (next_ok s c p Hu Hv). simpl.
        simpl in Hrest. apply negb_false_iff in Hrest.
        unfold is_newline in Hrest. by rewrite Hrest.
      * by rewrite (next_bad s c p Hu Hv).
  - apply Forall_cons in Hws as [[Hv Hw] Hws].
    rewrite (next_ok s w (line ++ rest) Hu Hv). simpl.
    unfold is_newline in Hw. rewrite Hw.
    rewrite (IH n (rs ++ [w])
               (mkScanner (mkReader (line ++ rest) (Some w)) w (indents s)
                          (toks s) None) rest Hws Hrest eq_refl)
      by (simpl in Hn; lia).
    by rewrite <- app_assoc.
Qed.

(** The line breaks a list starts with. *)
Lemma span_newline (l : list rune) :
  exists nls rest, l = nls ++ rest /\
    Forall (fun c => is_newline c = true) nls /\ head_not is_newline rest.
Proof.
  induction l as [|c l (nls & rest & -> & Hn & Hr)]; [by exists [], []|].
  destruct (is_newline c) eqn:Hc.
  - exists (c :: nls), rest. split; [done|]. split; [by constructor|done].
  - by exists [], (c :: nls ++ rest).
Qed.

Lemma newline_not_space_tab c : is_newline c = true -> is_space_tab c = false.
Proof.
  unfold is_newline, is_space_tab, r_cr, r_lf, r_space, r_tab. intros H.
  apply orb_true_iff in H as [H|H]; apply Z.eqb_eq in H; subst; done.
Qed.

Lemma scanIndent_loop_same_input n m s s2 :
  unread s = unread s2 -> indents s = indents s2 -> toks s = toks s2 ->
  (length (unread s) < n)%nat -> (length (unread s) < m)%nat ->
  scanIndent_loop n s = scanIndent_loop m s2.
Proof.
  intros Hu Hi Ht Hn Hm.
  rewrite (scanIndent_loop_fuel n m s Hn Hm).
  destruct m as [|m]; [lia|]. simpl.
  assert (indentSpaces s = indentSpaces s2) as ->; [|done].
  unfold indentSpaces, fuel_of. fold (unread s) (unread s2). rewrite <- Hu.
  simpl. by rewrite (next_same_input s s2).
Qed.
(** ** Blank lines *)

(** One round of [scanIndent] on spaces and tabs followed by line breaks. *)
Lemma scanIndent_loop_newline n s ws nl nls rest :
  unread s = ws ++ nl :: nls ++ rest ->
  Forall (fun c => is_space_tab c = true) ws ->
  is_newline nl = true -> Forall (fun c => is_newline c = true) nls ->
  head_not is_newline rest ->
  (length (unread s) < S n)%nat ->
  scanIndent_loop (S n) s =
    match rest with
    | [] => (ws, false, at_end s)
    | c :: p =>
        if valid_rune c then scanIndent_loop n (at_rune s c p)
        else (ws, false, at_invalid s c p)
    end.
Proof.
  intros Hu Hws Hnl Hnls Hrest Hn.
  assert (Hv : valid_rune nl = true) by by apply newline_valid.
  simpl. unfold indentSpaces, fuel_of. fold (unread s).
  rewrite (indentSpaces_run ws _ [] s (nl :: nls ++ rest) Hws
             (newline_not_space_tab nl Hnl) Hu)
    by (rewrite Hu, length_app; simpl; lia).
  simpl. rewrite Hv. simpl.
  unfold newlineSpaces, fuel_of.
  rewrite (newlineSpaces_run (nl :: nls) _ false
             (at_rune s nl (nls ++ rest)) rest
             (Forall_cons_2 _ _ _ Hnl Hnls) Hrest eq_refl)
    by (simpl; rewrite ?length_app; lia).
  simpl. destruct rest as [|c p]; [done|]. simpl.
  by destruct (valid_rune c).
Qed.

Lemma scanIndent_loop_blank n m s s2 ws nl rest :
  indents s2 = indents s -> toks s2 = toks s ->
  unread s = ws ++ nl :: rest -> unread s2 = rest ->
  Forall (fun c => is_space_tab c = true) ws -> is_newline nl = true ->
  (length (unread s) < n)%nat -> (length (unread s2) < m)%nat ->
  exists i i2 ok s',
    scanIndent_loop n s = (i, ok, s') /\
    scanIndent_loop m s2 = (i2, ok, s') /\ (ok = true -> i = i2).
Proof.
  intros Hi Ht Hu Hu2 Hws Hnl Hn Hm.
  destruct (span_newline rest) as (nls & rest1 & -> & Hnls & Hr1).
  destruct n as [|n]; [lia|].
  rewrite (scanIndent_loop_newline n s ws nl nls rest1) by done.
  assert (Hlen : length (unread s)
                 = (length ws + S (length nls + length rest1))%nat)
    by (rewrite Hu, length_app; simpl; by rewrite length_app).
  assert (Hlen2 : length (unread s2) = (length nls + length rest1)%nat)
    by (by rewrite Hu2, length_app).
  assert (Hend : at_end s2 = at_end s) by (unfold at_end; congruence).
  assert (Hinv : forall c p, at_invalid s2 c p = at_invalid s c p)
    by (intros; unfold at_invalid; congruence).
  assert (Hat : forall c p, at_rune s2 c p = at_rune s c p)
    by (intros; unfold at_rune; congruence).
  destruct nls as [|nl' nls].
  - (* the line break is followed by something else *)
    simpl in Hu2. destruct rest1 as [|c p].
    + destruct m as [|m]; [lia|]. simpl.
      unfold indentSpaces, fuel_of. fold (unread s2).
      rewrite (indentSpaces_run [] _ [] s2 [] ltac:(done) I Hu2)
        by (simpl; lia).
      simpl. rewrite Hend. by eexists _, _, _, _.
    + destruct (valid_rune c) eqn:Hv.
      * rewrite (scanIndent_loop_same_input m n s2 (at_rune s c p));
          try done; [|simpl in *; lia..].
        destruct (scanIndent_loop n (at_rune s c p)) as [[i ok] s'].
        by exists i, i, ok, s'.
      * destruct m as [|m]; [lia|]. simpl.
        unfold indentSpaces, fuel_of. fold (unread s2).
        assert (Hst : is_space_tab c = false).
        { destruct (is_space_tab c) eqn:E; [|done].
          apply space_tab_valid in E. unfold valid in E. congruence. }
        rewrite (indentSpaces_run [] _ [] s2 (c :: p) ltac:(done) Hst Hu2)
          by (simpl; lia).
        simpl. rewrite Hv. simpl. rewrite Hinv. by eexists _, _, _, _.
  - (* more line breaks follow *)
    apply Forall_cons in Hnls as [Hnl' Hnls].
    destruct m as [|m]; [lia|].
    rewrite (scanIndent_loop_newline m s2 [] nl' nls rest1) by done.
    destruct rest1 as [|c p].
    + rewrite Hend. by eexists _, _, _, _.
    + destruct (valid_rune c) eqn:Hv.
      * rewrite Hat.
        rewrite (scanIndent_loop_fuel m n (at_rune s c p))
          by (simpl in *; lia).
        destruct (scanIndent_loop n (at_rune s c p)) as [[i ok] s'].
        by exists i, i, ok, s'.
      * rewrite Hinv. by eexists _, _, _, _.
Qed.

(** X5. Blank lines are invisible.  When what is left of the source starts
    with a line of spaces and tabs only (or no rune at all) and its line
    break, a pass of [scanLine] does what it does on the source without
    that line: the same tokens, the same stack, the same state.  So a scan
    of a source and a scan of the source behind a leading blank line hand
    out the same tokens. *)
Theorem blank_line_skipped (s : Scanner) (ws : list rune) (nl : rune)
    (rest : list rune) (fuel : nat) :
  unread s = ws ++ nl :: rest ->
  Forall (fun c => is_space_tab c = true) ws ->
  is_newline nl = true ->
  scanLine s = scanLine (set_r s (mkReader rest None)) /\
  scanAll fuel (NewScanner (ws ++ nl :: rest)) = scanAll fuel (NewScanner rest).
Proof.
  intros Hu Hws Hnl.
  assert (Hline : forall s0, unread s0 = ws ++ nl :: rest ->
            scanLine s0 = scanLine (set_r s0 (mkReader rest None))).
  { intros s0 Hu0. unfold scanLine, scanIndent.
    destruct (scanIndent_loop_blank (fuel_of s0)
                (fuel_of (set_r s0 (mkReader rest None))) s0
                (set_r s0 (mkReader rest None)) ws nl rest)
      as (i & i2 & ok & s' & -> & -> & Hok); try done;
      [unfold fuel_of, unread; lia..|].
    destruct ok; [|done]. by rewrite (Hok eq_refl). }
  split; [by apply Hline|].
  destruct fuel as [|fuel]; [done|]. simpl.
  assert (Scan (NewScanner (ws ++ nl :: rest)) = Scan (NewScanner rest)) as ->;
    [|done].
  unfold Scan. simpl.
  by rewrite (Hline (set_toks (NewScanner (ws ++ nl :: rest)) []) eq_refl).
Qed.

Lemma blank_line_skipped_witness :
  let s := mkScanner (mkReader [32; 9; 13; 10; 32; 98] None) 97
             [ [] ] [] None in
  scanLine s = scanLine (set_r s (mkReader [10; 32; 98] None)) /\
  scanLine s = Some (mkScanner (mkReader [] None) 0 [ []; [32] ]
                       [tok Indent; mkToken LineString [98]] (Some io_EOF)).
Proof.
  intros s.
  destruct (blank_line_skipped s [32; 9] 13 [10; 32; 98] 0) as [H _].
  - reflexivity.
  - by repeat constructor.
  - reflexivity.
  - split; [exact H|reflexivity].
Defined.
(** ** A line that starts at the first column *)

Lemma scanIndent_at_content s c rest :
  unread s = c :: rest -> valid c ->
  is_space_tab c = false -> is_newline c = false ->
  scanIndent s = ([], true, at_rune s c rest).
Proof.
  intros Hu Hv Hst Hnl. unfold scanIndent, fuel_of. simpl.
  unfold indentSpaces, fuel_of. fold (unread s).
  rewrite (indentSpaces_run [] _ [] s (c :: rest) ltac:(done) Hst Hu)
    by (simpl; lia).
  simpl. rewrite Hv. simpl.
  unfold newlineSpaces, fuel_of.
  rewrite (newlineSpaces_run [] _ false (at_rune s c rest) (c :: rest)
             ltac:(done) Hnl eq_refl) by (simpl; lia).
  simpl. rewrite Hv. done.
Qed.

Lemma chain_longer l : forall a i e,
  chain (a :: l) -> l !! i = Some e -> (length a < length e)%nat.
Proof.
  induction l as [|b l IH]; intros a i e [Hab Hc] Hl; [done|].
  destruct Hab as (t & Ht & ->).
  assert (Hlt : (length a < length (a ++ t))%nat)
    by (rewrite length_app; destruct t; [done|simpl; lia]).
  destruct i as [|i]; simpl in Hl.
  - by injection Hl as <-.
  - specialize (IH _ _ _ Hc Hl). lia.
Qed.

Lemma stack_sorted_nonempty ind i e :
  stack_sorted ind -> ind !! i = Some e -> (1 <= i)%nat -> e <> [].
Proof.
  intros [[rest ->] Hc] Hl Hi. destruct i as [|i]; [lia|]. simpl in Hl.
  intros ->. apply (chain_longer _ _ _ _ Hc) in Hl. simpl in Hl. lia.
Qed.

(** On a sorted stack deeper than one entry, the empty indentation is found
    at the bottom only. *)
Lemma calcIndent_empty s :
  stack_sorted (indents s) -> (1 < length (indents s))%nat ->
  calcIndent s [] = Some (- Z.of_nat (length (indents s) - 1), true).
Proof.
  intros Hs Hlen.
  assert (Hne : indents s <> []) by (destruct (indents s); [simpl in Hlen; lia|done]).
  destruct (calcIndent_spec s [] Hne) as (top & Htop & ->).
  rewrite last_lookup in Htop.
  assert (Htop' : top <> []).
  { eapply stack_sorted_nonempty; [done..|]. simpl. lia. }
  destruct top as [|x top]; [done|]. simpl. f_equal.
  apply calcIndent_loop_found.
  - lia.
  - lia.
  - unfold below_top. destruct Hs as [[rest Hr] _].
    replace (length (indents s) - (length (indents s) - 1) - 1)%nat
      with 0%nat by lia.
    by rewrite Hr.
  - intros j' Hj' Hb. unfold below_top in Hb.
    eapply (stack_sorted_nonempty _ _ _ Hs Hb); [lia|done].
Qed.

Lemma scanLine_column0 s c rest :
  stack_sorted (indents s) -> (1 < length (indents s))%nat ->
  unread s = c :: rest -> valid c ->
  is_space_tab c = false -> is_newline c = false ->
  scanLine s =
    Some (addToks (length (indents s) - 1) (tok Unindent)
            (set_indents (at_rune s c rest) [ [] ])).
Proof.
  intros Hs Hlen Hu Hv Hst Hnl. unfold scanLine.
  rewrite (scanIndent_at_content s c rest Hu Hv Hst Hnl). simpl.
  rewrite (calcIndent_empty (at_rune s c rest) Hs Hlen). simpl.
  set (k := (length (indents s) - 1)%nat).
  assert ((- Z.of_nat k =? 0) = false) as -> by lia.
  assert ((- Z.of_nat k =? 1) = false) as -> by lia.
  assert ((1 <? - Z.of_nat k) = false) as -> by lia.
  assert (Z.to_nat (- - Z.of_nat k) = k) as -> by lia.
  assert ((length (indents s) <? k)%nat = false) as ->
    by (apply Nat.ltb_ge; lia).
  do 3 f_equal. destruct Hs as [[r0 Hr] _]. rewrite Hr. simpl.
  replace (S (length r0) - k)%nat with 1%nat; [done|].
  subst k. rewrite Hr. simpl. lia.
Qed.

(** X6. A line that starts at the first column closes every open level in
    one pass.  When the stack is sorted and deeper than one entry and the
    next rune is the first rune of a line's text, [scanLine] reads nothing
    past that rune, empties the stack down to its bottom entry and queues
    one [Unindent] token for each entry it removes. *)
Theorem unindented_line_closes_all (s : Scanner) (c : rune)
    (rest : list rune) :
  stack_sorted (indents s) -> (1 < length (indents s))%nat ->
  unread s = c :: rest -> valid c ->
  is_space_tab c = false -> is_newline c = false ->
  exists s', scanLine s = Some s' /\
    indents s' = [ [] ] /\
    toks s' = toks s ++ replicate (length (indents s) - 1) (tok Unindent) /\
    unread s' = c :: rest /\ err s' = None.
Proof.
  intros Hs Hlen Hu Hv Hst Hnl.
  rewrite (scanLine_column0 s c rest Hs Hlen Hu Hv Hst Hnl).
  eexists. split; [done|].
  destruct (addToks_spec (length (indents s) - 1) (tok Unindent)
              (set_indents (at_rune s c rest) [ [] ]))
    as (Ht & Hi & Hr & He & _).
  rewrite Ht, Hi, He. unfold unread. rewrite Hr. done.
Qed.

Lemma unindented_line_closes_all_witness :
  let s := mkScanner (mkReader [100; 10] None) 0
             [ []; [32]; [32; 9] ] [] None in
  exists s', scanLine s = Some s' /\ indents s' = [ [] ] /\
    toks s' = [tok Unindent; tok Unindent] /\ unread s' = [100; 10].
Proof.
  intros s.
  destruct (unindented_line_closes_all s 100 [10])
    as (s' & Hl & Hi & Ht & Hu & _).
  - split; [by eexists|]. simpl.
    split; [by exists [32]|]. split; [by exists [9]|done].
  - simpl. lia.
  - reflexivity.
  - reflexivity.
  - reflexivity.
  - reflexivity.
  - exists s'. split; [exact Hl|]. split; [exact Hi|].
    split; [exact Ht|exact Hu].
Defined.

(** X7. A pass that closes some levels but not all is followed by a pass
    that closes all the others.  The pass that pops the stack does not
    read the text of its line, so the next pass of [scanLine] finds that
    text at the first column: it pops every level that is left and queues
    one [Unindent] token for each, without reading anything.  The text of a
    line that closes a level is therefore always handed out at depth 0. *)
Theorem dedent_cascades (s s1 : Scanner) :
  stack_sorted (indents s) ->
  scanLine s = Some s1 ->
  (1 < length (indents s1) < length (indents s))%nat ->
  exists s2, scanLine s1 = Some s2 /\
    indents s2 = [ [] ] /\
    toks s2 = toks s1 ++ replicate (length (indents s1) - 1) (tok Unindent) /\
    unread s2 = unread s1 /\ err s2 = None.
Proof.
  intros Hs Hl Hlen.
  destruct (scanLine_detail s) as (s1' & Hl' & Hd).
  { destruct Hs as [[rest ->] _]. done. }
  rewrite Hl in Hl'. injection Hl' as <-.
  assert (Hs1 : stack_sorted (indents s1)) by by eapply line_detail_sorted.
  destruct Hd as [[Hi _] _|t Hi _ _ _|top indent t _ _ Hi _ _ _|k Hk Hi Ht Hat].
  - rewrite Hi in Hlen. lia.
  - rewrite Hi in Hlen. lia.
  - rewrite Hi, length_app in Hlen. simpl in Hlen. lia.
  - destruct Hat as (He & c & rest & Hu & Hc & Hv & Hst & Hnl).
    rewrite (scanLine_column0 s1 c rest Hs1 (proj1 Hlen) Hu Hv Hst Hnl).
    eexists. split; [done|].
    destruct (addToks_spec (length (indents s1) - 1) (tok Unindent)
                (set_indents (at_rune s1 c rest) [ [] ]))
      as (Ht' & Hi' & Hr' & He' & _).
    rewrite Ht', Hi', He'. unfold unread in *. rewrite Hr', Hu. done.
Qed.

Lemma dedent_cascades_witness :
  let s := mkScanner (mkReader [10; 32; 100] None) 0
             [ []; [32]; [32; 32]; [32; 32; 32] ] [] None in
  exists s1 s2, scanLine s = Some s1 /\ scanLine s1 = Some s2 /\
    indents s1 = [ []; [32] ] /\ toks s1 = [tok Unindent; tok Unindent] /\
    indents s2 = [ [] ] /\
    toks s2 = [tok Unindent; tok Unindent; tok Unindent] /\
    unread s2 = [100].
Proof.
  intros s.
  destruct (scanLine s) as [s1|] eqn:Hl; [|by vm_compute in Hl].
  assert (E : s1 = mkScanner (mkReader [100] None) 100 [ []; [32] ]
                     [tok Unindent; tok Unindent] None).
  { vm_compute in Hl. by injection Hl as <-. }
  destruct (dedent_cascades s s1) as (s2 & Hl2 & Hi2 & Ht2 & Hu2 & _).
  - split; [by eexists|]. simpl.
    split; [by exists [32]|]. split; [by exists [32]|].
    split; [by exists [32]|done].
  - exact Hl.
  - rewrite E. simpl. lia.
  - exists s1, s2. split; [reflexivity|]. split; [exact Hl2|].
    rewrite Hi2, Ht2, Hu2, E. done.
Defined.
(** ** A source without indentation *)

Lemma scanIndent_skip_newlines s nls c p :
  unread s = nls ++ c :: p -> Forall (fun c => is_newline c = true) nls ->
  valid c -> is_space_tab c = false -> is_newline c = false ->
  scanIndent s = ([], true, at_rune s c p).
Proof.
  intros Hu Hnls Hv Hst Hnl. destruct nls as [|nl nls].
  - by apply scanIndent_at_content.
  - apply Forall_cons in Hnls as [Hn Hnls].
    unfold scanIndent, fuel_of. fold (unread s).
    rewrite (scanIndent_loop_newline _ s [] nl nls (c :: p) Hu
               ltac:(done) Hn Hnls Hnl) by lia.
    rewrite Hv.
    rewrite (scanIndent_loop_fuel _ (fuel_of (at_rune s c p)) (at_rune s c p)).
    + by apply (scanIndent_at_content (at_rune s c p) c p).
    + rewrite Hu. simpl. rewrite length_app. simpl. lia.
    + unfold fuel_of, unread. lia.
Qed.

Lemma scanIndent_only_newlines s nls :
  unread s = nls -> Forall (fun c => is_newline c = true) nls ->
  exists i, scanIndent s = (i, false, at_end s).
Proof.
  intros Hu Hnls. destruct nls as [|nl nls].
  - unfold scanIndent, fuel_of. simpl.
    unfold indentSpaces, fuel_of. fold (unread s).
    rewrite (indentSpaces_run [] _ [] s [] ltac:(done) I Hu) by (simpl; lia).
    by eexists.
  - apply Forall_cons in Hnls as [Hn Hnls].
    unfold scanIndent, fuel_of. fold (unread s).
    rewrite (scanIndent_loop_newline _ s [] nl nls []);
      [by eexists|by rewrite app_nil_r|done|done|done|done|lia].
Qed.

(** The pass on the text of a line at the first column, with the stack at
    its bottom. *)
Lemma scanLine_flat_line s nls l rest :
  indents s = [ [] ] ->
  unread s = nls ++ l ++ rest -> Forall (fun c => is_newline c = true) nls ->
  content_line l -> head_not (fun c => negb (is_newline c)) rest ->
  scanLine s =
    Some (addTok (stop_state s rest).2 (line_token l)).
Proof.
  intros Hi Hu Hnls [Hl (c & body & -> & Hst)] Hrest.
  assert (Hc := Hl). apply Forall_cons in Hc as [[Hv Hnl] _].
  unfold scanLine.
  rewrite (scanIndent_skip_newlines s nls c (body ++ rest) Hu Hnls Hv Hst Hnl).
  simpl. unfold calcIndent. simpl. rewrite Hi. simpl.
  unfold afterIndent, inline, fuel_of.
  rewrite (inline_run (c :: body) _ [] (at_rune s c (body ++ rest)) rest
             Hl Hrest eq_refl) by (simpl; rewrite length_app; lia).
  simpl. by destruct (c =? r_hash).
Qed.

Lemma flat_source_head sep ls :
  Forall (fun c => is_newline c = true) sep -> (ls <> [] -> sep <> []) ->
  flat_ok ls ->
  head_not (fun c => negb (is_newline c)) (sep ++ flat_source ls).
Proof.
  intros Hsep Hne Hok. destruct sep as [|nl sep].
  - destruct ls as [|[l' sep'] ls]; [done|]. by destruct Hne.
  - apply Forall_cons in Hsep as [Hn _]. simpl. by rewrite Hn.
Qed.

Lemma scanAll_flat fuel : forall s nls ls t0 ts s',
  toks s = [t0] -> err s = None -> indents s = [ [] ] ->
  unread s = nls ++ flat_source ls ->
  Forall (fun c => is_newline c = true) nls -> flat_ok ls ->
  scanAll fuel s = Some (ts, s') ->
  ts = map (fun x => line_token x.1) ls ++ [tok EOF] /\ Err s' = None.
Proof.
  induction fuel as [|fuel IH]; intros s nls ls t0 ts s' Ht He Hi Hu Hnls Hok
    Hrun; [done|].
  simpl in Hrun. unfold Scan in Hrun. rewrite Ht in Hrun. simpl in Hrun.
  rewrite He in Hrun. simpl in Hrun.
  destruct ls as [|[l sep] ls].
  - (* nothing but line breaks is left *)
    simpl in Hu. rewrite app_nil_r in Hu.
    unfold scanLine in Hrun.
    destruct (scanIndent_only_newlines (set_toks s []) nls Hu Hnls) as [i Hsi].
    rewrite Hsi in Hrun. simpl in Hrun.
    unfold handleEOF in Hrun. simpl in Hrun. rewrite Hi in Hrun.
    simpl in Hrun.
    destruct (scanAll fuel _) as [[ts' s'']|] eqn:Hrun'; [|done].
    simpl in Hrun. injection Hrun as <- <-.
    apply scanAll_stopped in Hrun' as [-> ->]; done.
  - destruct Hok as (Hl & Hsep & Hne & Hok). simpl in Hu.
    assert (Hrest := flat_source_head sep ls Hsep Hne Hok).
    rewrite (scanLine_flat_line (set_toks s []) nls l (sep ++ flat_source ls))
      in Hrun by done.
    simpl in Hrun.
    destruct (sep ++ flat_source ls) as [|c p] eqn:Hsl.
    + (* the last line, with no line break behind it *)
      apply app_eq_nil in Hsl as [-> Hfl].
      assert (ls = []) as ->.
      { destruct ls as [|[l' sep'] ls]; [done|]. by destruct Hne. }
      simpl in Hrun. unfold handleEOF in Hrun. simpl in Hrun.
      rewrite Hi in Hrun. simpl in Hrun.
      destruct (scanAll fuel _) as [[ts' s'']|] eqn:Hrun'; [|done].
      simpl in Hrun. injection Hrun as <- <-.
      apply scanAll_stopped in Hrun' as [-> ->]; done.
    + simpl in Hrest. apply negb_false_iff in Hrest.
      assert (Hv : valid_rune c = true) by by apply newline_valid.
      simpl in Hrun. rewrite Hv in Hrun. simpl in Hrun.
      unfold handleEOF in Hrun. simpl in Hrun.
      destruct (scanAll fuel _) as [[ts' s'']|] eqn:Hrun'; [|done].
      simpl in Hrun. injection Hrun as <- <-.
      destruct (IH (addTok (at_rune (set_toks s []) c p) (line_token l))
                  sep ls (line_token l) ts' s'' eq_refl eq_refl Hi
                  (eq_sym Hsl) Hsep Hok Hrun') as [-> HE].
      done.
Qed.

(** X8. A source without indentation is scanned line by line.  Let the
    source be lines, each of valid runes that are no line break, starting
    with no space or tab and followed by line breaks (CR, LF; at least one
    between two lines).  Then the scan ends without error, and the tokens
    handed out are one token for each line, in order, followed by [EOF]:
    an [Annotation] holding the text behind the ['#'] for a line that
    starts with ['#'], a [LineString] holding the whole text of the line
    otherwise. *)
Theorem flat_source_tokens (ls : list (list rune * list rune)) :
  flat_ok ls ->
  exists s',
    scanAll (S (weight (NewScanner (flat_source ls))))
            (NewScanner (flat_source ls))
    = Some (map (fun x => line_token x.1) ls ++ [tok EOF], s') /\
    Err s' = None.
Proof.
  intros Hok.
  destruct (scanAll_total (flat_source ls)) as (ts & s' & Hrun).
  destruct (scanAll_flat _ (NewScanner (flat_source ls)) [] ls (tok _SOF) ts s'
              eq_refl eq_refl eq_refl eq_refl ltac:(done) Hok Hrun)
    as [-> He].
  by exists s'.
Qed.

Lemma flat_source_tokens_witness :
  let ls := [([35; 32; 97], [13; 10]); ([98; 32], [10; 10]); ([99], [])] in
  exists s',
    scanAll (S (weight (NewScanner (flat_source ls))))
            (NewScanner (flat_source ls))
    = Some ([mkToken Annotation [32; 97]; mkToken LineString [98; 32];
             mkToken LineString [99]; tok EOF], s') /\
    Err s' = None.
Proof.
  intros ls. apply (flat_source_tokens ls).
  assert (Hline : Forall line_char [35; 32; 97] /\
                  Forall line_char [98; 32] /\ Forall line_char [99]).
  { repeat split;
      repeat (apply Forall_cons; split; [split; reflexivity|]);
      constructor. }
  destruct Hline as (Hl1 & Hl2 & Hl3).
  assert (Hnl : Forall (fun c => is_newline c = true) [13; 10]
                /\ Forall (fun c => is_newline c = true) [10; 10])
    by (split; by repeat constructor).
  destruct Hnl as [Hnl1 Hnl2].
  split; [split; [exact Hl1|by exists 35, [32; 97]]|].
  split; [exact Hnl1|]. split; [done|].
  split; [split; [exact Hl2|by exists 98, [32]]|].
  split; [exact Hnl2|]. split; [done|].
  split; [split; [exact Hl3|by exists 99, []]|].
  split; [constructor|]. split; [done|exact I].
Defined.
(** ** What follows an [Indent] token *)

Lemma indent_then_content_app l1 : forall l2,
  indent_then_content l1 -> indent_then_content l2 ->
  (forall t, last l1 = Some t -> tokType t <> Indent) ->
  indent_then_content (l1 ++ l2).
Proof.
  induction l1 as [|t l1 IH]; intros l2 H1 H2 Hlast; [done|].
  destruct H1 as [Ht H1]. split.
  - intros Hi. specialize (Ht Hi). destruct l1 as [|t' l1]; [done|]. done.
  - apply IH; [done..|]. intros t' Hl. apply Hlast.
    destruct l1; [done|]. done.
Qed.

Lemma indent_then_content_unindents k l :
  indent_then_content l ->
  indent_then_content (replicate k (tok Unindent) ++ l).
Proof. intros Hl. induction k as [|k IH]; [done|]. by split. Qed.

(** The tokens of one pass, those [handleEOF] adds included. *)
Lemma pass_indent_then_content s s1 s2 :
  toks s = [] -> stack_ok s1 ->
  line_detail s s1 -> handleEOF s1 = Some s2 ->
  indent_then_content (toks s2).
Proof.
  intros Ht Hs1 Hl Hh.
  assert (Hline : indent_then_content (toks s1) /\
                  forall t, last (toks s1) = Some t -> tokType t <> Indent).
  { destruct Hl as [[_ Ht1] _|t _ Ht1 Hct _|top indent t _ _ _ Ht1 Hct _
                   |k _ _ Ht1 _]; rewrite Ht1, Ht; simpl.
    - done.
    - split; [split; [|done]|].
      + intros Hi. destruct Hct; congruence.
      + intros t' [= <-]. destruct Hct; congruence.
    - split; [split; [done|split; [|done]]|].
      + intros Hi. destruct Hct; congruence.
      + intros t' [= <-]. destruct Hct; congruence.
    - split.
      + rewrite <- (app_nil_r (replicate k _)).
        by apply indent_then_content_unindents.
      + intros t' Hl. destruct k as [|k]; [done|].
        rewrite replicate_S_end, last_snoc in Hl. by injection Hl as <-. }
  destruct Hline as [Hitc Hlast].
  destruct (decide (err s1 = Some io_EOF)) as [He|He].
  - destruct (handleEOF_eof s1 He Hs1) as (s2' & Hh' & _ & Ht2 & _).
    rewrite Hh in Hh'. injection Hh' as <-. rewrite Ht2.
    apply indent_then_content_app; [done| |done].
    by apply indent_then_content_unindents.
  - rewrite handleEOF_other in Hh by done. by injection Hh as <-.
Qed.

Lemma scanAll_indent_then_content fuel : forall s ts s',
  stack_ok s -> toks s <> [] -> indent_then_content (tail (toks s)) ->
  scanAll fuel s = Some (ts, s') ->
  (exists rest, ts = tail (toks s) ++ rest) /\ indent_then_content ts.
Proof.
  induction fuel as [|fuel IH]; intros s ts s' Hs Ht Hq Hrun; [done|].
  simpl in Hrun.
  assert (Hstep : forall s1 t1 q1 ts1,
    stack_ok s1 -> toks s1 = t1 :: q1 -> indent_then_content (t1 :: q1) ->
    scanAll fuel s1 = Some (ts1, s') ->
    (exists rest, t1 :: ts1 = (t1 :: q1) ++ rest) /\
    indent_then_content (t1 :: ts1)).
  { intros s1 t1 q1 ts1 Hs1 Ht1 [Hi1 Hq1] Hrun1.
    destruct (IH s1 ts1 s' Hs1 ltac:(by rewrite Ht1)
                ltac:(by rewrite Ht1) Hrun1) as [[rest Hrest] Hitc].
    rewrite Ht1 in Hrest. simpl in Hrest. split.
    - exists rest. by rewrite Hrest.
    - split; [|done]. intros Hi. specialize (Hi1 Hi).
      destruct q1 as [|t' q1]; [done|]. by rewrite Hrest. }
  destruct (toks s) as [|t0 [|t1 q]] eqn:Hts; [done|..].
  - destruct (err s) as [e|] eqn:He.
    + rewrite (Scan_stopped s t0) in Hrun by (done || congruence).
      injection Hrun as <- _. split; [by exists []|done].
    + unfold Scan in Hrun. rewrite Hts in Hrun. simpl in Hrun.
      rewrite He in Hrun. simpl in Hrun.
      destruct (scanLine_detail (set_toks s [])) as (s1 & Hsl & Hl).
      { by apply stack_ok_ne. }
      rewrite Hsl in Hrun. simpl in Hrun.
      assert (Hs1 : stack_ok s1).
      { destruct (scanLine_spec (set_toks s [])) as (s1' & Hsl' & Hl').
        { by apply stack_ok_ne. }
        rewrite Hsl in Hsl'. injection Hsl' as <-.
        by eapply (line_result_stack (set_toks s [])). }
      destruct (handleEOF s1) as [s2|] eqn:Hh; [|done]. simpl in Hrun.
      assert (Hitc := pass_indent_then_content (set_toks s []) s1 s2
                        eq_refl Hs1 Hl Hh).
      assert (Hs2 : stack_ok s2).
      { destruct (decide (err s1 = Some io_EOF)) as [He1|He1].
        - destruct (handleEOF_eof s1 He1 Hs1) as (s2' & Hh' & Hi2 & _).
          rewrite Hh in Hh'. injection Hh' as <-. by exists [].
        - rewrite handleEOF_other in Hh by done. by injection Hh as <-. }
      destruct (toks s2) as [|t1 q1] eqn:Ht2; simpl in Hrun.
      * injection Hrun as <- _. split; [by exists []|done].
      * unfold Token_ in Hrun. rewrite Ht2 in Hrun. simpl in Hrun.
        destruct (scanAll fuel s2) as [[ts1 s'']|] eqn:Hrun1; [|done].
        simpl in Hrun. injection Hrun as <- <-.
        destruct (Hstep s2 t1 q1 ts1 Hs2 Ht2 Hitc Hrun1) as [_ Hres].
        split; [by eexists|done].
  - rewrite (Scan_dequeue s t0 t1 q Hts) in Hrun.
    unfold Token_ in Hrun. simpl in Hrun.
    destruct (scanAll fuel _) as [[ts1 s'']|] eqn:Hrun1; [|done].
    simpl in Hrun. injection Hrun as <- <-.
    by apply (Hstep (set_toks s (t1 :: q)) t1 q ts1).
Qed.

(** X9. In the tokens [Scan] hands out, for any source, every [Indent]
    token is directly followed by the [LineString] or [Annotation] token
    of the line that opens the level, also when the scan stops on an error
    inside that line. *)
Theorem indent_followed_by_line (input : list rune) (fuel : nat)
    (ts : list Token) (s' : Scanner) :
  scanAll fuel (NewScanner input) = Some (ts, s') ->
  indent_then_content ts.
Proof.
  intros Hrun.
  by destruct (scanAll_indent_then_content fuel (NewScanner input) ts s'
                 ltac:(by exists []) ltac:(done) I Hrun).
Qed.

Lemma indent_followed_by_line_witness :
  let input := [97; 10; 32; 98; 1; 99] in
  exists ts s',
    scanAll 20 (NewScanner input) = Some (ts, s') /\
    indent_then_content ts /\
    ts = [mkToken LineString [97]; tok Indent; mkToken LineString [98]] /\
    Err s' = Some errInvalidCodePoint.
Proof.
  intros input.
  destruct (scanAll 20 (NewScanner input)) as [[ts s']|] eqn:Hrun;
    [|by vm_compute in Hrun].
  exists ts, s'. split; [reflexivity|].
  split; [exact (indent_followed_by_line input 20 ts s' Hrun)|].
  vm_compute in Hrun. by injection Hrun as <- <-.
Defined.
(** ** An invalid rune inside the text of a line *)

Lemma inline_run_invalid line : forall n rs s c p,
  Forall line_char line -> valid_rune c = false ->
  unread s = line ++ c :: p -> (length line < n)%nat ->
  inline_loop n rs s = (rs ++ line, at_invalid s c p).
Proof.
  induction line as [|w line IH]; intros n rs s c p Hws Hc Hu Hn;
    (destruct n as [|n]; [simpl in Hn; lia|]); rewrite inline_loop_S;
    simpl in Hu.
  - rewrite app_nil_r. by rewrite (next_bad s c p Hu Hc).
  - apply Forall_cons in Hws as [[Hv Hw] Hws].
    rewrite (next_ok s w (line ++ c :: p) Hu Hv). simpl.
    unfold is_newline in Hw. rewrite Hw.
    rewrite (IH n (rs ++ [w])
               (mkScanner (mkReader (line ++ c :: p) (Some w)) w (indents s)
                          (toks s) None) c p Hws Hc eq_refl)
      by (simpl in Hn; lia).
    by rewrite <- app_assoc.
Qed.

(** C6. What the code does where the claim says that no further token is
    produced.  Let the source start with the text [line] of a line at the
    first column (valid runes that are no line break, the first of them no
    space and no tab), directly followed by a rune [c] that [next] refuses
    (a rune of 0x00-0x19 other than tab, CR and LF, or U+FFFD), and then
    by any runes [rest].  The first call of [Scan] reads [line] and [c]:
    [next] records [errInvalidCodePoint] on [c] and nothing of [rest] is
    read.  The same call still adds the token of the interrupted line
    ([LineString] with the text [line], or [Annotation] with the text
    behind the ['#']), returns [true], and [Token] hands that token out
    while [Err] already reports the error.  The loop of the consumer sees
    this one token; the next call of [Scan] returns [false]. *)
Theorem invalid_code_point_partial_token (line : list rune) (c : rune)
    (rest : list rune) (fuel : nat) :
  content_line line -> valid_rune c = false ->
  let input := line ++ c :: rest in
  let s1 := mkScanner (mkReader rest (Some c)) c [ [] ] [line_token line]
              (Some errInvalidCodePoint) in
  Scan (NewScanner input) = Some (true, s1) /\
  Token_ s1 = Some (line_token line) /\
  Err s1 = Some errInvalidCodePoint /\
  unread s1 = rest /\
  Scan s1 = Some (false, set_toks s1 []) /\
  scanAll (S (S fuel)) (NewScanner input) =
    Some ([line_token line], set_toks s1 []).
Proof.
  intros [Hl (c0 & body & -> & Hst)] Hc input s1.
  assert (Hc0 := Hl). apply Forall_cons in Hc0 as [[Hv Hnl] _].
  set (s0 := set_toks (NewScanner input) []).
  assert (Hline : scanLine s0 = Some s1).
  { unfold scanLine.
    rewrite (scanIndent_at_content s0 c0 (body ++ c :: rest) eq_refl Hv Hst
               Hnl).
    simpl. unfold calcIndent. simpl.
    unfold afterIndent, inline, fuel_of.
    rewrite (inline_run_invalid (c0 :: body) _ []
               (at_rune s0 c0 (body ++ c :: rest)) c rest Hl Hc eq_refl)
      by (simpl; rewrite length_app; simpl; lia).
    simpl. unfold s1. simpl. by destruct (c0 =? r_hash). }
  assert (Hscan : Scan (NewScanner input) = Some (true, s1)).
  { unfold Scan. simpl. fold s0. rewrite Hline. reflexivity. }
  assert (Hstop : Scan s1 = Some (false, set_toks s1 [])) by reflexivity.
  split; [exact Hscan|]. split; [reflexivity|].
  split; [reflexivity|]. split; [reflexivity|]. split; [exact Hstop|].
  change (scanAll (S (S fuel)) (NewScanner input))
    with (match Scan (NewScanner input) with
          | None => None
          | Some (false, s') => Some ([], s')
          | Some (true, s') =>
              t ← Token_ s'; '(ts, s'') ← scanAll (S fuel) s';
              Some (t :: ts, s'')
          end).
  rewrite Hscan.
  change (scanAll (S fuel) s1)
    with (match Scan s1 with
          | None => None
          | Some (false, s') => Some ([], s')
          | Some (true, s') =>
              t ← Token_ s'; '(ts, s'') ← scanAll fuel s';
              Some (t :: ts, s'')
          end).
  rewrite Hstop. reflexivity.
Qed.

Lemma invalid_code_point_partial_token_witness :
  let input := [97; 98; 1; 99] in
  let s1 := mkScanner (mkReader [99] (Some 1)) 1 [ [] ]
              [mkToken LineString [97; 98]] (Some errInvalidCodePoint) in
  Scan (NewScanner input) = Some (true, s1) /\
  Token_ s1 = Some (mkToken LineString [97; 98]) /\
  Err s1 = Some errInvalidCodePoint /\
  unread s1 = [99] /\
  Scan s1 = Some (false, set_toks s1 []) /\
  scanAll 2 (NewScanner input) =
    Some ([mkToken LineString [97; 98]], set_toks s1 []).
Proof.
  apply (invalid_code_point_partial_token [97; 98] 1 [99] 0).
  - split.
    + repeat (apply Forall_cons; split; [split; reflexivity|]). constructor.
    + by exists 97, [98].
  - reflexivity.
Defined.


End CoreFacts.
(* ===================================================================== *)
(** * The tree model: properties                                          *)
(* ===================================================================== *)

Module ModelFacts.
Import Model.

(** ** References to nothing *)

Lemma indirect_nil h fuel : indirect h fuel (VPtr None) = Ok (VPtr None).
Proof. by destruct fuel. Qed.

Lemma indirect_S h f a :
  indirect h (S f) (VPtr (Some a)) = v' ← of_option (h !! a); indirect h f v'.
Proof. done. Qed.

Lemma list_S_ptr h f t mk :
  list_ h (S f) (VPtr t) mk = v' ← indirect h f (VPtr t); list_ h f v' mk.
Proof. done. Qed.

Lemma node_S_slice h f v mk :
  (v = VSliceNil \/ exists es, v = VSlice es) ->
  node h (S f) v mk = '(l, mk) ← list_ h f v mk; Ok (alloc (mkNode "" NNil l) mk).
Proof. by intros [-> | [es ->]]. Qed.

(** [m.list] on a nil pointer calls itself on the same pointer: [indirect]
    hands a nil pointer back as it is. *)
Lemma list_nil_pointer h fuel : forall mk,
  list_ h fuel (VPtr None) mk = OutOfFuel.
Proof.
  induction fuel as [|f IH]; intros mk; [done|].
  simpl. rewrite indirect_nil. simpl. apply IH.
Qed.

(** Inside a value, a nil pointer becomes an empty leaf node: [nodeFromPtr]
    does not look at the target and registers nothing. *)
Lemma nodeFromPtr_nil h node fuel mk :
  nodeFromPtr h node fuel None mk =
  Ok (length (nodes mk),
      mkMaker (m mk) (serial mk) (nodes mk ++ [mkNode "" NNil None])).
Proof. done. Qed.

Lemma node_nil_pointer h fuel mk :
  node h (S fuel) (VPtr None) mk =
  Ok (length (nodes mk),
      mkMaker (m mk) (serial mk) (nodes mk ++ [mkNode "" NNil None])).
Proof. done. Qed.

Lemma New_nil_interface h fuel : New h fuel None = Ok (None, []).
Proof. done. Qed.

(** C9, at the input where the code leaves the claim.  [New] on a nil
    pointer does not return the empty leaf node: whatever the fuel, the
    model runs out of it, as [m.list] calls itself on the same nil pointer
    without an end.  (A nil pointer met inside a slice or a struct is an
    empty leaf node, [node_nil_pointer]; [New] on the nil interface gives
    the nil list, [New_nil_interface].) *)
Theorem New_nil_pointer_no_result (h : gmap Z value) (fuel : nat) :
  New h fuel (Some (VPtr None)) = OutOfFuel.
Proof. unfold New. by rewrite list_nil_pointer. Qed.

(** C3, at the input where the code leaves the claim.  A pointer to a nil
    pointer is a value without any cycle, and [New] does not end on it:
    [indirect] follows the pointer to the nil pointer, on which [m.list]
    calls itself without an end. *)
Theorem New_pointer_to_nil_no_result (fuel : nat) :
  New {[ 1 := VPtr None ]} fuel (Some (VPtr (Some 1))) = OutOfFuel.
Proof.
  unfold New. destruct fuel as [|[|f]]; [done..|].
  rewrite list_S_ptr, indirect_S, lookup_singleton_eq. simpl of_option.
  cbn [mbind result_bind]. rewrite indirect_nil.
  cbn [mbind result_bind]. by rewrite list_nil_pointer.
Qed.

(** ** Sharing in a record *)

(** C1, at the input where the code leaves the claim: the record
    [{A: &x, B: &x}] with [x] at address 100.  [New] gives the node of [x]
    the one label ["1"] and makes the node of [B] a leaf holding that label
    wrapped in an [IdentValue].  [Fill] into a new record of the same type
    (at address 1) then makes [A] point to a new cell holding [x], but [B]
    point to another new cell, holding 0: [ptrFromNode] does not see the
    label under the [IdentValue], and the scalar case of [fromNode] only
    prints it. *)
Theorem shared_field_not_restored (x : Z) :
  let h : gmap Z value := {[ 100 := VInt x ]} in
  let v := VStruct [("A", VPtr (Some 100)); ("B", VPtr (Some 100))] in
  let t := TStruct [("A", TPtr TInt); ("B", TPtr TInt)] in
  let l := Some [0; 1]%nat in
  let ns := [mkNode "1" (NIdent "A" (NInt x)) None;
             mkNode "" (NIdent "B" (NLabel "1")) None] in
  New h 10 (Some v) = Ok (l, ns) /\
  exists f,
    Fill ns 10 l (Some (TPtr t, VPtr (Some 1))) {[ 1 := zero t ]} 2 = Ok f /\
    mem f !! 1 = Some (VStruct [("A", VPtr (Some 2)); ("B", VPtr (Some 3))]) /\
    mem f !! 2 = Some (VInt x) /\
    mem f !! 3 = Some (VInt 0) /\
    out f = ["1"].
Proof.
  intros h v t l ns. split; [vm_compute; reflexivity|].
  eexists. split; [vm_compute; reflexivity|].
  repeat split; vm_compute; reflexivity.
Qed.
(** ** A true cycle *)

Lemma indirect_slice h fuel es : indirect h fuel (VSlice es) = Ok (VSlice es).
Proof. by destruct fuel. Qed.

(** The slice at address 100 whose one element points to the slice itself
    ([type T []*T; t := T{nil}; t[0] = &t]).  Nothing is registered before
    [m.node] returns, so the maker goes round the cycle until the fuel is
    used up, whatever the fuel. *)
Lemma cycle_no_result fuel : forall mk,
  m mk !! 100 = None ->
  let h : gmap Z value := {[ 100 := VSlice [VPtr (Some 100)] ]} in
  node h fuel (VPtr (Some 100)) mk = OutOfFuel /\
  node h fuel (VSlice [VPtr (Some 100)]) mk = OutOfFuel /\
  list_ h fuel (VSlice [VPtr (Some 100)]) mk = OutOfFuel /\
  list_ h fuel (VPtr (Some 100)) mk = OutOfFuel.
Proof.
  induction fuel as [|f IH]; intros mk Hm h; [done|].
  destruct (IH mk Hm) as (IH1 & IH2 & IH3 & IH4). fold h in IH1, IH2, IH3, IH4.
  assert (Hind : indirect h f (VPtr (Some 100)) = OutOfFuel \/
                 indirect h f (VPtr (Some 100)) = Ok (VSlice [VPtr (Some 100)])).
  { destruct f as [|f']; [by left|]. right.
    rewrite indirect_S. unfold h. rewrite lookup_singleton_eq.
    simpl of_option. cbn [mbind result_bind]. apply indirect_slice. }
  repeat split.
  - change (node h (S f) (VPtr (Some 100)) mk)
      with (nodeFromPtr h (node h f) f (Some 100) mk).
    unfold nodeFromPtr, label. rewrite Hm. cbn [mbind result_bind].
    destruct Hind as [-> | ->]; [done|]. cbn [mbind result_bind].
    by rewrite IH2.
  - rewrite node_S_slice by eauto. by rewrite IH3.
  - change (list_ h (S f) (VSlice [VPtr (Some 100)]) mk)
      with (listFromSlice (node h f) [VPtr (Some 100)] mk).
    unfold listFromSlice. cbn [listFromSlice_loop]. by rewrite IH1.
  - rewrite list_S_ptr. destruct Hind as [-> | ->]; [done|].
    cbn [mbind result_bind]. by rewrite IH3.
Qed.

Lemma New_cycle_no_result fuel :
  New {[ 100 := VSlice [VPtr (Some 100)] ]} fuel (Some (VPtr (Some 100)))
  = OutOfFuel.
Proof.
  unfold New.
  destruct (cycle_no_result fuel newMaker) as (_ & _ & _ & ->); done.
Qed.

(** [register] is reached only when [m.node] has returned: with fuel for
    the pointer but not for its target, nothing is registered. *)
Lemma nodeFromPtr_registers_after h nodeF fuel addr mk n mk' :
  m mk !! addr = None ->
  nodeFromPtr h nodeF fuel (Some addr) mk = Ok (n, mk') ->
  exists v mk1, indirect h fuel (VPtr (Some addr)) = Ok v /\
    nodeF v mk = Ok (n, mk1) /\ mk' = register addr n mk1.
Proof.
  intros Hm. unfold nodeFromPtr, label. rewrite Hm. cbn [mbind result_bind].
  destruct (indirect h fuel (VPtr (Some addr))) as [v| | |]; try done.
  cbn [mbind result_bind].
  destruct (nodeF v mk) as [[n1 mk1]| | |] eqn:Hn; try done.
  cbn [mbind result_bind]. intros [= <- <-]. by exists v, mk1.
Qed.
(** ** Filling scalars and records *)

(** C10. For a destination of kind [Int] or [String], [fromList] on a list
    without nodes (nil or empty) returns the error "List.fill: unsupported
    type", the one it returns for the kinds it does not handle; it does not
    succeed.  So does [Fill] when it is given a pointer to such a
    destination. *)
Theorem fromList_scalar_empty (nodes : list Node) (fuel : nat)
    (l : option (list nat)) (v : rvalue) (f : filler) :
  scalar_type (rv_type v) ->
  list_elems l = [] ->
  fromList nodes (S fuel) l v f = Error "List.fill: unsupported type" /\
  (forall v', rv_type v' = TOther ->
     fromList nodes (S fuel) l v' f = fromList nodes (S fuel) l v f) /\
  (forall a mem next,
     Fill nodes (S (S fuel)) l (Some (TPtr (rv_type v), VPtr (Some a)))
          mem next = Error "List.fill: unsupported type").
Proof.
  intros Ht Hl. repeat split.
  - simpl. rewrite Hl. by destruct Ht as [-> | ->].
  - intros v' Hv'. simpl. rewrite Hv', Hl. by destruct Ht as [-> | ->].
  - intros a mem next. unfold Fill.
    destruct Ht as [-> | ->]; simpl; by rewrite Hl.
Qed.

Lemma fromList_scalar_empty_witness :
  fromList [] 1 (Some []) (RLoc TInt false 1 []) (newFiller {[ 1 := VInt 7 ]} 2)
  = Error "List.fill: unsupported type".
Proof.
  destruct (fromList_scalar_empty [] 0 (Some []) (RLoc TInt false 1 [])
              (newFiller {[ 1 := VInt 7 ]} 2)) as [H _].
  - left. reflexivity.
  - reflexivity.
  - exact H.
Defined.

(** A label inside an [IdentValue].  When the destination is of kind [Int]
    or [String] and the value of the node is an [IdentValue] holding a
    [Label], [fromNode] assigns
    nothing: it prints the label and returns no error, the heap of the
    destination and the label map being as before; inside
    [structFromList] the loop goes on with the next child. *)
Theorem fromNode_label_into_scalar (nodes : list Node) (fuel : nat) (n : nat)
    (nd : Node) (name l : string) (v : rvalue) (f : filler) :
  nodes !! n = Some nd ->
  Value nd = NIdent name (NLabel l) ->
  scalar_type (rv_type v) ->
  fromNode nodes (S fuel) n v f = Ok (println l f) /\
  mem (println l f) = mem f /\ fm (println l f) = fm f /\
  rv_get (println l f) v = rv_get f v /\
  (forall fs rest vs,
     FieldByName fs name vs = Ok (Some v) ->
     structFromList nodes (fromNode nodes (S fuel)) fs (n :: rest) vs f =
     structFromList nodes (fromNode nodes (S fuel)) fs rest vs (println l f)).
Proof.
  intros Hn Hv Ht.
  assert (H : fromNode nodes (S fuel) n v f = Ok (println l f)).
  { simpl. destruct Ht as [-> | ->]; rewrite Hn; simpl;
      unfold fromNode_scalar; by rewrite Hv. }
  split; [done|]. split; [done|]. split; [done|]. split; [by destruct v|].
  intros fs rest vs Hf.
  cbn [structFromList]. rewrite Hn. cbn [of_option mbind result_bind].
  rewrite Hv, Hf. cbn [mbind result_bind]. by rewrite H.
Qed.

Lemma fromNode_label_into_scalar_witness :
  let nodes := [mkNode "" (NIdent "B" (NLabel "1")) None] in
  let f := newFiller {[ 1 := VInt 7 ]} 2 in
  fromNode nodes 1 0 (RLoc TInt false 1 []) f = Ok (println "1" f) /\
  mem (println "1" f) !! 1 = Some (VInt 7).
Proof.
  intros nodes f. split; [|reflexivity].
  destruct (fromNode_label_into_scalar nodes 0 0
              (mkNode "" (NIdent "B" (NLabel "1")) None) "B" "1"
              (RLoc TInt false 1 []) f) as [H _].
  - reflexivity.
  - reflexivity.
  - left. reflexivity.
  - exact H.
Defined.

(** A [Label] that is not inside an [IdentValue] is another matter: the
    [default] case hands it to [v.Set], which panics, a [Label] being
    assignable neither to [int] nor to [string]. *)
Lemma fromNode_bare_label_panics nodes fuel n nd l v f :
  nodes !! n = Some nd -> Value nd = NLabel l -> scalar_type (rv_type v) ->
  fromNode nodes (S fuel) n v f = Panic.
Proof.
  intros Hn Hv Ht. simpl.
  destruct Ht as [Ht | Ht]; rewrite Ht, Hn; simpl;
    unfold fromNode_scalar, set_interface; by rewrite Hv, Ht.
Qed.

(** C8. In [structFromList], a child whose [IdentValue] names no field of
    the destination, and a child whose value is no [IdentValue], are
    skipped: the loop goes on as if the child were not there.  A list of
    such children only fills nothing and returns no error: the heap of the
    destination is as before, every field keeping the value it had. *)
Theorem structFromList_drops (nodes : list Node)
    (fromNode : nat -> rvalue -> filler -> result filler)
    (fs : list (string * ty)) (v : rvalue) (f : filler) :
  (forall n nd rest,
     nodes !! n = Some nd -> unrouted fs nd ->
     structFromList nodes fromNode fs (n :: rest) v f =
     structFromList nodes fromNode fs rest v f) /\
  (forall l,
     Forall (fun n => exists nd, nodes !! n = Some nd /\ unrouted fs nd) l ->
     structFromList nodes fromNode fs l v f = Ok f /\
     forall fuel, rv_type v = TStruct fs ->
       fromList nodes (S fuel) (Some l) v f = Ok f).
Proof.
  assert (Hstep : forall n nd rest,
     nodes !! n = Some nd -> unrouted fs nd ->
     structFromList nodes fromNode fs (n :: rest) v f =
     structFromList nodes fromNode fs rest v f).
  { intros n nd rest Hn Hu. cbn [structFromList]. rewrite Hn.
    cbn [of_option mbind result_bind]. unfold unrouted in Hu.
    destruct (Value nd) as [| | | |name x]; try done.
    unfold FieldByName. rewrite Hu. done. }
  split; [done|].
  assert (Hall : forall fn l,
    Forall (fun n => exists nd, nodes !! n = Some nd /\ unrouted fs nd) l ->
    structFromList nodes fn fs l v f = Ok f).
  { intros fn l. induction 1 as [|n l (nd & Hn & Hu) _ IH]; [done|].
    cbn [structFromList]. rewrite Hn.
    cbn [of_option mbind result_bind]. unfold unrouted in Hu.
    destruct (Value nd) as [| | | |name x]; try done.
    unfold FieldByName. rewrite Hu. done. }
  intros l Hl. split; [by apply Hall|].
  intros fuel Ht. simpl. rewrite Ht. by apply Hall.
Qed.

Lemma structFromList_drops_witness :
  let nodes := [mkNode "" (NIdent "Z" (NInt 3)) None;
                mkNode "" NNil (Some [])] in
  let fs := [("A", TInt)] in
  let f := newFiller {[ 1 := VStruct [("A", VInt 0)] ]} 2 in
  fromList nodes 1 (Some [0; 1]%nat) (RLoc (TStruct fs) false 1 []) f = Ok f.
Proof.
  intros nodes fs f.
  destruct (structFromList_drops nodes (fun _ _ _ => Panic) fs
              (RLoc (TStruct fs) false 1 []) f) as [_ H].
  destruct (H [0; 1]%nat) as [_ H'].
  - repeat constructor.
    + exists (mkNode "" (NIdent "Z" (NInt 3)) None). split; reflexivity.
    + exists (mkNode "" NNil (Some [])). split; reflexivity.
  - apply (H' 0%nat). reflexivity.
Defined.
(** ** Places in a heap cell *)

Lemma read_path_app c p q :
  read_path c (p ++ q) = x ← read_path c p; read_path x q.
Proof.
  revert c. induction p as [|[i|i] p IH]; intros c; simpl; [done|..].
  - destruct c; try done. destruct (fields !! i) as [fv|]; simpl; [|done].
    apply IH.
  - destruct c; try done. destruct (elems !! i) as [e|]; simpl; [|done].
    apply IH.
Qed.

Lemma write_path_app c p q y :
  write_path c (p ++ q) y =
  x ← read_path c p; x' ← write_path x q y; write_path c p x'.
Proof.
  revert c. induction p as [|[i|i] p IH]; intros c; simpl.
  - by destruct (write_path c q y).
  - destruct c; try done. destruct (fields !! i) as [fv|]; simpl; [|done].
    rewrite IH. destruct (read_path fv.2 p) as [x|]; simpl; [|done].
    by destruct (write_path x q y).
  - destruct c; try done. destruct (elems !! i) as [e|]; simpl; [|done].
    rewrite IH. destruct (read_path e p) as [x|]; simpl; [|done].
    by destruct (write_path x q y).
Qed.

Lemma write_path_read c p y c' :
  write_path c p y = Some c' -> read_path c' p = Some y.
Proof.
  revert c c'. induction p as [|[i|i] p IH]; intros c c'; simpl.
  - by intros [= ->].
  - destruct c; try done. destruct (fields !! i) as [fv|] eqn:Hi; simpl; [|done].
    destruct (write_path fv.2 p y) as [fv'|] eqn:Hw; simpl; [|done].
    intros [= <-]. rewrite list_lookup_insert_eq by by eapply lookup_lt_Some.
    simpl. by eapply IH.
  - destruct c; try done. destruct (elems !! i) as [e|] eqn:Hi; simpl; [|done].
    destruct (write_path e p y) as [e'|] eqn:Hw; simpl; [|done].
    intros [= <-]. rewrite list_lookup_insert_eq by by eapply lookup_lt_Some.
    simpl. by eapply IH.
Qed.

Lemma write_path_write c p y z c' :
  write_path c p y = Some c' -> write_path c' p z = write_path c p z.
Proof.
  revert c c'. induction p as [|[i|i] p IH]; intros c c'; simpl; [done|..].
  - destruct c; try done. destruct (fields !! i) as [fv|] eqn:Hi; simpl; [|done].
    destruct (write_path fv.2 p y) as [fv'|] eqn:Hw; simpl; [|done].
    intros [= <-]. rewrite list_lookup_insert_eq by by eapply lookup_lt_Some.
    simpl. rewrite (IH _ _ Hw).
    destruct (write_path fv.2 p z); simpl; [|done].
    by rewrite list_insert_insert_eq.
  - destruct c; try done. destruct (elems !! i) as [e|] eqn:Hi; simpl; [|done].
    destruct (write_path e p y) as [e'|] eqn:Hw; simpl; [|done].
    intros [= <-]. rewrite list_lookup_insert_eq by by eapply lookup_lt_Some.
    simpl. rewrite (IH _ _ Hw).
    destruct (write_path e p z); simpl; [|done].
    by rewrite list_insert_insert_eq.
Qed.

Lemma write_path_some c p x y :
  read_path c p = Some x -> exists c', write_path c p y = Some c'.
Proof.
  revert c. induction p as [|[i|i] p IH]; intros c; simpl.
  - by exists y.
  - destruct c; try done. destruct (fields !! i) as [fv|]; simpl; [|done].
    intros H. destruct (IH _ H) as [c' ->]. simpl. by eexists.
  - destruct c; try done. destruct (elems !! i) as [e|]; simpl; [|done].
    intros H. destruct (IH _ H) as [c' ->]. simpl. by eexists.
Qed.

Lemma write_path_same c p x :
  read_path c p = Some x -> write_path c p x = Some c.
Proof.
  revert c. induction p as [|[i|i] p IH]; intros c; simpl.
  - by intros [= ->].
  - destruct c; try done. destruct (fields !! i) as [fv|] eqn:Hi; simpl; [|done].
    intros H. rewrite (IH _ H). simpl. f_equal. f_equal.
    apply list_insert_id. by destruct fv.
  - destruct c; try done. destruct (elems !! i) as [e|] eqn:Hi; simpl; [|done].
    intros H. rewrite (IH _ H). simpl. f_equal. f_equal.
    by apply list_insert_id.
Qed.

Lemma set_mem_same f a c :
  mem f !! a = Some c -> set_mem f (<[a := c]> (mem f)) = f.
Proof. intros H. unfold set_mem. rewrite insert_id by done. by destruct f. Qed.

Lemma set_mem_twice f a c c' :
  set_mem (set_mem f (<[a := c]> (mem f)))
          (<[a := c']> (mem (set_mem f (<[a := c]> (mem f))))) =
  set_mem f (<[a := c']> (mem f)).
Proof. unfold set_mem. simpl. by rewrite insert_insert_eq. Qed.

(** Writing through an addressable value that is not read-only. *)
Lemma rv_set_loc f t a p c x y :
  mem f !! a = Some c -> read_path c p = Some x ->
  exists c', write_path c p y = Some c' /\
    rv_set f (RLoc t false a p) y = Ok (set_mem f (<[a := c']> (mem f))).
Proof.
  intros Hc Hr. destruct (write_path_some c p x y Hr) as [c' Hw].
  exists c'. split; [done|]. unfold rv_set. rewrite Hc. simpl.
  by rewrite Hw.
Qed.
(** ** Plain values: what the maker builds *)

Lemma repr_mono ns new t : forall p v,
  repr ns t p v -> repr (ns ++ new) t p v.
Proof.
  induction t as [| |e IH|fs|e _|]; intros p v; simpl; try done.
  - intros (n & -> & H). exists n. split; [done|]. by apply lookup_app_l_Some.
  - intros (s & -> & H). exists s. split; [done|]. by apply lookup_app_l_Some.
  - intros (ps & es & Hs & H & Hall). exists ps, es. split; [done|].
    split; [by apply lookup_app_l_Some|].
    eapply Forall2_impl; [done|]. intros; by apply IH.
Qed.

Section plain_new.

Context (h : gmap Z value).

Lemma listFromSlice_loop_plain e f es :
  node_builds h e -> (tdepth e <= f)%nat -> Forall (plain e) es ->
  forall mk, exists ps new,
    listFromSlice_loop (node h f) es mk =
      Ok (ps, mkMaker (m mk) (serial mk) (nodes mk ++ new)) /\
    Forall2 (repr (nodes mk ++ new) e) ps es.
Proof.
  intros Hb Hf. induction 1 as [|v es Hv _ IH]; intros mk.
  - exists [], []. simpl. rewrite app_nil_r. split; [by destruct mk|constructor].
  - destruct (Hb v Hv f mk Hf) as (p & new0 & Hn & Hr).
    destruct (IH (mkMaker (m mk) (serial mk) (nodes mk ++ new0)))
      as (ps & new1 & Hl & Hall).
    exists (p :: ps), (new0 ++ new1). simpl in Hl, Hall |- *.
    rewrite Hn. cbn [mbind result_bind]. rewrite Hl. cbn [mbind result_bind].
    rewrite <- app_assoc in Hall |- *. rewrite app_assoc.
    split; [by rewrite <- app_assoc|].
    rewrite <- app_assoc. constructor; [|done].
    rewrite app_assoc. by apply repr_mono.
Qed.

Lemma node_plain t : node_builds h t.
Proof.
  induction t as [| |e IH|fs|e _|]; intros v Hv fuel mk Hf; simpl in Hv;
    try done.
  - destruct Hv as [n ->]. destruct fuel as [|f]; [simpl in Hf; lia|].
    exists (length (nodes mk)), [mkNode "" (NInt n) None].
    split; [done|]. exists n. split; [done|].
    by rewrite lookup_app_r, Nat.sub_diag.
  - destruct Hv as [s ->]. destruct fuel as [|f]; [simpl in Hf; lia|].
    exists (length (nodes mk)), [mkNode "" (NString s) None].
    split; [done|]. exists s. split; [done|].
    by rewrite lookup_app_r, Nat.sub_diag.
  - destruct fuel as [|[|f]]; [simpl in Hf; lia..|].
    assert (Hf' : (tdepth e <= f)%nat) by (simpl in Hf; lia).
    assert (Hes : exists es, slice_elems v = Some es /\ Forall (plain e) es /\
              list_ h (S f) v mk = listFromSlice (node h f) es mk).
    { destruct Hv as [-> | (es & -> & Hall)].
      - by exists [].
      - by exists es. }
    destruct Hes as (es & Hse & Hall & Hlist).
    rewrite node_S_slice by (destruct Hv as [-> | (es' & -> & _)]; eauto).
    rewrite Hlist. unfold listFromSlice.
    destruct (listFromSlice_loop_plain e f es IH Hf' Hall mk)
      as (ps & new & -> & Hr).
    cbn [mbind result_bind alloc nodes m serial].
    exists (length (nodes mk ++ new)), (new ++ [mkNode "" NNil (Some ps)]).
    rewrite app_assoc. split; [done|].
    exists ps, es. split; [done|].
    split; [by rewrite lookup_app_r, Nat.sub_diag|].
    eapply Forall2_impl; [done|]. intros; by apply repr_mono.
Qed.

(** What [m.list] returns for a plain value. *)
Lemma list_plain t v fuel :
  plain t v -> (tdepth t + 1 <= fuel)%nat ->
  exists ps ns,
    list_ h fuel v newMaker = Ok (Some ps, mkMaker ∅ 1 ns) /\
    match t with
    | TSlice e =>
        exists es, slice_elems v = Some es /\ Forall2 (repr ns e) ps es
    | _ => exists p, ps = [p] /\ repr ns t p v
    end.
Proof.
  intros Hv Hf. destruct fuel as [|f]; [lia|].
  destruct t as [| |e|fs|e|]; simpl in Hv; try done.
  - destruct (node_plain TInt v Hv f newMaker ltac:(simpl in *; lia))
      as (p & new & Hn & Hr).
    destruct Hv as [n ->]. exists [p], new. simpl in Hn |- *.
    rewrite Hn. cbn [mbind result_bind]. split; [done|]. by exists p.
  - destruct (node_plain TString v Hv f newMaker ltac:(simpl in *; lia))
      as (p & new & Hn & Hr).
    destruct Hv as [s ->]. exists [p], new. simpl in Hn |- *.
    rewrite Hn. cbn [mbind result_bind]. split; [done|]. by exists p.
  - assert (Hes : exists es, slice_elems v = Some es /\ Forall (plain e) es /\
              list_ h (S f) v newMaker = listFromSlice (node h f) es newMaker).
    { destruct Hv as [-> | (es & -> & Hall)].
      - by exists [].
      - by exists es. }
    destruct Hes as (es & Hse & Hall & ->). unfold listFromSlice.
    destruct (listFromSlice_loop_plain e f es (node_plain e)
                ltac:(simpl in *; lia) Hall newMaker) as (ps & new & -> & Hr).
    exists ps, new. cbn [mbind result_bind]. split; [done|]. by exists es.
Qed.

End plain_new.
(** ** Plain values: what the filler makes of their nodes *)

Lemma nilify_slice v es :
  slice_elems v = Some es ->
  nilify v = match es with [] => VSliceNil | _ => VSlice (map nilify es) end.
Proof.
  destruct v; try done; simpl.
  - by intros [= <-].
  - intros [= <-]. by destruct elems.
Qed.

Lemma fromNode_S_slice ns k p e ro a path f nd :
  ns !! p = Some nd ->
  fromNode ns (S (S k)) p (RLoc (TSlice e) ro a path) f =
  sliceFromList_loop (fromNode ns k) e 0 (list_elems (List nd))
    (RLoc (TSlice e) ro a path) f.
Proof. intros H. simpl. rewrite H. done. Qed.

Lemma sliceFromList_loop_S fn e i n l v f :
  sliceFromList_loop fn e i (n :: l) v f =
  cur ← of_option (rv_get f v);
  es ← of_option (slice_elems cur);
  f ← rv_set f v (VSlice (es ++ [zero e]));
  elem ← rv_index e v i;
  f ← fn n elem f;
  sliceFromList_loop fn e (S i) l v f.
Proof. done. Qed.

Section plain_fill.

Context (ns : list Node).

Lemma sliceFromList_loop_plain e k a path :
  node_fills ns e -> (tdepth e <= k)%nat ->
  forall ps es, Forall2 (repr ns e) ps es ->
  forall done cur f c,
  mem f !! a = Some c -> read_path c path = Some cur ->
  slice_elems cur = Some done ->
  exists c',
    write_path c path
      (match es with [] => cur | _ => VSlice (done ++ map nilify es) end)
      = Some c' /\
    sliceFromList_loop (fromNode ns k) e (length done) ps
      (RLoc (TSlice e) false a path) f =
      Ok (set_mem f (<[a := c']> (mem f))).
Proof.
  intros Hfill Hk. induction 1 as [|p0 e0 ps es Hr0 Hall IH];
    intros done cur f c Hc Hread Hcur.
  - exists c. split; [by apply write_path_same|].
    simpl. by rewrite set_mem_same.
  - rewrite sliceFromList_loop_S.
    assert (Hget : rv_get f (RLoc (TSlice e) false a path) = Some cur)
      by (simpl; rewrite Hc; done).
    rewrite Hget. cbn [of_option mbind result_bind]. rewrite Hcur.
    cbn [of_option mbind result_bind].
    destruct (rv_set_loc f (TSlice e) a path c cur
                (VSlice (done ++ [zero e])) Hc Hread) as (c1 & Hw1 & ->).
    cbn [mbind result_bind rv_index].
    set (f1 := set_mem f (<[a := c1]> (mem f))).
    assert (Hc1 : mem f1 !! a = Some c1) by (simpl; by rewrite lookup_insert_eq).
    assert (Hr1 : read_path c1 path = Some (VSlice (done ++ [zero e])))
      by by eapply write_path_read.
    assert (Hz : read_path c1 (path ++ [SIndex (length done)]) = Some (zero e)).
    { rewrite read_path_app, Hr1. simpl.
      by rewrite lookup_app_r, Nat.sub_diag. }
    destruct (Hfill e0 p0 Hr0 k a (path ++ [SIndex (length done)]) f1 c1
                Hk Hc1 Hz) as (c2 & Hw2 & ->).
    cbn [mbind result_bind]. unfold f1. rewrite set_mem_twice.
    set (f2 := set_mem f (<[a := c2]> (mem f))).
    assert (Hc2 : mem f2 !! a = Some c2) by (simpl; by rewrite lookup_insert_eq).
    assert (Hw2' : write_path c1 path (VSlice (done ++ [nilify e0])) = Some c2).
    { rewrite write_path_app, Hr1 in Hw2. simpl in Hw2.
      rewrite lookup_app_r, Nat.sub_diag in Hw2 by done. simpl in Hw2.
      rewrite insert_app_r_alt, Nat.sub_diag in Hw2 by done. done. }
    assert (Hr2 : read_path c2 path = Some (VSlice (done ++ [nilify e0])))
      by by eapply write_path_read.
    destruct (IH (done ++ [nilify e0]) (VSlice (done ++ [nilify e0])) f2 c2
                Hc2 Hr2 eq_refl) as (c3 & Hw3 & Hloop).
    rewrite length_app, Nat.add_1_r in Hloop. rewrite Hloop.
    exists c3. unfold f2. rewrite set_mem_twice. split; [|done].
    rewrite (write_path_write _ _ _ _ _ Hw2'),
      (write_path_write _ _ _ _ _ Hw1) in Hw3.
    rewrite <- Hw3. f_equal. destruct es; simpl.
    + done.
    + by rewrite <- app_assoc.
Qed.

Lemma fromNode_plain t : node_fills ns t.
Proof.
  induction t as [| |e IH|fs|e _|]; intros v p Hr fuel a path f c Hf Hc Hread;
    simpl in Hr; try done.
  - destruct Hr as (n & -> & Hn). destruct fuel as [|k]; [simpl in Hf; lia|].
    destruct (rv_set_loc f TInt a path c (zero TInt) (VInt n) Hc Hread)
      as (c' & Hw & Hset).
    exists c'. split; [done|]. simpl. rewrite Hn. done.
  - destruct Hr as (s & -> & Hn). destruct fuel as [|k]; [simpl in Hf; lia|].
    destruct (rv_set_loc f TString a path c (zero TString) (VString s) Hc Hread)
      as (c' & Hw & Hset).
    exists c'. split; [done|]. simpl. rewrite Hn. done.
  - destruct Hr as (ps & es & Hse & Hn & Hall).
    destruct fuel as [|[|k]]; [simpl in Hf; lia..|].
    rewrite (fromNode_S_slice _ _ _ _ _ _ _ _ _ Hn). simpl List.
    destruct (sliceFromList_loop_plain e k a path IH ltac:(simpl in Hf; lia)
                ps es Hall [] VSliceNil f c Hc Hread eq_refl) as (c' & Hw & Hl).
    exists c'. split; [|done].
    rewrite (nilify_slice v es Hse). by destruct es.
Qed.

End plain_fill.
(** ** The round trip of plain values *)

Lemma no_empty_slice_Forall es :
  (fix all (es : list value) : Prop :=
     match es with
     | [] => True
     | x :: es' => no_empty_slice x /\ all es'
     end) es <-> Forall no_empty_slice es.
Proof.
  induction es as [|x es IH]; [by split; [constructor|]|].
  rewrite Forall_cons, IH. done.
Qed.

Lemma nilify_no_empty t : forall v,
  plain t v -> no_empty_slice v -> nilify v = v.
Proof.
  induction t as [| |e IH|fs|e _|]; intros v Hv Hne; simpl in Hv; try done.
  - by destruct Hv as [n ->].
  - by destruct Hv as [s ->].
  - destruct Hv as [-> | (es & -> & Hall)]; [done|].
    destruct Hne as [Hne Hes]. apply no_empty_slice_Forall in Hes.
    destruct es as [|x es]; [done|].
    change (VSlice (map nilify (x :: es)) = VSlice (x :: es)). f_equal.
    clear Hne. induction Hall as [|y ys Hy Hys IHys]; [done|].
    apply Forall_cons in Hes as [Hy' Hys']. simpl.
    rewrite (IH y Hy Hy'). f_equal. by apply IHys.
Qed.

Lemma DeepEqual_refl t : forall v, plain t v -> DeepEqual v v = true.
Proof.
  induction t as [| |e IH|fs|e _|]; intros v Hv; simpl in Hv; try done.
  - destruct Hv as [n ->]. simpl. lia.
  - destruct Hv as [s ->]. simpl. by apply String.eqb_refl.
  - destruct Hv as [-> | (es & -> & Hall)]; [done|]. simpl.
    induction Hall as [|y ys Hy Hys IHys]; [done|].
    by rewrite (IH y Hy), IHys.
Qed.

Lemma allocIndirect_pointer t a f :
  (forall e, t <> TPtr e) ->
  allocIndirect (RVal (TPtr t) false (VPtr (Some a))) f =
  Ok (RLoc t false a [], f).
Proof. intros Ht. unfold allocIndirect. simpl. by destruct t; try done; destruct (Ht t). Qed.

(** C2, as the code has it.  Let [v] be a value of a type [t] built from
    the types [int] and [string] and slices only, and let the cell at [a]
    hold the zero value of [t].  With enough fuel [New] returns a list for
    [v], and [Fill] of that list into the pointer to the cell succeeds and
    changes the cell only: it then holds [v] with every empty slice turned
    into the nil slice.  When no slice inside [v] is empty without being nil, this
    is [v] itself, and is deeply equal to [v]. *)
Theorem roundtrip_plain (h : gmap Z value) (t : ty) (v : value) (fuel : nat)
    (a : Z) (mem0 : gmap Z value) (next : Z) :
  plain t v ->
  (tdepth t + 2 <= fuel)%nat ->
  mem0 !! a = Some (zero t) ->
  exists l ns f,
    New h fuel (Some v) = Ok (l, ns) /\
    Fill ns fuel l (Some (TPtr t, VPtr (Some a))) mem0 next = Ok f /\
    mem f = <[a := nilify v]> mem0 /\
    (no_empty_slice v ->
       mem f !! a = Some v /\ DeepEqual (nilify v) v = true).
Proof.
  intros Hv Hf Ha.
  destruct (list_plain h t v fuel Hv ltac:(lia)) as (ps & ns & Hl & Hr).
  exists (Some ps), ns.
  assert (Hnew : New h fuel (Some v) = Ok (Some ps, ns))
    by (unfold New; by rewrite Hl).
  assert (Hfill : exists f,
    Fill ns fuel (Some ps) (Some (TPtr t, VPtr (Some a))) mem0 next = Ok f /\
    mem f = <[a := nilify v]> mem0).
  { unfold Fill. destruct fuel as [|[|k]]; [lia..|].
    set (f0 := newFiller mem0 next).
    assert (Hnp : forall e, t <> TPtr e) by (intros e ->; done).
    assert (Hstep : fromList ns (S (S k)) (Some ps)
              (RVal (TPtr t) false (VPtr (Some a))) f0 =
            fromList ns (S k) (Some ps) (RLoc t false a []) f0).
    { change (fromList ns (S (S k)) (Some ps)
                (RVal (TPtr t) false (VPtr (Some a))) f0)
        with ('(v', f) ← allocIndirect (RVal (TPtr t) false (VPtr (Some a))) f0;
              fromList ns (S k) (Some ps) v' f).
      by rewrite allocIndirect_pointer. }
    rewrite Hstep.
    destruct t as [| |e|fs|e|]; simpl in Hv; try done.
    - destruct Hr as (p & -> & Hrp).
      destruct (fromNode_plain ns TInt v p Hrp k a [] f0 (zero TInt)
                  ltac:(simpl in *; lia) Ha eq_refl) as (c' & Hw & Hfn).
      simpl in Hw. injection Hw as <-.
      exists (set_mem f0 (<[a := nilify v]> (mem f0))). split; [|done].
      simpl in Hfn |- *. done.
    - destruct Hr as (p & -> & Hrp).
      destruct (fromNode_plain ns TString v p Hrp k a [] f0 (zero TString)
                  ltac:(simpl in *; lia) Ha eq_refl) as (c' & Hw & Hfn).
      simpl in Hw. injection Hw as <-.
      exists (set_mem f0 (<[a := nilify v]> (mem f0))). split; [|done].
      simpl in Hfn |- *. done.
    - destruct Hr as (es & Hse & Hall).
      destruct (sliceFromList_loop_plain ns e k a [] (fromNode_plain ns e)
                  ltac:(simpl in *; lia) ps es Hall [] VSliceNil f0 VSliceNil
                  Ha eq_refl eq_refl) as (c' & Hw & Hloop).
      simpl in Hw. injection Hw as <-.
      exists (set_mem f0 (<[a := nilify v]> (mem f0))). split; [|done].
      rewrite (nilify_slice v es Hse).
      simpl in Hloop |- *. unfold sliceFromList. rewrite Hloop.
      by destruct es. }
  destruct Hfill as (f & Hfill & Hmem).
  exists f. split; [done|]. split; [done|]. split; [done|].
  intros Hne. rewrite Hmem, lookup_insert_eq, (nilify_no_empty t v Hv Hne).
  split; [done|]. by eapply DeepEqual_refl.
Qed.

Lemma roundtrip_plain_witness :
  let t := TSlice (TSlice TInt) in
  let v := VSlice [VSlice [VInt 1; VInt 2]; VSliceNil] in
  plain t v /\ no_empty_slice v /\
  exists l ns f,
    New ∅ 7 (Some v) = Ok (l, ns) /\
    Fill ns 7 l (Some (TPtr t, VPtr (Some 1))) {[ 1 := zero t ]} 2 = Ok f /\
    mem f !! 1 = Some v.
Proof.
  intros t v.
  assert (Hv : plain t v).
  { right. exists [VSlice [VInt 1; VInt 2]; VSliceNil]. split; [reflexivity|].
    apply Forall_cons. split.
    - right. exists [VInt 1; VInt 2]. split; [reflexivity|].
      apply Forall_cons. split; [by exists 1|].
      apply Forall_cons. split; [by exists 2|]. constructor.
    - apply Forall_cons. split; [by left|constructor]. }
  assert (Hne : no_empty_slice v).
  { simpl. repeat split; discriminate. }
  split; [exact Hv|]. split; [exact Hne|].
  destruct (roundtrip_plain ∅ t v 7 1 {[ 1 := zero t ]} 2 Hv)
    as (l & ns & f & Hnew & Hfill & Hmem & Heq).
  - simpl. lia.
  - reflexivity.
  - exists l, ns, f. split; [exact Hnew|]. split; [exact Hfill|].
    exact (proj1 (Heq Hne)).
Defined.

(** C2 as the claim states it does not hold: the empty slice that is not
    nil is a value built from slices only, and filling a new destination
    from its list leaves the destination the nil slice, which is not deeply
    equal to it. *)
Lemma empty_slice_filled_as_nil :
  let t := TSlice TInt in
  let v := VSlice [] in
  plain t v /\
  exists f,
    New ∅ 5 (Some v) = Ok (Some [], []) /\
    Fill [] 5 (Some []) (Some (TPtr t, VPtr (Some 1))) {[ 1 := zero t ]} 2
      = Ok f /\
    mem f !! 1 = Some VSliceNil /\
    DeepEqual VSliceNil v = false.
Proof.
  intros t v. split.
  - right. exists []. split; [reflexivity|constructor].
  - eexists. split; [reflexivity|]. split; [reflexivity|].
    split; reflexivity.
Qed.
(** ** Values without cycle *)









Section acyclic.

Context (h : gmap Z value) (rank : Z -> nat).
Context (Hrank : forall a v, h !! a = Some v -> below rank (rank a) v).






End acyclic.

(** ** Records: what the maker builds and what the filler makes of it *)

Lemma field_node_mono ns new p r :
  field_node ns p r -> field_node (ns ++ new) p r.
Proof.
  unfold field_node. destruct (r.1.2); try (intros [l H]; exists l);
    by apply lookup_app_l_Some.
Qed.

Lemma listFromStruct_loop_rows h f rows : forall mk,
  Forall (field_ok f) rows ->
  exists ps new,
    listFromStruct_loop (node h f) (map (fun r => (r.1.1, r.2)) rows) mk =
      Ok (ps, mkMaker (m mk) (serial mk) (nodes mk ++ new)) /\
    Forall2 (field_node (nodes mk ++ new)) ps rows.
Proof.
  induction rows as [|[[name t] v] rows IH]; intros mk Hok.
  - exists [], []. simpl. rewrite app_nil_r. split; [by destruct mk|constructor].
  - apply Forall_cons in Hok as [[Hv Hf] Hok]. simpl in Hv, Hf.
    assert (Hstep : exists p new0,
      node h f v mk = Ok (p, mkMaker (m mk) (serial mk) (nodes mk ++ new0)) /\
      (nodes mk ++ new0) !! p <> None /\
      forall mk1, mk1 = mkMaker (m mk) (serial mk) (nodes mk ++ new0) ->
        exists new0',
        (nd ← of_option (nodes mk1 !! p);
         Ok match List nd with
            | None => mkMaker (m mk1) (serial mk1)
                        (<[p := set_Value nd (NIdent name (Value nd))]>
                           (nodes mk1))
            | Some _ => mk1
            end) = Ok (mkMaker (m mk) (serial mk) (nodes mk ++ new0')) /\
        field_node (nodes mk ++ new0') p (name, t, v)).
    { destruct t as [| |e|fs|e|]; simpl in Hv; try done.
      - destruct Hv as [n ->]. destruct f as [|f]; [simpl in Hf; lia|].
        exists (length (nodes mk)), [mkNode "" (NInt n) None].
        split; [done|]. rewrite lookup_app_r, Nat.sub_diag by done.
        split; [done|]. intros mk1 ->. simpl.
        exists [mkNode "" (NIdent name (NInt n)) None].
        rewrite lookup_app_r, Nat.sub_diag by done. simpl.
        rewrite insert_app_r_alt, Nat.sub_diag by done. simpl.
        split; [done|]. unfold field_node. simpl.
        by rewrite lookup_app_r, Nat.sub_diag.
      - destruct Hv as [s ->]. destruct f as [|f]; [simpl in Hf; lia|].
        exists (length (nodes mk)), [mkNode "" (NString s) None].
        split; [done|]. rewrite lookup_app_r, Nat.sub_diag by done.
        split; [done|]. intros mk1 ->. simpl.
        exists [mkNode "" (NIdent name (NString s)) None].
        rewrite lookup_app_r, Nat.sub_diag by done. simpl.
        rewrite insert_app_r_alt, Nat.sub_diag by done. simpl.
        split; [done|]. unfold field_node. simpl.
        by rewrite lookup_app_r, Nat.sub_diag.
      - destruct (node_plain h (TSlice e) v Hv f mk Hf) as (p & new0 & Hn & Hr).
        destruct Hr as (ps & es & _ & Hp & _).
        exists p, new0. split; [done|]. split; [congruence|].
        intros mk1 ->. simpl. rewrite Hp. simpl.
        exists new0. split; [done|]. unfold field_node. simpl. by exists ps. }
    destruct Hstep as (p & new0 & Hn & Hnd & Hup).
    destruct (Hup _ eq_refl) as (new0' & Hup' & Hfn).
    destruct (IH (mkMaker (m mk) (serial mk) (nodes mk ++ new0')) Hok)
      as (ps & new1 & Hl & Hall).
    simpl in Hl, Hall.
    exists (p :: ps), (new0' ++ new1). rewrite app_assoc. split.
    + simpl. rewrite Hn. cbn [mbind result_bind nodes m serial].
      simpl in Hup'.
      destruct ((nodes mk ++ new0) !! p) as [nd|] eqn:Hlk; [|done].
      cbn [of_option mbind result_bind] in Hup' |- *.
      destruct (List nd); injection Hup' as Hup'; rewrite Hup', Hl; done.
    + constructor; [by apply field_node_mono|done].
Qed.

Lemma field_index_middle {A} (pre : list (string * A)) name x post :
  name ∉ pre.*1 ->
  field_index (pre ++ (name, x) :: post) name = Some (length pre, x).
Proof.
  induction pre as [|[k y] pre IH]; intros Hn; simpl.
  - by rewrite String.eqb_refl.
  - apply not_elem_of_cons in Hn as [Hk Hn]. simpl in Hk.
    assert (String.eqb k name = false) as ->
      by (apply String.eqb_neq; congruence).
    by rewrite (IH Hn).
Qed.

Lemma fromNode_field_scalar ns k p name t v ro a path f :
  scalar_type t -> plain t v ->
  ns !! p = Some (mkNode "" (NIdent name (nval v)) None) ->
  fromNode ns (S k) p (RLoc t ro a path) f = rv_set f (RLoc t ro a path) v.
Proof.
  intros [-> | ->] [x ->] Hp; simpl; rewrite Hp; done.
Qed.

Lemma write_field (pre : list (string * value)) name old x post :
  write_path (VStruct (pre ++ (name, old) :: post)) [SField (length pre)] x =
  Some (VStruct (pre ++ (name, x) :: post)).
Proof.
  simpl. rewrite list_lookup_middle by done. simpl.
  by rewrite insert_app_r_alt, Nat.sub_diag.
Qed.

Lemma structFromList_cons ns fn fs n l v f :
  structFromList ns fn fs (n :: l) v f =
  nd ← of_option (ns !! n);
  f ← match Value nd with
      | NIdent name _ =>
          field ← FieldByName fs name v;
          match field with
          | Some fv => fn n fv f
          | None => Ok f
          end
      | _ => Ok f
      end;
  structFromList ns fn fs l v f.
Proof. done. Qed.

Section records.

Context (ns : list Node) (rows : list (string * ty * value)).
Context (k : nat) (a : Z).
Hypothesis Hnames : NoDup (map (fun r => r.1.1) rows).

(** The loop of [structFromList] over the children of the fields [todo],
    the fields [done] being filled already. *)
Lemma structFromList_rows todo : forall done later ps rest f,
  rows = done ++ todo ++ later ->
  Forall2 (field_node ns) ps todo ->
  Forall (fun r => plain r.1.2 r.2 /\ exported r.1.1 = true) todo ->
  mem f !! a =
    Some (VStruct (fields_back done ++ fields_zero (todo ++ later))) ->
  structFromList ns (fromNode ns (S k))
    (map (fun r => (r.1.1, r.1.2)) rows) (ps ++ rest)
    (RLoc (struct_type rows) false a []) f =
  structFromList ns (fromNode ns (S k))
    (map (fun r => (r.1.1, r.1.2)) rows) rest
    (RLoc (struct_type rows) false a [])
    (set_mem f (<[a := VStruct (fields_back (done ++ todo)
                                ++ fields_zero later)]> (mem f))).
Proof.
  induction todo as [|[[name t] v] todo IH];
    intros done later ps rest f Hrows Hps Hok Hc.
  - apply Forall2_nil_inv_r in Hps as ->. simpl.
    rewrite app_nil_r. simpl in Hc. by rewrite set_mem_same.
  - apply Forall2_cons_inv_r in Hps as (p & ps' & Hp & Hps & ->).
    apply Forall_cons in Hok as [[Hv Hex] Hok]. simpl in Hv, Hex.
    assert (Hrows' : rows = (done ++ [(name, t, v)]) ++ todo ++ later)
      by (by rewrite <- app_assoc).
    assert (Hback : fields_back (done ++ [(name, t, v)])
                    = fields_back done ++ [(name, lossy t v)])
      by (unfold fields_back; by rewrite map_app).
    assert (Hfinal : forall f1,
      mem f1 !! a = Some (VStruct (fields_back (done ++ [(name, t, v)])
                                   ++ fields_zero (todo ++ later))) ->
      set_mem f1 (<[a := VStruct (fields_back ((done ++ [(name, t, v)]) ++ todo)
                              ++ fields_zero later)]> (mem f1))
      = set_mem f (<[a := VStruct (fields_back (done ++ (name, t, v) :: todo)
                              ++ fields_zero later)]> (mem f)) ->
      structFromList ns (fromNode ns (S k))
        (map (fun r => (r.1.1, r.1.2)) rows) (ps' ++ rest)
        (RLoc (struct_type rows) false a []) f1 =
      structFromList ns (fromNode ns (S k))
        (map (fun r => (r.1.1, r.1.2)) rows) rest
        (RLoc (struct_type rows) false a [])
        (set_mem f (<[a := VStruct (fields_back (done ++ (name, t, v) :: todo)
                                    ++ fields_zero later)]> (mem f)))).
    { intros f1 Hc1 Hsm. rewrite <- Hsm. by apply IH. }
    unfold field_node in Hp. simpl in Hp.
    assert (Hscalar : forall nd, scalar_type t ->
      ns !! p = Some nd -> nd = mkNode "" (NIdent name (nval v)) None ->
      structFromList ns (fromNode ns (S k))
        (map (fun r => (r.1.1, r.1.2)) rows) ((p :: ps') ++ rest)
        (RLoc (struct_type rows) false a []) f =
      structFromList ns (fromNode ns (S k))
        (map (fun r => (r.1.1, r.1.2)) rows) rest
        (RLoc (struct_type rows) false a [])
        (set_mem f (<[a := VStruct (fields_back (done ++ (name, t, v) :: todo)
                                    ++ fields_zero later)]> (mem f)))).
    { intros nd Hst Hnd ->.
      change ((p :: ps') ++ rest) with (p :: (ps' ++ rest)).
      rewrite structFromList_cons, Hnd.
      cbn [of_option mbind result_bind Value].
      unfold FieldByName.
      assert (Hidx : field_index (map (fun r => (r.1.1, r.1.2)) rows) name
                     = Some (length done, t)).
      { rewrite Hrows, map_app. simpl.
        rewrite (field_index_middle (map (fun r => (r.1.1, r.1.2)) done)
                   name t), length_map; [done|].
        rewrite <- list_fmap_compose.
        rewrite Hrows, map_app in Hnames. apply NoDup_app in Hnames as (_ & Hd & _).
        intros Hin. apply (Hd name Hin). simpl. left. }
      rewrite Hidx. unfold struct_type.
      cbn [rv_ro orb app mbind result_bind]. rewrite Hex.
      cbn [negb orb app mbind result_bind].
      rewrite (fromNode_field_scalar ns k p name t v false a
                 [SField (length done)] f Hst Hv Hnd).
      assert (Hlen : length done = length (fields_back done))
        by (unfold fields_back; by rewrite length_map).
      unfold rv_set. rewrite Hc.
      change (fields_zero (((name, t, v) :: todo) ++ later))
        with ((name, zero t) :: fields_zero (todo ++ later)).
      cbn [of_option mbind result_bind]. rewrite Hlen, write_field.
      cbn [of_option mbind result_bind].
      apply Hfinal.
      - simpl. rewrite lookup_insert_eq. rewrite Hback, <- app_assoc. simpl.
        by destruct Hst as [-> | ->].
      - rewrite set_mem_twice. by rewrite <- app_assoc. }
    destruct t as [| |e|fs|e|]; simpl in Hv; try done.
    + by apply (Hscalar _ ltac:(by left) Hp).
    + by apply (Hscalar _ ltac:(by right) Hp).
    + destruct Hp as [l Hp].
      change ((p :: ps') ++ rest) with (p :: (ps' ++ rest)).
      rewrite structFromList_cons, Hp.
      cbn [of_option mbind result_bind Value].
      rewrite <- (set_mem_same f a _ Hc) at 1.
      apply Hfinal.
      * simpl. rewrite lookup_insert_eq, Hback, <- app_assoc. done.
      * rewrite set_mem_twice. by rewrite <- app_assoc.
Qed.

End records.
Lemma zero_struct_type rows :
  zero (struct_type rows) = VStruct (fields_zero rows).
Proof.
  unfold struct_type, fields_zero. simpl. f_equal.
  rewrite map_map. apply map_ext. by intros [[n t] v].
Qed.

Lemma lossy_scalar rows :
  Forall (fun r : string * ty * value => scalar_type r.1.2) rows ->
  VStruct (fields_back rows) = struct_value rows.
Proof.
  intros H. unfold fields_back, struct_value. f_equal.
  apply map_ext_Forall. eapply Forall_impl; [done|].
  by intros [[n t] v] [Ht | Ht]; simpl in *; subst.
Qed.

(** What [New] returns for a record. *)
Lemma New_rows h rows f :
  Forall (field_ok f) rows ->
  exists ps ns,
    New h (S f) (Some (struct_value rows)) = Ok (Some ps, ns) /\
    Forall2 (field_node ns) ps rows.
Proof.
  intros Hok.
  destruct (listFromStruct_loop_rows h f rows newMaker Hok)
    as (ps & new & Hl & Hall).
  exists ps, new. unfold New, struct_value. simpl.
  unfold listFromStruct. rewrite Hl. done.
Qed.

(** [Fill] on a pointer to a record: [fromList] strips the pointer and
    calls [structFromList]. *)
Lemma Fill_record ns k l rows a mem0 next :
  Fill ns (S (S (S k))) l (Some (TPtr (struct_type rows), VPtr (Some a)))
       mem0 next =
  structFromList ns (fromNode ns (S k))
    (map (fun r => (r.1.1, r.1.2)) rows) (list_elems l)
    (RLoc (struct_type rows) false a []) (newFiller mem0 next).
Proof.
  unfold Fill.
  change (fromList ns (S (S (S k))) l
            (RVal (TPtr (struct_type rows)) false (VPtr (Some a)))
            (newFiller mem0 next))
    with ('(v', f) ← allocIndirect
              (RVal (TPtr (struct_type rows)) false (VPtr (Some a)))
              (newFiller mem0 next);
          fromList ns (S (S k)) l v' f).
  by rewrite allocIndirect_pointer.
Qed.

(** X10. The round trip of a record.  Let a record have fields with
    distinct names that start with an ASCII upper-case letter (['A'] to
    ['Z'], so that they are exported), each of type [int], of type
    [string] or of a slice type built from these.  [New] returns a list for it, and [Fill] of that
    list into a pointer to a zero record of the same type succeeds and
    changes that record only: every field of type [int] or [string] then
    holds the value it has in the source, and every field of a slice type
    is left nil, whatever the source holds there (its node carries no
    field name).  A record of integers and strings only comes back as it
    is. *)
Theorem roundtrip_record (h : gmap Z value)
    (rows : list (string * ty * value)) (fuel : nat) (a : Z)
    (mem0 : gmap Z value) (next : Z) :
  Forall (fun r => plain r.1.2 r.2 /\ (tdepth r.1.2 + 2 <= fuel)%nat /\
                   exported r.1.1 = true) rows ->
  NoDup (map (fun r => r.1.1) rows) ->
  (3 <= fuel)%nat ->
  mem0 !! a = Some (zero (struct_type rows)) ->
  exists l ns f,
    New h fuel (Some (struct_value rows)) = Ok (l, ns) /\
    Fill ns fuel l (Some (TPtr (struct_type rows), VPtr (Some a))) mem0 next
      = Ok f /\
    mem f = <[a := VStruct (fields_back rows)]> mem0 /\
    (Forall (fun r => scalar_type r.1.2) rows ->
     mem f !! a = Some (struct_value rows)).
Proof.
  intros Hrows Hnd Hfuel Ha.
  destruct fuel as [|[|[|k]]]; [lia..|].
  destruct (New_rows h rows (S (S k))) as (ps & ns & Hnew & Hall).
  { eapply Forall_impl; [done|]. intros r (Hp & Hd & _). split; [done|lia]. }
  exists (Some ps), ns. eexists. split; [done|].
  rewrite Fill_record. simpl list_elems.
  rewrite <- (app_nil_r ps).
  rewrite (structFromList_rows ns rows k a Hnd rows [] [] ps []
             (newFiller mem0 next)).
  - simpl. split; [done|]. split; [by rewrite app_nil_r|].
    intros Hsc. simpl. rewrite app_nil_r, lookup_insert_eq. f_equal.
    by apply lossy_scalar.
  - by rewrite app_nil_r.
  - done.
  - eapply Forall_impl; [done|]. by intros r (Hp & _ & He).
  - simpl. by rewrite app_nil_r, Ha, zero_struct_type.
Qed.

Lemma roundtrip_record_witness :
  let rows := [("Name", TString, VString "a");
               ("Tags", TSlice TInt, VSlice [VInt 1; VInt 2]);
               ("Age", TInt, VInt 3)] in
  exists l ns f,
    New ∅ 5 (Some (struct_value rows)) = Ok (l, ns) /\
    Fill ns 5 l (Some (TPtr (struct_type rows), VPtr (Some 1)))
         {[ 1 := zero (struct_type rows) ]} 2 = Ok f /\
    mem f = <[ 1 := VStruct [("Name", VString "a"); ("Tags", VSliceNil);
                             ("Age", VInt 3)] ]>
              {[ 1 := zero (struct_type rows) ]}.
Proof.
  intros rows.
  destruct (roundtrip_record ∅ rows 5 1 {[ 1 := zero (struct_type rows) ]} 2)
    as (l & ns & f & Hnew & Hfill & Hmem & _).
  - apply Forall_cons. split.
    { split; [by exists "a"|]. split; [simpl; lia|reflexivity]. }
    apply Forall_cons. split.
    { split; [|split; [simpl; lia|reflexivity]].
      right. exists [VInt 1; VInt 2]. split; [reflexivity|].
      apply Forall_cons. split; [by exists 1|].
      apply Forall_cons. split; [by exists 2|constructor]. }
    apply Forall_cons. split; [|constructor].
    split; [by exists 3|]. split; [simpl; lia|reflexivity].
  - simpl. repeat (apply NoDup_cons; split; [set_solver|]). apply NoDup_nil_2.
  - lia.
  - reflexivity.
  - exists l, ns, f. split; [exact Hnew|]. split; [exact Hfill|exact Hmem].
Defined.

(** X11. A record with a field that is not exported is built, but not
    filled.  Let the name of a field start with an ASCII character that is
    no upper-case letter (a lower-case letter or ['_']), so that the field
    is not exported, and let the field be of type [int] or [string]; let
    the fields before it have names that start with ['A'] to ['Z'].  Then
    [New] returns a list for the record, and [Fill] of that list into a
    pointer to a zero record of the same type panics (it sets a value
    reached through a field that is not exported). *)
Theorem unexported_field_panics (h : gmap Z value)
    (pre post : list (string * ty * value)) (name : string) (t : ty)
    (v : value) (fuel : nat) (a : Z) (mem0 : gmap Z value) (next : Z) :
  let rows := pre ++ (name, t, v) :: post in
  Forall (fun r => plain r.1.2 r.2 /\ (tdepth r.1.2 + 2 <= fuel)%nat) rows ->
  Forall (fun r => exported r.1.1 = true) pre ->
  NoDup (map (fun r => r.1.1) rows) ->
  scalar_type t -> ascii_initial name -> exported name = false ->
  (3 <= fuel)%nat ->
  mem0 !! a = Some (zero (struct_type rows)) ->
  exists l ns,
    New h fuel (Some (struct_value rows)) = Ok (l, ns) /\
    Fill ns fuel l (Some (TPtr (struct_type rows), VPtr (Some a))) mem0 next
      = Panic.
Proof.
  intros rows Hrows Hpre Hnd Hst _ Hex Hfuel Ha.
  destruct fuel as [|[|[|k]]]; [lia..|].
  destruct (New_rows h rows (S (S k))) as (ps & ns & Hnew & Hall).
  { eapply Forall_impl; [done|]. intros r (Hp & Hd). split; [done|lia]. }
  exists (Some ps), ns. split; [done|].
  rewrite Fill_record. simpl list_elems.
  apply Forall2_app_inv_r in Hall as (ps1 & ps2 & Hall1 & Hall2 & ->).
  apply Forall2_cons_inv_r in Hall2 as (p & ps2' & Hp & _ & ->).
  assert (Hv : plain t v).
  { apply Forall_app in Hrows as [_ Hr].
    by apply Forall_cons in Hr as [[Hv _] _]. }
  rewrite (structFromList_rows ns rows k a Hnd pre [] ((name, t, v) :: post)
             ps1 (p :: ps2') (newFiller mem0 next)); try done.
  - rewrite structFromList_cons.
    assert (Hnode : ns !! p = Some (mkNode "" (NIdent name (nval v)) None))
      by (unfold field_node in Hp; by destruct Hst as [-> | ->]).
    rewrite Hnode. cbn [of_option mbind result_bind Value].
    unfold FieldByName.
    assert (Hidx : field_index (map (fun r => (r.1.1, r.1.2)) rows) name
                   = Some (length pre, t)).
    { unfold rows. rewrite map_app. simpl.
      rewrite (field_index_middle (map (fun r => (r.1.1, r.1.2)) pre) name t),
        length_map; [done|].
      rewrite <- list_fmap_compose.
      unfold rows in Hnd. rewrite map_app in Hnd.
      apply NoDup_app in Hnd as (_ & Hd & _).
      intros Hin. apply (Hd name Hin). simpl. left. }
    rewrite Hidx. unfold struct_type.
    cbn [rv_ro orb app mbind result_bind]. rewrite Hex.
    cbn [negb orb app mbind result_bind].
    by rewrite (fromNode_field_scalar ns k p name t v true a
                  [SField (length pre)] _ Hst Hv Hnode).
  - apply Forall_app in Hrows as [Hr _].
    apply Forall_forall. intros r Hin. split.
    + by apply (proj1 (Forall_forall _ _) Hr r Hin).
    + by apply (proj1 (Forall_forall _ _) Hpre r Hin).
  - simpl. rewrite Ha, zero_struct_type. done.
Qed.

Lemma unexported_field_panics_witness :
  let rows := [("Name", TString, VString "a"); ("age", TInt, VInt 3)] in
  exists l ns,
    New ∅ 3 (Some (struct_value rows)) = Ok (l, ns) /\
    Fill ns 3 l (Some (TPtr (struct_type rows), VPtr (Some 1)))
         {[ 1 := zero (struct_type rows) ]} 2 = Panic.
Proof.
  intros rows.
  apply (unexported_field_panics ∅ [("Name", TString, VString "a")] []
           "age" TInt (VInt 3) 3 1 {[ 1 := zero (struct_type rows) ]} 2).
  - apply Forall_cons. split; [split; [by exists "a"|simpl; lia]|].
    apply Forall_cons. split; [split; [by exists 3|simpl; lia]|constructor].
  - apply Forall_cons. split; [reflexivity|constructor].
  - simpl. repeat (apply NoDup_cons; split; [set_solver|]). apply NoDup_nil_2.
  - by left.
  - by apply Nat.ltb_lt.
  - reflexivity.
  - lia.
  - reflexivity.
Defined.
(** ** Filling a slice that is not empty *)

Lemma fromNode_scalar_write ns k p e x ro a path f :
  scalar_type e -> repr ns e p x ->
  fromNode ns (S k) p (RLoc e ro a path) f = rv_set f (RLoc e ro a path) x.
Proof.
  intros [-> | ->] (n & -> & Hp); simpl; rewrite Hp; done.
Qed.

Lemma drop_shift {A} (back : list A) z n :
  drop n (tail (back ++ [z]) ++ replicate n z) =
  drop (S n) (back ++ replicate (S n) z).
Proof.
  change (replicate (S n) z) with ([z] ++ replicate n z).
  rewrite app_assoc.
  destruct (back ++ [z]) as [|b rest] eqn:E; [by destruct back|]. done.
Qed.

Lemma sliceFromList_loop_overwrite ns k e a :
  scalar_type e ->
  forall ps xs, Forall2 (repr ns e) ps xs ->
  forall front back f,
  mem f !! a = Some (VSlice (front ++ back)) ->
  sliceFromList_loop (fromNode ns (S k)) e (length front) ps
    (RLoc (TSlice e) false a []) f =
  Ok (set_mem f
        (<[a := VSlice (front ++ xs ++
                        drop (length xs)
                             (back ++ replicate (length xs) (zero e)))]>
           (mem f))).
Proof.
  intros Hst. induction 1 as [|p x ps xs Hr Hall IH]; intros front back f Hc.
  - simpl. rewrite app_nil_r. by rewrite set_mem_same.
  - rewrite sliceFromList_loop_S.
    cbn [rv_get read_path]. rewrite Hc.
    cbn [of_option mbind option_bind result_bind slice_elems rv_set write_path
         rv_index app].
    rewrite Hc. cbn [of_option mbind result_bind].
    set (f1 := set_mem f (<[a := VSlice ((front ++ back) ++ [zero e])]> (mem f))).
    rewrite (fromNode_scalar_write ns k p e x false a
               [SIndex (length front)] f1 Hst Hr).
    assert (Hc1 : mem f1 !! a = Some (VSlice ((front ++ back) ++ [zero e])))
      by (simpl; by rewrite lookup_insert_eq).
    unfold rv_set. rewrite Hc1. cbn [of_option mbind result_bind].
    destruct (back ++ [zero e]) as [|b rest] eqn:E; [by destruct back|].
    assert (Hw : write_path (VSlice ((front ++ back) ++ [zero e]))
                   [SIndex (length front)] x
                 = Some (VSlice ((front ++ [x]) ++ rest))).
    { rewrite <- app_assoc, E. simpl.
      rewrite list_lookup_middle by done. simpl.
      rewrite insert_app_r_alt, Nat.sub_diag by done. simpl.
      by rewrite <- app_assoc. }
    rewrite Hw. cbn [of_option mbind result_bind].
    unfold f1. rewrite set_mem_twice.
    set (f2 := set_mem f (<[a := VSlice ((front ++ [x]) ++ rest)]> (mem f))).
    assert (Hc2 : mem f2 !! a = Some (VSlice ((front ++ [x]) ++ rest)))
      by (simpl; by rewrite lookup_insert_eq).
    specialize (IH (front ++ [x]) rest f2 Hc2).
    rewrite length_app, Nat.add_1_r in IH. rewrite IH.
    unfold f2. rewrite set_mem_twice. do 3 f_equal.
    rewrite <- app_assoc. simpl. do 3 f_equal.
    assert (rest = tail (back ++ [zero e])) as -> by by rewrite E.
    f_equal. apply drop_shift.
Qed.

(** X12. [Fill] into a slice that has elements does not append to it and
    does not replace it.  For a destination of integers or of strings that
    holds the elements [ds], and a list of [n] nodes holding the values
    [xs], [Fill] succeeds and leaves a slice of [length ds + n] elements:
    the values [xs] at the indexes below [n] (over what was there), then
    the elements of [ds] from the index [n] on, then zero values. *)
Theorem Fill_overwrites_slice (ns : list Node) (e : ty) (ps : list nat)
    (xs ds : list value) (a : Z) (mem0 : gmap Z value) (next : Z) (k : nat) :
  scalar_type e ->
  Forall2 (repr ns e) ps xs ->
  mem0 !! a = Some (VSlice ds) ->
  exists f,
    Fill ns (S (S (S k))) (Some ps) (Some (TPtr (TSlice e), VPtr (Some a)))
         mem0 next = Ok f /\
    mem f = <[a := VSlice (xs ++ drop (length xs)
                                 (ds ++ replicate (length xs) (zero e)))]>
              mem0 /\
    length (xs ++ drop (length xs) (ds ++ replicate (length xs) (zero e)))
      = (length ds + length xs)%nat.
Proof.
  intros Hst Hall Ha. eexists. split; [|split].
  - unfold Fill.
    change (fromList ns (S (S (S k))) (Some ps)
              (RVal (TPtr (TSlice e)) false (VPtr (Some a)))
              (newFiller mem0 next))
      with ('(v', f) ← allocIndirect
                (RVal (TPtr (TSlice e)) false (VPtr (Some a)))
                (newFiller mem0 next);
            fromList ns (S (S k)) (Some ps) v' f).
    rewrite allocIndirect_pointer by done. cbn [mbind result_bind].
    change (fromList ns (S (S k)) (Some ps) (RLoc (TSlice e) false a [])
              (newFiller mem0 next))
      with (sliceFromList_loop (fromNode ns (S k)) e (length (@nil value)) ps
              (RLoc (TSlice e) false a []) (newFiller mem0 next)).
    by rewrite (sliceFromList_loop_overwrite ns k e a Hst ps xs Hall [] ds).
  - done.
  - rewrite length_app, length_drop, length_app, length_replicate. lia.
Qed.

Lemma Fill_overwrites_slice_witness :
  let ns := [mkNode "" (NInt 1) None; mkNode "" (NInt 2) None] in
  exists f,
    Fill ns 3 (Some [0; 1]%nat) (Some (TPtr (TSlice TInt), VPtr (Some 1)))
         {[ 1 := VSlice [VInt 7; VInt 8; VInt 9] ]} 2 = Ok f /\
    mem f = <[ 1 := VSlice [VInt 1; VInt 2; VInt 9; VInt 0; VInt 0] ]>
              {[ 1 := VSlice [VInt 7; VInt 8; VInt 9] ]}.
Proof.
  intros ns.
  destruct (Fill_overwrites_slice ns TInt [0; 1]%nat [VInt 1; VInt 2]
              [VInt 7; VInt 8; VInt 9] 1
              {[ 1 := VSlice [VInt 7; VInt 8; VInt 9] ]} 2 0)
    as (f & Hfill & Hmem & _).
  - by left.
  - constructor; [by exists 1|]. constructor; [by exists 2|constructor].
  - reflexivity.
  - exists f. split; [exact Hfill|exact Hmem].
Defined.
(** ** A nil pointer among the elements *)

Lemma fromNode_S_scalar ns k p t ro a path f :
  scalar_type t ->
  fromNode ns (S k) p (RLoc t ro a path) f =
  nd ← of_option (ns !! p); fromNode_scalar nd (RLoc t ro a path) f.
Proof. by intros [-> | ->]. Qed.

Lemma allocIndirect_ty_scalar e v f :
  scalar_type e -> allocIndirect_ty e v f = Ok (v, f).
Proof. by intros [-> | ->]. Qed.

(** X13. A nil pointer does not make the round trip.  For a nil pointer
    [m.node] allocates the empty node [&Node{}], so [New] on a slice that
    holds one nil pointer returns a list with that node.  Whenever the
    first node of a list is such a node, [Fill] into a pointer to a nil
    slice of pointers to integers (or to strings) panics: it allocates the
    element and then sets it from the value [nil] of the node. *)
Theorem nil_pointer_not_filled (h : gmap Z value) (ns : list Node) (p : nat)
    (l : list nat) (e : ty) (k : nat) (a : Z) (mem0 : gmap Z value)
    (next : Z) :
  ns !! p = Some (mkNode "" NNil None) ->
  scalar_type e ->
  mem0 !! a = Some VSliceNil ->
  (forall mk, node h (S k) (VPtr None) mk
              = Ok (alloc (mkNode "" NNil None) mk)) /\
  New h (S (S k)) (Some (VSlice [VPtr None]))
    = Ok (Some [0%nat], [mkNode "" NNil None]) /\
  Fill ns (S (S (S (S k)))) (Some (p :: l))
       (Some (TPtr (TSlice (TPtr e)), VPtr (Some a))) mem0 next = Panic.
Proof.
  intros Hp Hst Ha. split; [done|]. split; [done|]. unfold Fill.
  change (fromList ns (S (S (S (S k)))) (Some (p :: l))
            (RVal (TPtr (TSlice (TPtr e))) false (VPtr (Some a)))
            (newFiller mem0 next))
    with ('(v', f) ← allocIndirect
              (RVal (TPtr (TSlice (TPtr e))) false (VPtr (Some a)))
              (newFiller mem0 next);
          fromList ns (S (S (S k))) (Some (p :: l)) v' f).
  rewrite allocIndirect_pointer by done. cbn [mbind result_bind].
  change (fromList ns (S (S (S k))) (Some (p :: l))
            (RLoc (TSlice (TPtr e)) false a []) (newFiller mem0 next))
    with (sliceFromList_loop (fromNode ns (S (S k))) (TPtr e) 0 (p :: l)
            (RLoc (TSlice (TPtr e)) false a []) (newFiller mem0 next)).
  rewrite sliceFromList_loop_S.
  cbn [rv_get read_path newFiller mem]. rewrite Ha.
  cbn [of_option mbind option_bind result_bind slice_elems rv_set write_path
       rv_index app newFiller mem]. rewrite Ha.
  cbn [of_option mbind result_bind zero app].
  set (f1 := set_mem _ _).
  change (fromNode ns (S (S k)) p (RLoc (TPtr e) false a [SIndex 0]) f1)
    with (nd ← of_option (ns !! p);
          ptrFromNode (fromNode ns (S k)) nd p
            (RLoc (TPtr e) false a [SIndex 0]) f1).
  rewrite Hp. cbn [of_option mbind result_bind].
  unfold ptrFromNode. cbn [Label Value String.eqb negb].
  unfold allocIndirect. cbn [rv_type allocIndirect_ty].
  assert (Hget : rv_get f1 (RLoc (TPtr e) false a [SIndex 0])
                 = Some (VPtr None))
    by (simpl; by rewrite lookup_insert_eq).
  rewrite Hget. cbn [of_option mbind result_bind new_cell].
  unfold rv_set.
  match goal with
  | |- context [of_option (?m !! a)] => destruct (m !! a) as [c|]; [|done]
  end.
  cbn [of_option mbind result_bind].
  match goal with
  | |- context [of_option (write_path c ?q ?y)] =>
      destruct (write_path c q y) as [c'|]; [|done]
  end.
  cbn [of_option mbind result_bind rv_ro].
  rewrite allocIndirect_ty_scalar by done. cbn [mbind result_bind].
  rewrite fromNode_S_scalar by done. rewrite Hp.
  by destruct Hst as [-> | ->].
Qed.

Lemma nil_pointer_not_filled_witness :
  exists l ns,
    New ∅ 2 (Some (VSlice [VPtr None])) = Ok (Some l, ns) /\
    Fill ns 4 (Some l) (Some (TPtr (TSlice (TPtr TInt)), VPtr (Some 1)))
         {[ 1 := VSliceNil ]} 2 = Panic.
Proof.
  exists [0%nat], [mkNode "" NNil None].
  destruct (nil_pointer_not_filled ∅ [mkNode "" NNil None] 0 [] TInt 0 1
              {[ 1 := VSliceNil ]} 2) as (_ & Hnew & Hfill).
  - reflexivity.
  - by left.
  - reflexivity.
  - split; [exact Hnew|exact Hfill].
Defined.

(** ** A record where a node is built *)

Lemma listFromSlice_loop_error nd x post msg pre : forall mk ps mk1,
  listFromSlice_loop nd pre mk = Ok (ps, mk1) ->
  nd x mk1 = Error msg ->
  listFromSlice_loop nd (pre ++ x :: post) mk = Error msg.
Proof.
  induction pre as [|y pre IH]; intros mk ps mk1 Hpre Herr; simpl in *.
  - injection Hpre as <- <-. by rewrite Herr.
  - destruct (nd y mk) as [[n mk']| | |]; try done.
    cbn [mbind result_bind] in *.
    destruct (listFromSlice_loop nd pre mk') as [[l' mk'']| | |] eqn:E;
      try done.
    cbn [mbind result_bind] in Hpre. injection Hpre as <- <-.
    by rewrite (IH _ _ _ E Herr).
Qed.

Lemma listFromStruct_loop_error nd name x post msg pre : forall mk ps mk1,
  listFromStruct_loop nd pre mk = Ok (ps, mk1) ->
  nd x mk1 = Error msg ->
  listFromStruct_loop nd (pre ++ (name, x) :: post) mk = Error msg.
Proof.
  induction pre as [|[k y] pre IH]; intros mk ps mk1 Hpre Herr; simpl in *.
  - injection Hpre as <- <-. by rewrite Herr.
  - destruct (nd y mk) as [[n mk']| | |]; try done.
    cbn [mbind result_bind] in *.
    destruct (nodes mk' !! n) as [node0|]; [|done].
    cbn [of_option mbind result_bind] in *.
    match type of Hpre with
    | context [listFromStruct_loop nd pre ?mk2] =>
        destruct (listFromStruct_loop nd pre mk2) as [[l' mk'']| | |] eqn:E;
          try done
    end.
    cbn [mbind result_bind] in Hpre. injection Hpre as <- <-.
    by rewrite (IH _ _ _ E Herr).
Qed.

Lemma node_record_inside h x f mk :
  record_inside h x -> m mk = ∅ ->
  node h (S (S f)) x mk = Error "node: unsupported type".
Proof.
  intros [[fs ->]|(a & fs & -> & Ha)] Hm; [done|].
  change (node h (S (S f)) (VPtr (Some a)) mk)
    with (nodeFromPtr h (node h (S f)) (S f) (Some a) mk).
  unfold nodeFromPtr, label. rewrite Hm, lookup_empty.
  cbn [mbind result_bind]. rewrite indirect_S, Ha.
  cbn [of_option mbind result_bind].
  by destruct f.
Qed.

(** X14. A record is handled at the top only.  [m.node] has no case for
    the kind [Struct]: when a slice holds a record, or a pointer to one,
    after elements built from integers, strings and slices, and when a
    record holds one in a field after such fields, [New] returns the error
    "node: unsupported type". *)
Theorem nested_record_refused (h : gmap Z value) (x : value) (e : ty)
    (pre post : list value) (rows : list (string * ty * value))
    (name : string) (later : list (string * value)) (fuel : nat) :
  record_inside h x ->
  Forall (plain e) pre ->
  Forall (field_ok (fuel - 1)) rows ->
  (tdepth e + 3 <= fuel)%nat ->
  New h fuel (Some (VSlice (pre ++ x :: post)))
    = Error "node: unsupported type" /\
  New h fuel (Some (VStruct (map (fun r => (r.1.1, r.2)) rows
                             ++ (name, x) :: later)))
    = Error "node: unsupported type".
Proof.
  intros Hx Hpre Hrows Hfuel.
  destruct fuel as [|[|[|f]]]; [lia..|]. split.
  - destruct (listFromSlice_loop_plain h e (S (S f)) pre (node_plain h e)
                ltac:(lia) Hpre newMaker) as (ps & new & Hl & _).
    unfold New.
    change (list_ h (S (S (S f))) (VSlice (pre ++ x :: post)) newMaker)
      with (listFromSlice (node h (S (S f))) (pre ++ x :: post) newMaker).
    unfold listFromSlice.
    rewrite (listFromSlice_loop_error _ x post "node: unsupported type"
               pre _ _ _ Hl); [done|].
    by apply node_record_inside.
  - replace (S (S (S f)) - 1)%nat with (S (S f)) in Hrows by lia.
    destruct (listFromStruct_loop_rows h (S (S f)) rows newMaker Hrows)
      as (ps & new & Hl & _).
    unfold New.
    change (list_ h (S (S (S f)))
              (VStruct (map (fun r => (r.1.1, r.2)) rows ++ (name, x) :: later))
              newMaker)
      with (listFromStruct (node h (S (S f)))
              (map (fun r => (r.1.1, r.2)) rows ++ (name, x) :: later)
              newMaker).
    unfold listFromStruct.
    rewrite (listFromStruct_loop_error _ name x later
               "node: unsupported type" _ _ _ _ Hl); [done|].
    by apply node_record_inside.
Qed.

Lemma nested_record_refused_witness :
  let h : gmap Z value := {[ 5 := VStruct [("A", VInt 1)] ]} in
  New h 4 (Some (VSlice [VInt 1; VPtr (Some 5)]))
    = Error "node: unsupported type" /\
  New h 4 (Some (VStruct [("N", VInt 1); ("Inner", VStruct [("A", VInt 1)])]))
    = Error "node: unsupported type".
Proof.
  intros h. split.
  - apply (nested_record_refused h (VPtr (Some 5)) TInt [VInt 1] [] []
             "x" [] 4).
    + right. by exists 5, [("A", VInt 1)].
    + apply Forall_cons. split; [by exists 1|constructor].
    + constructor.
    + simpl. lia.
  - apply (nested_record_refused h (VStruct [("A", VInt 1)]) TInt [] []
             [("N", TInt, VInt 1)] "Inner" [] 4).
    + left. by eexists.
    + constructor.
    + apply Forall_cons. split; [|constructor].
      split; [by exists 1|simpl; lia].
    + simpl. lia.
Defined.
(** ** One target behind every element of a slice *)

Lemma Itoa_1 : Itoa 1 = "1".
Proof. reflexivity. Qed.

Lemma node_S_ptr h F t mk :
  node h (S F) (VPtr t) mk = nodeFromPtr h (node h F) F t mk.
Proof. done. Qed.

Lemma node_scalar h f e x mk :
  scalar_type e -> plain e x ->
  node h (S f) x mk = Ok (alloc (mkNode "" (nval x) None) mk).
Proof. by intros [-> | ->] [n ->]. Qed.

Lemma indirect_scalar h f e x :
  scalar_type e -> plain e x -> indirect h f x = Ok x.
Proof. intros [-> | ->] [n ->]; by destruct f. Qed.

Lemma fromNode_scalar_nval e x l v f :
  scalar_type e -> plain e x -> rv_type v = e ->
  fromNode_scalar (mkNode l (nval x) None) v f = rv_set f v x.
Proof.
  intros [-> | ->] [n ->] Hv; unfold fromNode_scalar, set_interface; simpl;
    by rewrite Hv.
Qed.

Lemma rv_set_ok f t a p c y c' :
  mem f !! a = Some c -> write_path c p y = Some c' ->
  rv_set f (RLoc t false a p) y = Ok (set_mem f (<[a := c']> (mem f))).
Proof. intros Hc Hw. unfold rv_set. by rewrite Hc; simpl; rewrite Hw. Qed.

Lemma ty_eqb_scalar e : scalar_type e -> ty_eqb e e = true.
Proof. by intros [-> | ->]. Qed.

Section shared.

Context (h : gmap Z value) (p : Z) (e : ty) (x : value).
Hypothesis Hp : h !! p = Some x.
Hypothesis He : scalar_type e.
Hypothesis Hx : plain e x.

Lemma node_labelled f mk :
  m mk !! p = Some 0%nat -> nodes mk !! 0%nat = Some (target_node x) ->
  node h (S (S f)) (VPtr (Some p)) mk = Ok (alloc again_node mk).
Proof.
  intros Hm Hn. rewrite node_S_ptr. unfold nodeFromPtr, label.
  rewrite Hm, Hn. done.
Qed.

Lemma listFromSlice_loop_labelled f j : forall mk,
  m mk !! p = Some 0%nat -> nodes mk !! 0%nat = Some (target_node x) ->
  listFromSlice_loop (node h (S (S f))) (replicate j (VPtr (Some p))) mk =
  Ok (seq (length (nodes mk)) j,
      mkMaker (m mk) (serial mk) (nodes mk ++ replicate j again_node)).
Proof.
  induction j as [|j IH]; intros mk Hm Hn.
  - simpl. rewrite app_nil_r. by destruct mk.
  - cbn [replicate listFromSlice_loop]. rewrite (node_labelled f mk Hm Hn).
    cbn [alloc mbind result_bind].
    rewrite IH; [|done|by apply lookup_app_l_Some].
    cbn [mbind result_bind nodes m serial].
    rewrite length_app, Nat.add_1_r, <- app_assoc. done.
Qed.

(** The first pointer: the target gets its node.  The second pointer: that
    node gets the label. *)
Lemma node_first f mk :
  m mk !! p = None ->
  node h (S (S f)) (VPtr (Some p)) mk =
  Ok (length (nodes mk),
      mkMaker (<[p := length (nodes mk)]> (m mk)) (serial mk)
              (nodes mk ++ [mkNode "" (nval x) None])).
Proof.
  intros Hm. rewrite node_S_ptr. unfold nodeFromPtr, label. rewrite Hm.
  cbn [mbind result_bind]. rewrite indirect_S, Hp.
  cbn [of_option mbind result_bind].
  rewrite (indirect_scalar h f e x He Hx). cbn [mbind result_bind].
  by rewrite (node_scalar h f e x _ He Hx).
Qed.

Lemma node_second f mk :
  m mk !! p = Some 0%nat -> nodes mk = [mkNode "" (nval x) None] ->
  serial mk = 1 ->
  node h (S (S f)) (VPtr (Some p)) mk =
  Ok (1%nat, mkMaker (m mk) 2 [target_node x; again_node]).
Proof.
  intros Hm Hn Hs. rewrite node_S_ptr. unfold nodeFromPtr, label.
  rewrite Hm, Hn, Hs. cbn [lookup list_lookup of_option mbind result_bind
                           Label String.eqb].
  rewrite Itoa_1. done.
Qed.

(** What [New] returns for a slice of [n + 2] pointers to one target. *)
Lemma New_shared f n :
  New h (S (S (S f))) (Some (VSlice (replicate (S (S n)) (VPtr (Some p))))) =
  Ok (Some (seq 0 (S (S n))), target_node x :: replicate (S n) again_node).
Proof.
  unfold New.
  change (list_ h (S (S (S f))) (VSlice (replicate (S (S n)) (VPtr (Some p))))
            newMaker)
    with (listFromSlice (node h (S (S f)))
            (replicate (S (S n)) (VPtr (Some p))) newMaker).
  unfold listFromSlice.
  change (replicate (S (S n)) (VPtr (Some p)))
    with (VPtr (Some p) :: VPtr (Some p) :: replicate n (VPtr (Some p))).
  cbn [listFromSlice_loop].
  rewrite (node_first f newMaker) by apply lookup_empty.
  cbn [mbind result_bind].
  rewrite (node_second f) by (done || apply lookup_insert_eq).
  cbn [mbind result_bind].
  rewrite listFromSlice_loop_labelled;
    [done|cbn [m newMaker nodes length]; apply lookup_insert_eq|done].
Qed.

Context (a next : Z) (mem0 : gmap Z value).
Hypothesis Ha : mem0 !! a = Some VSliceNil.
Hypothesis Hne : a <> next.

(** The loop of [sliceFromList] over the nodes of the further pointers:
    every new element is set to the pointer the first element holds. *)
Lemma sliceFromList_loop_shared ns k b j : forall i f,
  (forall t, (i <= t < i + j)%nat -> ns !! t = Some again_node) ->
  (1 <= i)%nat ->
  fm f !! "1" = Some (RLoc (TPtr e) false a [SIndex 0]) ->
  mem f !! a = Some (VSlice (replicate i (VPtr (Some b)))) ->
  sliceFromList_loop (fromNode ns (S k)) (TPtr e) i (seq i j)
    (RLoc (TSlice (TPtr e)) false a []) f =
  Ok (set_mem f (<[a := VSlice (replicate (i + j) (VPtr (Some b)))]> (mem f))).
Proof.
  induction j as [|j IH]; intros i f Hns Hi Hfm Hc.
  - simpl. rewrite Nat.add_0_r. by rewrite set_mem_same.
  - cbn [seq]. rewrite sliceFromList_loop_S.
    cbn [rv_get read_path]. rewrite Hc.
    cbn [of_option mbind option_bind result_bind slice_elems rv_index app].
    rewrite (rv_set_ok f _ a [] _ _ _ Hc eq_refl).
    cbn [mbind result_bind zero].
    set (f1 := set_mem f _).
    assert (Hc1 : mem f1 !! a =
              Some (VSlice (replicate i (VPtr (Some b)) ++ [VPtr None])))
      by (simpl; by rewrite lookup_insert_eq).
    change (fromNode ns (S k) i (RLoc (TPtr e) false a [SIndex i]) f1)
      with (nd ← of_option (ns !! i);
            ptrFromNode (fromNode ns k) nd i
              (RLoc (TPtr e) false a [SIndex i]) f1).
    rewrite (Hns i) by lia. cbn [of_option mbind result_bind].
    unfold ptrFromNode. cbn [again_node Label Value String.eqb negb].
    assert (fm f1 !! "1" = Some (RLoc (TPtr e) false a [SIndex 0])) as -> by done.
    cbn [of_option mbind result_bind rv_ro rv_type orb ty_eqb].
    rewrite (ty_eqb_scalar e He). cbn [negb].
    assert (Hget : rv_get f1 (RLoc (TPtr e) false a [SIndex 0]) = Some (VPtr (Some b))).
    { simpl. rewrite lookup_insert_eq. simpl.
      destruct i as [|i]; [lia|]. done. }
    rewrite Hget. cbn [of_option mbind result_bind].
    assert (Hw : write_path (VSlice (replicate i (VPtr (Some b)) ++ [VPtr None]))
                   [SIndex i] (VPtr (Some b))
                 = Some (VSlice (replicate (S i) (VPtr (Some b))))).
    { simpl. rewrite lookup_app_r, length_replicate, Nat.sub_diag
        by (by rewrite length_replicate).
      simpl. rewrite insert_app_r_alt, length_replicate, Nat.sub_diag
        by (by rewrite length_replicate).
      simpl. by rewrite <- replicate_cons_app. }
    rewrite (rv_set_ok f1 _ a [SIndex i] _ _ _ Hc1 Hw).
    cbn [mbind result_bind]. unfold f1. rewrite set_mem_twice.
    set (f2 := set_mem f _).
    rewrite (IH (S i) f2); [| |lia|done|by (simpl; rewrite lookup_insert_eq)].
    + unfold f2. rewrite set_mem_twice.
      by replace (S i + j)%nat with (i + S j)%nat by lia.
    + intros t Ht. apply Hns. lia.
Qed.

(** [Fill] of the list [New_shared] gives, into a pointer to a nil slice of
    pointers. *)
Lemma Fill_shared k n :
  exists f,
    Fill (target_node x :: replicate (S n) again_node) (S (S (S (S k))))
         (Some (seq 0 (S (S n))))
         (Some (TPtr (TSlice (TPtr e)), VPtr (Some a))) mem0 next = Ok f /\
    mem f !! a = Some (VSlice (replicate (S (S n)) (VPtr (Some next)))) /\
    mem f !! next = Some x /\
    (forall c, c <> a -> c <> next -> mem f !! c = mem0 !! c).
Proof.
  set (ns := target_node x :: replicate (S n) again_node).
  unfold Fill.
  change (fromList ns (S (S (S (S k)))) (Some (seq 0 (S (S n))))
            (RVal (TPtr (TSlice (TPtr e))) false (VPtr (Some a)))
            (newFiller mem0 next))
    with ('(v', f) ← allocIndirect
              (RVal (TPtr (TSlice (TPtr e))) false (VPtr (Some a)))
              (newFiller mem0 next);
          fromList ns (S (S (S k))) (Some (seq 0 (S (S n)))) v' f).
  rewrite allocIndirect_pointer by done. cbn [mbind result_bind].
  change (fromList ns (S (S (S k))) (Some (seq 0 (S (S n))))
            (RLoc (TSlice (TPtr e)) false a []) (newFiller mem0 next))
    with (sliceFromList_loop (fromNode ns (S (S k))) (TPtr e) 0
            (0%nat :: seq 1 (S n))
            (RLoc (TSlice (TPtr e)) false a []) (newFiller mem0 next)).
  rewrite sliceFromList_loop_S.
  (* the first element: a new cell for the target *)
  cbn [rv_get read_path newFiller mem]. rewrite Ha.
  cbn [of_option mbind option_bind result_bind slice_elems rv_index app].
  rewrite (rv_set_ok (newFiller mem0 next) _ a [] _ _ _ Ha eq_refl).
  cbn [mbind result_bind zero].
  set (f1 := set_mem _ _).
  change (fromNode ns (S (S k)) 0 (RLoc (TPtr e) false a [SIndex 0]) f1)
    with (ptrFromNode (fromNode ns (S k)) (target_node x) 0
            (RLoc (TPtr e) false a [SIndex 0]) f1).
  unfold ptrFromNode. cbn [target_node Label Value String.eqb negb].
  set (f2 := fregister "1" (RLoc (TPtr e) false a [SIndex 0]) f1).
  unfold allocIndirect. cbn [rv_type allocIndirect_ty].
  assert (Hc2 : mem f2 !! a = Some (VSlice [VPtr None]))
    by (simpl; by rewrite lookup_insert_eq).
  assert (Hget : rv_get f2 (RLoc (TPtr e) false a [SIndex 0])
                 = Some (VPtr None))
    by (unfold rv_get; by rewrite Hc2).
  rewrite Hget. cbn [of_option mbind result_bind new_cell].
  set (f3 := mkFiller (fm f2) (<[next_addr f2 := zero e]> (mem f2))
               (next_addr f2 + 1) (out f2)).
  assert (Hc3 : mem f3 !! a = Some (VSlice [VPtr None])).
  { unfold f3. cbn [mem]. rewrite lookup_insert_ne by (simpl; congruence).
    done. }
  rewrite (rv_set_ok f3 _ a [SIndex 0] _ (VPtr (Some (next_addr f2)))
             (VSlice [VPtr (Some (next_addr f2))]) Hc3 eq_refl).
  cbn [mbind result_bind rv_ro].
  rewrite (allocIndirect_ty_scalar e _ _ He). cbn [mbind result_bind].
  set (f4 := set_mem f3 _).
  rewrite (fromNode_S_scalar ns k 0 e false (next_addr f2) [] f4 He).
  change (ns !! 0%nat) with (Some (target_node x)).
  cbn [of_option mbind result_bind].
  unfold target_node at 1.
  rewrite (fromNode_scalar_nval e x "1" (RLoc e false (next_addr f2) []) f4
             He Hx eq_refl).
  assert (Hc4 : mem f4 !! next = Some (zero e)).
  { unfold f4, f3. simpl. rewrite lookup_insert_ne by congruence.
    by rewrite lookup_insert_eq. }
  rewrite (rv_set_ok f4 _ (next_addr f2) [] _ x x Hc4 eq_refl).
  cbn [mbind result_bind].
  set (f5 := set_mem f4 _).
  (* the other elements *)
  assert (Hc5 : mem f5 !! a = Some (VSlice (replicate 1 (VPtr (Some next))))).
  { unfold f5, f4. simpl. rewrite lookup_insert_ne by congruence.
    by rewrite lookup_insert_eq. }
  rewrite (sliceFromList_loop_shared ns (S k) next (S n) 1 f5);
    [| |lia|done|done].
  - eexists. split; [done|]. cbn [mem set_mem].
    split; [by rewrite lookup_insert_eq|]. split.
    + rewrite lookup_insert_ne by congruence.
      unfold f5. simpl. by rewrite lookup_insert_eq.
    + intros c Hca Hcn. rewrite lookup_insert_ne by congruence.
      unfold f5, f4, f3, f2, f1. simpl.
      by rewrite !lookup_insert_ne by congruence.
  - intros t Ht. unfold ns.
    destruct t as [|t]; [lia|].
    change ((target_node x :: replicate (S n) again_node) !! S t)
      with (replicate (S n) again_node !! t).
    apply lookup_replicate_2. lia.
Qed.

End shared.

(** X15. Among the elements of a slice a shared target is restored.  For
    a slice of two or more pointers that all hold the address of one
    integer (or string), [New] labels the node of the first pointer and
    makes every other node a reference to that label; [Fill] of the list
    into a pointer to a nil slice of pointers allocates one new cell,
    sets it to the integer, and makes every element the pointer to that
    one cell.  No other cell of the destination heap changes. *)
Theorem shared_slice_elements_restored (h : gmap Z value) (p : Z) (e : ty)
    (x : value) (n k : nat) (a next : Z) (mem0 : gmap Z value) :
  h !! p = Some x -> scalar_type e -> plain e x ->
  mem0 !! a = Some VSliceNil -> a <> next ->
  let l := Some (seq 0 (S (S n))) in
  let ns := target_node x :: replicate (S n) again_node in
  New h (S (S (S k))) (Some (VSlice (replicate (S (S n)) (VPtr (Some p)))))
    = Ok (l, ns) /\
  exists f,
    Fill ns (S (S (S (S k)))) l (Some (TPtr (TSlice (TPtr e)), VPtr (Some a)))
         mem0 next = Ok f /\
    mem f !! a = Some (VSlice (replicate (S (S n)) (VPtr (Some next)))) /\
    mem f !! next = Some x /\
    (forall c, c <> a -> c <> next -> mem f !! c = mem0 !! c).
Proof.
  intros Hp He Hx Ha Hne l ns.
  split; [by apply (New_shared h p e x Hp He Hx)|].
  destruct (Fill_shared e x He Hx a next mem0 Ha Hne k n) as (f & Hf & Hm).
  by exists f.
Qed.

Lemma shared_slice_elements_restored_witness :
  exists l ns f,
    New {[ 7 := VInt 5 ]} 3 (Some (VSlice (replicate 3 (VPtr (Some 7)))))
      = Ok (l, ns) /\
    ns = [mkNode "1" (NInt 5) None; mkNode "" (NLabel "1") None;
          mkNode "" (NLabel "1") None] /\
    Fill ns 4 l (Some (TPtr (TSlice (TPtr TInt)), VPtr (Some 1)))
         {[ 1 := VSliceNil ]} 2 = Ok f /\
    mem f !! 1 = Some (VSlice [VPtr (Some 2); VPtr (Some 2); VPtr (Some 2)]) /\
    mem f !! 2 = Some (VInt 5).
Proof.
  destruct (shared_slice_elements_restored {[ 7 := VInt 5 ]} 7 TInt (VInt 5)
              1 0 1 2 {[ 1 := VSliceNil ]})
    as (Hnew & f & Hfill & Ha & Hn & _).
  - reflexivity.
  - by left.
  - by exists 5.
  - reflexivity.
  - discriminate.
  - eexists _, _, f. split; [exact Hnew|]. split; [reflexivity|].
    split; [exact Hfill|]. split; [exact Ha|exact Hn].
Defined.
(** ** [Fill] and then [New] again *)

(** On a value built from integers, strings and slices, [m.node] and
    [m.list] do not look at the heap and do not tell a nil slice from an
    empty one. *)
Lemma listFromSlice_loop_ext nd1 nd2 (f : value -> value) es :
  Forall (fun x => forall mk, nd1 (f x) mk = nd2 x mk) es ->
  forall mk, listFromSlice_loop nd1 (map f es) mk = listFromSlice_loop nd2 es mk.
Proof.
  induction 1 as [|y ys Hy Hys IH]; intros mk; [done|].
  simpl. rewrite Hy. destruct (nd2 y mk) as [[n mk']| | |]; try done.
  cbn [mbind result_bind]. by rewrite IH.
Qed.

Lemma node_nilify h1 h2 t : forall v f mk,
  plain t v -> node h1 f (nilify v) mk = node h2 f v mk.
Proof.
  induction t as [| |e IH|fs|e _|]; intros v f mk Hv; simpl in Hv; try done.
  - destruct Hv as [n ->]. by destruct f.
  - destruct Hv as [s ->]. by destruct f.
  - destruct Hv as [-> | (es & -> & Hall)]; [by destruct f as [|[|f]]|].
    destruct es as [|x es]; [by destruct f as [|[|f]]|].
    change (nilify (VSlice (x :: es))) with (VSlice (map nilify (x :: es))).
    destruct f as [|[|f]]; [done..|].
    rewrite !node_S_slice by eauto.
    change (list_ h1 (S f) (VSlice (map nilify (x :: es))) mk)
      with (listFromSlice (node h1 f) (map nilify (x :: es)) mk).
    change (list_ h2 (S f) (VSlice (x :: es)) mk)
      with (listFromSlice (node h2 f) (x :: es) mk).
    unfold listFromSlice.
    rewrite (listFromSlice_loop_ext (node h1 f) (node h2 f) nilify (x :: es));
      [done|].
    eapply Forall_impl; [done|]. intros y Hy mk0. by apply IH.
Qed.

Lemma list_nilify h1 h2 t v f mk :
  plain t v -> list_ h1 f (nilify v) mk = list_ h2 f v mk.
Proof.
  intros Hv. destruct f as [|f]; [done|].
  destruct t as [| |e|fs|e|]; simpl in Hv; try done.
  - destruct Hv as [n ->]. by destruct f.
  - destruct Hv as [s ->]. by destruct f.
  - destruct Hv as [-> | (es & -> & Hall)]; [done|].
    destruct es as [|x es]; [done|].
    change (nilify (VSlice (x :: es))) with (VSlice (map nilify (x :: es))).
    change (listFromSlice (node h1 f) (map nilify (x :: es)) mk
            = listFromSlice (node h2 f) (x :: es) mk).
    unfold listFromSlice.
    rewrite (listFromSlice_loop_ext (node h1 f) (node h2 f) nilify (x :: es));
      [done|].
    eapply Forall_impl; [done|]. intros y Hy mk0.
    by apply (node_nilify h1 h2 e).
Qed.

Lemma nilify_not_pointer t v :
  plain t v -> forall h f, indirect h f (nilify v) = Ok (nilify v).
Proof.
  destruct t as [| |e|fs|e|]; simpl; try done.
  - intros [n ->] h f. by destruct f.
  - intros [s ->] h f. by destruct f.
  - intros [-> | (es & -> & _)] h f; [by destruct f|].
    destruct es; by destruct f.
Qed.

(** What [Fill] makes of the list of a plain value. *)
Lemma Fill_plain ns t v ps fuel a mem0 next :
  plain t v -> (tdepth t + 2 <= fuel)%nat ->
  mem0 !! a = Some (zero t) ->
  match t with
  | TSlice e =>
      exists es, slice_elems v = Some es /\ Forall2 (repr ns e) ps es
  | _ => exists p, ps = [p] /\ repr ns t p v
  end ->
  exists f,
    Fill ns fuel (Some ps) (Some (TPtr t, VPtr (Some a))) mem0 next = Ok f /\
    mem f = <[a := nilify v]> mem0.
Proof.
  intros Hv Hf Ha Hr.
  unfold Fill. destruct fuel as [|[|k]]; [lia..|].
  set (f0 := newFiller mem0 next).
  assert (Hnp : forall e, t <> TPtr e) by (intros e ->; done).
  assert (Hstep : fromList ns (S (S k)) (Some ps)
            (RVal (TPtr t) false (VPtr (Some a))) f0 =
          fromList ns (S k) (Some ps) (RLoc t false a []) f0).
  { change (fromList ns (S (S k)) (Some ps)
              (RVal (TPtr t) false (VPtr (Some a))) f0)
      with ('(v', f) ← allocIndirect (RVal (TPtr t) false (VPtr (Some a))) f0;
            fromList ns (S k) (Some ps) v' f).
    by rewrite allocIndirect_pointer. }
  rewrite Hstep.
  destruct t as [| |e|fs|e|]; simpl in Hv; try done.
  - destruct Hr as (p & -> & Hrp).
    destruct (fromNode_plain ns TInt v p Hrp k a [] f0 (zero TInt)
                ltac:(simpl in *; lia) Ha eq_refl) as (c' & Hw & Hfn).
    simpl in Hw. injection Hw as <-.
    exists (set_mem f0 (<[a := nilify v]> (mem f0))). split; [|done].
    simpl in Hfn |- *. done.
  - destruct Hr as (p & -> & Hrp).
    destruct (fromNode_plain ns TString v p Hrp k a [] f0 (zero TString)
                ltac:(simpl in *; lia) Ha eq_refl) as (c' & Hw & Hfn).
    simpl in Hw. injection Hw as <-.
    exists (set_mem f0 (<[a := nilify v]> (mem f0))). split; [|done].
    simpl in Hfn |- *. done.
  - destruct Hr as (es & Hse & Hall).
    destruct (sliceFromList_loop_plain ns e k a [] (fromNode_plain ns e)
                ltac:(simpl in *; lia) ps es Hall [] VSliceNil f0 VSliceNil
                Ha eq_refl eq_refl) as (c' & Hw & Hloop).
    simpl in Hw. injection Hw as <-.
    exists (set_mem f0 (<[a := nilify v]> (mem f0))). split; [|done].
    rewrite (nilify_slice v es Hse).
    simpl in Hloop |- *. unfold sliceFromList. rewrite Hloop.
    by destruct es.
Qed.

(** X16. The property the test of the package checks: [Fill] and then
    [New] give the list back.  For a value built from integers, strings and
    slices, [New] returns a list; [Fill] of it into a pointer to a zero
    destination succeeds; and [New] of that pointer, which looks through
    the pointer, returns the very same list with the very same nodes.  This
    holds also where the destination is not deeply equal to the value,
    because [New] builds the same nodes for a nil slice and for an empty
    one. *)
Theorem fill_then_new (h : gmap Z value) (t : ty) (v : value) (fuel : nat)
    (a : Z) (mem0 : gmap Z value) (next : Z) :
  plain t v ->
  (tdepth t + 2 <= fuel)%nat ->
  mem0 !! a = Some (zero t) ->
  exists l ns f,
    New h fuel (Some v) = Ok (l, ns) /\
    Fill ns fuel l (Some (TPtr t, VPtr (Some a))) mem0 next = Ok f /\
    New (mem f) (S fuel) (Some (VPtr (Some a))) = Ok (l, ns).
Proof.
  intros Hv Hf Ha.
  destruct (list_plain h t v fuel Hv ltac:(lia)) as (ps & ns & Hl & Hr).
  destruct (Fill_plain ns t v ps fuel a mem0 next Hv Hf Ha Hr)
    as (f & Hfill & Hmem).
  assert (Hnew : New h fuel (Some v) = Ok (Some ps, ns))
    by (unfold New; by rewrite Hl).
  exists (Some ps), ns, f. split; [done|]. split; [done|].
  unfold New. destruct fuel as [|k]; [lia|].
  rewrite list_S_ptr, indirect_S, Hmem, lookup_insert_eq.
  cbn [of_option mbind result_bind].
  rewrite (nilify_not_pointer t v Hv). cbn [mbind result_bind].
  by rewrite (list_nilify (<[a:=nilify v]> mem0) h t v (S k) newMaker Hv), Hl.
Qed.

Lemma fill_then_new_witness :
  let t := TSlice (TSlice TInt) in
  let v := VSlice [VSlice []; VSlice [VInt 1]] in
  exists l ns f,
    New ∅ 7 (Some v) = Ok (l, ns) /\
    Fill ns 7 l (Some (TPtr t, VPtr (Some 1))) {[ 1 := zero t ]} 2 = Ok f /\
    mem f !! 1 = Some (VSlice [VSliceNil; VSlice [VInt 1]]) /\
    New (mem f) 8 (Some (VPtr (Some 1))) = Ok (l, ns).
Proof.
  intros t v.
  destruct (fill_then_new ∅ t v 7 1 {[ 1 := zero t ]} 2)
    as (l & ns & f & Hnew & Hfill & Hagain).
  - right. exists [VSlice []; VSlice [VInt 1]]. split; [reflexivity|].
    apply Forall_cons. split.
    + right. exists []. split; [reflexivity|constructor].
    + apply Forall_cons. split; [|constructor].
      right. exists [VInt 1]. split; [reflexivity|].
      apply Forall_cons. split; [by exists 1|constructor].
  - simpl. lia.
  - reflexivity.
  - exists l, ns, f. split; [exact Hnew|]. split; [exact Hfill|].
    split; [|exact Hagain].
    vm_compute in Hnew. injection Hnew as <- <-.
    vm_compute in Hfill. by injection Hfill as <-.
Defined.

(** ** A witness for the end of [New] on values without cycle *)

(** ** A destination behind two pointers *)

(** X17. [Fill] goes to the destination through every pointer, and
    allocates what a nil pointer on the way lacks.  Let the list hold the
    node of an integer (or string) [x], and let [Fill] be given a pointer
    to a pointer variable.  When that variable is nil, [Fill] allocates one
    new cell, makes the variable point to it and sets the cell to [x];
    when the variable points to a cell already, [Fill] sets that cell to
    [x], whatever it held, and allocates nothing.  No other cell changes. *)
Theorem Fill_through_pointer (ns : list Node) (p : nat) (rest : list nat)
    (e : ty) (x : value) (a next : Z) (target : option Z)
    (mem0 : gmap Z value) (k : nat) :
  scalar_type e -> repr ns e p x ->
  mem0 !! a = Some (VPtr target) ->
  a <> next ->
  (forall b, target = Some b -> exists y, mem0 !! b = Some y) ->
  exists f,
    Fill ns (S (S (S k))) (Some (p :: rest))
         (Some (TPtr (TPtr e), VPtr (Some a))) mem0 next = Ok f /\
    match target with
    | None =>
        mem f = <[next := x]> (<[a := VPtr (Some next)]>
                                 (<[next := zero e]> mem0)) /\
        next_addr f = next + 1
    | Some b => mem f = <[b := x]> mem0 /\ next_addr f = next
    end.
Proof.
  intros Hst Hr Ha Hne Hb. unfold Fill.
  change (fromList ns (S (S (S k))) (Some (p :: rest))
            (RVal (TPtr (TPtr e)) false (VPtr (Some a)))
            (newFiller mem0 next))
    with ('(v', f) ← allocIndirect
              (RVal (TPtr (TPtr e)) false (VPtr (Some a)))
              (newFiller mem0 next);
          fromList ns (S (S k)) (Some (p :: rest)) v' f).
  unfold allocIndirect.
  cbn [rv_type allocIndirect_ty rv_get of_option mbind result_bind rv_ro].
  cbn [rv_get newFiller mem read_path]. rewrite Ha.
  cbn [of_option mbind option_bind result_bind].
  assert (Hfrom : forall c f y, mem f !! c = Some y ->
    fromList ns (S (S k)) (Some (p :: rest)) (RLoc e false c []) f =
    Ok (set_mem f (<[c := x]> (mem f)))).
  { intros c f y Hc.
    assert (fromList ns (S (S k)) (Some (p :: rest)) (RLoc e false c []) f
            = fromNode ns (S k) p (RLoc e false c []) f) as ->
      by (by destruct Hst as [-> | ->]).
    rewrite (fromNode_scalar_write ns k p e x false c [] f Hst Hr).
    by apply (rv_set_ok f e c [] y x x). }
  destruct target as [b|].
  - destruct (Hb b eq_refl) as [y Hcb].
    rewrite (allocIndirect_ty_scalar e _ _ Hst). cbn [mbind result_bind].
    rewrite (Hfrom b _ y) by done. by eexists.
  - cbn [new_cell newFiller next_addr mem fm out].
    set (f1 := mkFiller _ _ _ _).
    assert (Hc1 : mem f1 !! a = Some (VPtr None))
      by (unfold f1; simpl; by rewrite lookup_insert_ne by congruence).
    rewrite (rv_set_ok f1 (TPtr e) a [] _ (VPtr (Some next))
               (VPtr (Some next)) Hc1 eq_refl).
    cbn [mbind result_bind]. rewrite (allocIndirect_ty_scalar e _ _ Hst).
    cbn [mbind result_bind].
    rewrite (Hfrom next _ (zero e)).
    + by eexists.
    + unfold f1. simpl. rewrite lookup_insert_ne by congruence.
      by rewrite lookup_insert_eq.
Qed.

Lemma Fill_through_pointer_witness :
  let ns := [mkNode "" (NInt 5) None] in
  exists f g,
    Fill ns 3 (Some [0%nat]) (Some (TPtr (TPtr TInt), VPtr (Some 1)))
         {[ 1 := VPtr None ]} 2 = Ok f /\
    mem f !! 1 = Some (VPtr (Some 2)) /\ mem f !! 2 = Some (VInt 5) /\
    Fill ns 3 (Some [0%nat]) (Some (TPtr (TPtr TInt), VPtr (Some 1)))
         (<[ 7 := VInt 9 ]> {[ 1 := VPtr (Some 7) ]}) 2 = Ok g /\
    mem g !! 7 = Some (VInt 5) /\ next_addr g = 2.
Proof.
  intros ns.
  assert (Hr : repr ns TInt 0 (VInt 5)) by by exists 5.
  destruct (Fill_through_pointer ns 0 [] TInt (VInt 5) 1 2 None
              {[ 1 := VPtr None ]} 0) as (f & Hf & Hm & _).
  { by left. } { exact Hr. } { reflexivity. } { discriminate. }
  { intros b [=]. }
  destruct (Fill_through_pointer ns 0 [] TInt (VInt 5) 1 2 (Some 7)
              (<[ 7 := VInt 9 ]> {[ 1 := VPtr (Some 7) ]}) 0)
    as (g & Hg & Hmg & Hng).
  { by left. } { exact Hr. } { reflexivity. } { discriminate. }
  { intros b [= <-]. by exists (VInt 9). }
  exists f, g. split; [exact Hf|]. rewrite Hm, Hmg.
  split; [reflexivity|]. split; [reflexivity|]. split; [exact Hg|].
  split; [reflexivity|exact Hng].
Defined.
(** ** A label where an integer or a string is filled *)

(** C7. What the code does with a label that is not wrapped with a field
    name.  Let a slice hold two or more pointers that all hold the address
    of one integer (or string) [x]: [New] makes the node of every pointer
    after the first a leaf whose value is the [Label] of the first node,
    without an [IdentValue] around it (slice elements are not wrapped).
    [Fill] of that list into a pointer to a nil slice of integers (or of
    strings) sets the first element to [x] and then reaches the second
    element, a destination of kind [Int] (or [String]), with a node whose
    value is that [Label]: the [default] case of [fromNode] hands the
    [Label] to [v.Set], and [Fill] panics.  It neither skips the element
    nor returns.  More generally, [fromNode] panics on every destination
    of kind [Int] or [String] when the value of the node is a [Label], and
    only prints the label, changing nothing, when the value is an
    [IdentValue] that holds a [Label]. *)
Theorem bare_label_into_scalar_panics (h : gmap Z value) (p : Z) (e : ty)
    (x : value) (n k : nat) (a next : Z) (mem0 : gmap Z value) :
  h !! p = Some x -> scalar_type e -> plain e x ->
  mem0 !! a = Some VSliceNil ->
  let l := Some (seq 0 (S (S n))) in
  let ns := target_node x :: replicate (S n) again_node in
  New h (S (S (S k))) (Some (VSlice (replicate (S (S n)) (VPtr (Some p)))))
    = Ok (l, ns) /\
  Fill ns (S (S (S k))) l (Some (TPtr (TSlice e), VPtr (Some a))) mem0 next
    = Panic /\
  (forall nodes fuel i nd lbl v f,
     nodes !! i = Some nd -> rv_type v = e ->
     (Value nd = NLabel lbl -> fromNode nodes (S fuel) i v f = Panic) /\
     (forall name, Value nd = NIdent name (NLabel lbl) ->
        fromNode nodes (S fuel) i v f = Ok (println lbl f))).
Proof.
  intros Hp He Hx Ha l ns.
  split; [by apply (New_shared h p e x Hp He Hx)|].
  split.
  - unfold Fill.
    change (fromList ns (S (S (S k))) l
              (RVal (TPtr (TSlice e)) false (VPtr (Some a)))
              (newFiller mem0 next))
      with ('(v', f) ← allocIndirect
                (RVal (TPtr (TSlice e)) false (VPtr (Some a)))
                (newFiller mem0 next);
            fromList ns (S (S k)) l v' f).
    rewrite allocIndirect_pointer by done. cbn [mbind result_bind].
    change (fromList ns (S (S k)) l (RLoc (TSlice e) false a [])
              (newFiller mem0 next))
      with (sliceFromList_loop (fromNode ns (S k)) e 0
              (0%nat :: 1%nat :: seq 2 n)
              (RLoc (TSlice e) false a []) (newFiller mem0 next)).
    rewrite sliceFromList_loop_S.
    (* the first element is set to [x] *)
    cbn [rv_get read_path newFiller mem]. rewrite Ha.
    cbn [of_option mbind option_bind result_bind slice_elems rv_index app].
    rewrite (rv_set_ok (newFiller mem0 next) _ a [] _ _ _ Ha eq_refl).
    cbn [mbind result_bind].
    set (f1 := set_mem _ _).
    rewrite (fromNode_S_scalar ns k 0 e false a [SIndex 0] f1 He).
    change (ns !! 0%nat) with (Some (target_node x)).
    cbn [of_option mbind result_bind]. unfold target_node at 1.
    rewrite (fromNode_scalar_nval e x "1" (RLoc e false a [SIndex 0]) f1
               He Hx eq_refl).
    assert (Hc1 : mem f1 !! a = Some (VSlice [zero e]))
      by (simpl; by rewrite lookup_insert_eq).
    rewrite (rv_set_ok f1 _ a [SIndex 0] _ x (VSlice [x]) Hc1 eq_refl).
    cbn [mbind result_bind]. unfold f1. rewrite set_mem_twice.
    set (f2 := set_mem _ _).
    (* the second element meets the label *)
    rewrite sliceFromList_loop_S.
    assert (Hc2 : mem f2 !! a = Some (VSlice [x]))
      by (simpl; by rewrite lookup_insert_eq).
    cbn [rv_get read_path]. rewrite Hc2.
    cbn [of_option mbind option_bind result_bind slice_elems rv_index app].
    rewrite (rv_set_ok f2 _ a [] _ _ _ Hc2 eq_refl).
    cbn [mbind result_bind].
    rewrite (fromNode_bare_label_panics ns k 1 again_node "1"
               (RLoc e false a [SIndex 1]) _ eq_refl eq_refl He).
    reflexivity.
  - intros nodes fuel i nd lbl v f Hi Hv. split.
    + intros Hl. apply (fromNode_bare_label_panics nodes fuel i nd lbl v f Hi Hl).
      by rewrite Hv.
    + intros name Hl. simpl.
      destruct He as [He | He]; rewrite Hv, He, Hi; simpl;
        unfold fromNode_scalar; by rewrite Hl.
Qed.

Lemma bare_label_into_scalar_panics_witness :
  New {[ 7 := VInt 5 ]} 3 (Some (VSlice [VPtr (Some 7); VPtr (Some 7)]))
    = Ok (Some [0; 1]%nat,
          [mkNode "1" (NInt 5) None; mkNode "" (NLabel "1") None]) /\
  Fill [mkNode "1" (NInt 5) None; mkNode "" (NLabel "1") None] 3
       (Some [0; 1]%nat) (Some (TPtr (TSlice TInt), VPtr (Some 1)))
       {[ 1 := VSliceNil ]} 2 = Panic.
Proof.
  destruct (bare_label_into_scalar_panics {[ 7 := VInt 5 ]} 7 TInt (VInt 5)
              0 0 1 2 {[ 1 := VSliceNil ]})
    as (Hnew & Hfill & _).
  - reflexivity.
  - by left.
  - by exists 5.
  - reflexivity.
  - split; [exact Hnew|exact Hfill].
Defined.


End ModelFacts.
